(** * simphox: grid, derivative operators, FDFD solver dispatch and mode results

    A shallow embedding of the numerical core of simphox
    ([simphox/grid.py], [simphox/fdfd.py], [simphox/device.py],
    [simphox/utils.py]) and the properties of its specification.

    Conventions of the embedding.
    - A numpy float is a real number ([R]) and a numpy complex number a pair
      of reals ([C]); every operation is the exact one, rounding is not
      modelled.
    - A numpy array is its shape together with its elements in C order.
    - A scipy sparse matrix is its dimensions together with its coefficient
      function; only coefficients inside the dimensions are meaningful.
    - A Python exception is a value of [exn]; a call that may raise returns a
      [result]. *)

From stdpp Require Import gmap list strings.
From Stdlib Require Import Reals Lra ZArith Lia List Bool Sorted.
Import ListNotations.

(** ** Exceptions and fallible computations *)

Inductive exn : Type :=
| AttributeError (msg : string)
| ValueError (msg : string)
| TypeError (msg : string)
| IndexError (msg : string)
| ZeroDivisionError (msg : string)
| ExternalError (msg : string).

Inductive result (A : Type) : Type :=
| Ok (a : A)
| Raise (e : exn).
Arguments Ok {A} a.
Arguments Raise {A} e.

Global Instance result_ret : MRet result := fun A a => Ok a.
Global Instance result_bind : MBind result := fun A B k r =>
  match r with
  | Ok a => k a
  | Raise e => Raise e
  end.

(** A list comprehension whose body may raise. *)
Fixpoint map_result {A B} (f : A -> result B) (l : list A) : result (list B) :=
  match l with
  | [] => Ok []
  | a :: l' => b ← f a; bs ← map_result f l'; Ok (b :: bs)
  end.

Definition is_ok {A} (r : result A) : Prop := exists a, r = Ok a.

(** An exception of another class than [AttributeError]. *)
Definition not_dim_error (e : exn) : Prop :=
  match e with
  | AttributeError _ => False
  | _ => True
  end.

(** ** Real and complex scalars *)

Section Scalars.
Local Open Scope R_scope.

Definition Rltb (x y : R) : bool := if Rlt_dec x y then true else false.
Definition Reqb (x y : R) : bool := if Req_dec_T x y then true else false.

Record C : Type := mkC { Re : R; Im : R }.

Definition RtoC (x : R) : C := mkC x 0.
Definition Czero : C := RtoC 0.
Definition Cone : C := RtoC 1.
(** Python's [1j]. *)
Definition Ci : C := mkC 0 1.

Definition Cadd (a b : C) : C := mkC (Re a + Re b) (Im a + Im b).
Definition Cneg (a : C) : C := mkC (- Re a) (- Im a).
Definition Csub (a b : C) : C := mkC (Re a - Re b) (Im a - Im b).
Definition Cmul (a b : C) : C :=
  mkC (Re a * Re b - Im a * Im b) (Re a * Im b + Im a * Re b).
Definition Cconj (a : C) : C := mkC (Re a) (- Im a).
Definition Cinv (a : C) : C :=
  let d := Re a * Re a + Im a * Im a in mkC (Re a / d) (- Im a / d).
Definition Cdiv (a b : C) : C := Cmul a (Cinv b).
(** [np.abs] of a complex number. *)
Definition Cabs (a : C) : R := sqrt (Re a * Re a + Im a * Im a).

(** [np.exp] of a complex number. *)
Definition np_exp (z : C) : C :=
  mkC (exp (Re z) * cos (Im z)) (exp (Re z) * sin (Im z)).

(** [np.arctan2(y, x)]. *)
Definition np_arctan2 (y x : R) : R :=
  if Rlt_dec 0 x then atan (y / x)
  else if Rlt_dec x 0 then
    (if Rle_dec 0 y then atan (y / x) + PI else atan (y / x) - PI)
  else if Rlt_dec 0 y then PI / 2
  else if Rlt_dec y 0 then - (PI / 2)
  else 0.

(** [np.angle(z)]: the phase of [z], in (-pi, pi]. *)
Definition np_angle (z : C) : R := np_arctan2 (Im z) (Re z).

(** [np.sign] of a float. *)
Definition np_sign_real (x : R) : R :=
  if Rlt_dec x 0 then -1 else if Rlt_dec 0 x then 1 else 0.

(** [np.sign] of a complex number, as numpy 1.x defines it (the numpy that
    still has [np.int], which this code base uses): the sign of the real
    part, or of the imaginary part when the real part is zero. *)
Definition np_sign (z : C) : C :=
  if Req_dec_T (Re z) 0 then RtoC (np_sign_real (Im z))
  else RtoC (np_sign_real (Re z)).

(** [np.sqrt] of a float: [None] stands for [nan], the result on a negative
    argument. *)
Definition np_sqrt (x : R) : option R :=
  if Rlt_dec x 0 then None else Some (sqrt x).

(** [np.sqrt] of a complex number: the principal square root.  The reals
    have one zero, so on the negative real axis this is the root of positive
    imaginary part, which is numpy's result when the imaginary part is
    [+0.0]; for [-0.0] numpy returns the conjugate.  What is proved below
    uses only what both have: the root squares to its argument and its real
    part is not negative. *)
Definition np_csqrt (z : C) : C :=
  mkC (sqrt ((Cabs z + Re z) / 2))
      ((if Rlt_dec (Im z) 0 then -1 else 1) * sqrt ((Cabs z - Re z) / 2)).

(** Finite sums of complex numbers: [Csum f n] adds [f 0], ..., [f (n-1)]. *)
Fixpoint Csum (f : nat -> C) (n : nat) : C :=
  match n with
  | O => Czero
  | S k => Cadd (Csum f k) (f k)
  end.

End Scalars.

(** ** numpy arrays *)

Module Np.

Record ndarray (A : Type) : Type := mk_ndarray
  { shape : list nat;
    data : list A }.
Arguments mk_ndarray {A} shape data.
Arguments shape {A} _.
Arguments data {A} _.

(** [np.prod] of a shape. *)
Definition prod (s : list nat) : nat := fold_right Nat.mul 1%nat s.

(** The arrays numpy can build: as many elements as the shape says. *)
Definition wf {A} (a : ndarray A) : Prop := length (data a) = prod (shape a).

Definition ndim {A} (a : ndarray A) : nat := length (shape a).
Definition size {A} (a : ndarray A) : nat := length (data a).

(** A one-dimensional array from a Python sequence. *)
Definition of_list {A} (l : list A) : ndarray A := mk_ndarray [length l] l.

(** [a.flatten()], [a.ravel()]. *)
Definition flatten {A} (a : ndarray A) : ndarray A := of_list (data a).

(** [a.reshape(s)]. *)
Definition reshape {A} (a : ndarray A) (s : list nat) : result (ndarray A) :=
  if Nat.eqb (prod s) (size a) then Ok (mk_ndarray s (data a))
  else Raise (ValueError "cannot reshape array").

(** [k] consecutive chunks of [len] elements. *)
Fixpoint chunks {A} (len k : nat) (l : list A) : list (list A) :=
  match k with
  | O => []
  | S k' => firstn len l :: chunks len k' (skipn len l)
  end.

(** [np.split(v, k)] of a one-dimensional array. *)
Definition split {A} (v : ndarray A) (k : nat) : result (list (ndarray A)) :=
  if Nat.eqb (size v mod k) 0
  then Ok (map of_list (chunks (size v / k) k (data v)))
  else Raise (ValueError "array split does not result in an equal division").

Definition list_eqb (s t : list nat) : bool := bool_decide (s = t).

(** [np.stack(arrays)] along a new first axis. *)
Definition stack {A} (arrs : list (ndarray A)) : result (ndarray A) :=
  match arrs with
  | [] => Raise (ValueError "need at least one array to stack")
  | a :: _ =>
      if forallb (fun b => list_eqb (shape b) (shape a)) arrs
      then Ok (mk_ndarray (length arrs :: shape a) (concat (map data arrs)))
      else Raise (ValueError "all input arrays must have the same shape")
  end.


(** The step, in flat positions, of one index along [axis], and the index
    along [axis] of the element at flat position [p]. *)
Definition stride (s : list nat) (axis : nat) : nat := prod (skipn (S axis) s).
Definition coord (s : list nat) (axis p : nat) : nat :=
  (p / stride s axis) mod (nth axis s 1%nat).

(** [np.roll(a, shift, axis=axis)]; every use below has [axis < ndim a]. *)
Definition roll {A} (a : ndarray A) (shift : Z) (axis : nat) : ndarray A :=
  let s := shape a in
  let len := nth axis s 1%nat in
  let st := stride s axis in
  let src p :=
    let c := coord s axis p in
    let c' := Z.to_nat ((Z.of_nat c - shift) mod Z.of_nat len) in
    (p - c * st + c' * st)%nat in
  mk_ndarray s
    (flat_map (fun p => option_list (data a !! src p)) (seq 0 (size a))).

(** [np.roll(a, shift)]: the roll of the flattened array, in the shape of
    [a]. *)
Definition roll_flat {A} (a : ndarray A) (shift : Z) : ndarray A :=
  let src p := Z.to_nat ((Z.of_nat p - shift) mod Z.of_nat (size a)) in
  mk_ndarray (shape a)
    (flat_map (fun p => option_list (data a !! src p)) (seq 0 (size a))).

(** Element-wise operations on arrays of one shape, and with a scalar. *)
Definition map1 {A B} (f : A -> B) (a : ndarray A) : ndarray B :=
  mk_ndarray (shape a) (map f (data a)).
Definition map2 {A B D} (f : A -> B -> D) (a : ndarray A) (b : ndarray B)
  : ndarray D :=
  mk_ndarray (shape a) (zip_with f (data a) (data b)).

(** [np.ones(s) * x]. *)
Definition full {A} (s : list nat) (x : A) : ndarray A :=
  mk_ndarray s (repeat x (prod s)).

(** [a[..., np.newaxis]]. *)
Definition newaxis_last {A} (a : ndarray A) : ndarray A :=
  mk_ndarray (shape a ++ [1%nat]) (data a).

(** The sub-arrays [a[0]], [a[1]], ... that iterating over [a] yields. *)
Definition unstack {A} (a : ndarray A) : list (ndarray A) :=
  match shape a with
  | [] => []
  | k :: s => map (mk_ndarray s) (chunks (prod s) k (data a))
  end.

(** [np.meshgrid] with matrix (ij) indexing: one array per axis, of the shape of
    the grid, whose value at a cell is the axis' coordinate of that cell. *)
Definition meshgrid {A} (xs : list (list A)) : list (ndarray A) :=
  let s := map length xs in
  imap (fun ax x =>
          mk_ndarray s
            (flat_map (fun p => option_list (x !! coord s ax p))
                      (seq 0 (prod s)))) xs.

(** [np.max] of the elements. *)
Definition max (a : ndarray R) : result R :=
  match data a with
  | [] => Raise (ValueError "zero-size array to reduction operation maximum")
  | x :: l => Ok (fold_left Rmax l x)
  end.

End Np.

(** ** [Grid] *)

Module Grid.

Import Np.

(** [spacing: GridSpacing] is one float for all axes or one float per axis;
    [eps] is one float for all cells or an array. *)
Inductive spacing_arg : Type :=
| SpacingFloat (dx : R)
| SpacingSeq (dxs : list R).

Inductive eps_arg : Type :=
| EpsFloat (e : R)
| EpsArray (a : ndarray R).

(** The attributes of a [Grid] that the operators below read.  [size],
    [pos], [mesh_pos] and [components] only serve the geometry helpers. *)
Record t : Type := mk
  { shape : list nat;
    spacing : list R;
    ndim : nat;
    shape3 : list nat;
    n : nat;
    eps : ndarray R;
    cell_sizes : list (list R) }.

(** [Grid.__init__].  [np.ones((3 - ndim,))] raises on a negative length;
    building [mesh_pos] reads [size[0]], which an empty shape does not have,
    and runs [np.mgrid] with the spacings as steps, which raises on a step
    of zero (the number of steps is not a number). *)
Definition init (shape : list nat) (spacing : spacing_arg) (eps : eps_arg)
  : result t :=
  let ndim := length shape in
  let spacing :=
    match spacing with
    | SpacingFloat dx => repeat dx ndim
    | SpacingSeq dxs => dxs
    end in
  if 3 <? ndim then Raise (ValueError "negative dimensions are not allowed")
  else
  let shape3 := shape ++ repeat 1 (3 - ndim) in
  if negb (ndim =? length spacing)
  then Raise (AttributeError "Require len(grid_shape) == len(grid_spacing)")
  else
  let n := prod shape in
  let eps :=
    match eps with
    | EpsFloat e => full shape e
    | EpsArray a => a
    end in
  if negb (list_eqb shape (Np.shape eps))
  then Raise (AttributeError "Require grid_shape == eps.shape")
  else
  let cell_sizes :=
    map (fun i => if i <? ndim
                  then repeat (nth i spacing 0%R) (nth i shape 0)
                  else [1%R])
        (seq 0 3) in
  if ndim =? 0
  then Raise (IndexError "index 0 is out of bounds for axis 0 with size 0")
  else if existsb (fun dx => Reqb dx 0) spacing
  then Raise (ValueError "cannot convert float NaN to integer")
  else Ok (mk shape spacing ndim shape3 n eps cell_sizes).

(** The attributes [Grid.__init__] sets when it raises nothing. *)
Definition attributes (shape : list nat) (spacing : list R) (eps : ndarray R)
  : t :=
  let ndim := length shape in
  mk shape spacing ndim (shape ++ repeat 1 (3 - ndim)) (prod shape) eps
     (map (fun i => if i <? ndim
                    then repeat (nth i spacing 0%R) (nth i shape 0)
                    else [1%R])
          (seq 0 3)).

(** [Grid.reshape]: a flat vector of three field components becomes a
    grid-shaped array, anything else is flattened. *)
Definition reshape {A} (self : t) (v : ndarray A) : result (ndarray A) :=
  if Np.ndim v =? 1
  then parts ← Np.split v 3;
       comps ← map_result (fun split_v => Np.reshape split_v (shape3 self)) parts;
       Np.stack comps
  else Ok (Np.flatten v).

End Grid.

(** ** scipy sparse matrices *)

Module Sp.

Record spmatrix : Type := mk
  { nrows : nat;
    ncols : nat;
    coef : nat -> nat -> C }.

(** [sp.csr_matrix((r, c))]: the empty matrix of that shape. *)
Definition zeros (r c : nat) : spmatrix := mk r c (fun _ _ => Czero).

(** What scipy makes of a Python scalar where it expects a matrix
    ([coo_matrix(x)]): the 1 x 1 matrix holding it. *)
Definition of_scalar (x : C) : spmatrix := mk 1 1 (fun _ _ => x).

(** [sp.eye(n)]. *)
Definition eye (n : nat) : spmatrix :=
  mk n n (fun i j => if i =? j then Cone else Czero).

(** [sp.diags(vals, offsets, shape=(n, n))] with one scalar per diagonal:
    [vals[k]] fills the diagonal [j - i = offsets[k]]. *)
Definition diags (vals : list C) (offsets : list Z) (n : nat) : spmatrix :=
  mk n n (fun i j =>
            fold_right Cadd Czero
              (zip_with (fun v o =>
                           if (Z.of_nat j - Z.of_nat i =? o)%Z then v else Czero)
                        vals offsets)).

(** [sp.diags(v)]: the vector [v] on the main diagonal. *)
Definition diag (v : list C) : spmatrix :=
  mk (length v) (length v)
     (fun i j => if i =? j then nth i v Czero else Czero).

(** [sp.kron(A, B)]. *)
Definition kron (A B : spmatrix) : spmatrix :=
  mk (nrows A * nrows B) (ncols A * ncols B)
     (fun i j => Cmul (coef A (i / nrows B) (j / ncols B))
                      (coef B (i mod nrows B) (j mod ncols B))).

(** [A @ B], [A.dot(B)]. *)
Definition matmul (A B : spmatrix) : result spmatrix :=
  if ncols A =? nrows B
  then Ok (mk (nrows A) (ncols B)
              (fun i j => Csum (fun k => Cmul (coef A i k) (coef B k j))
                               (ncols A)))
  else Raise (ValueError "dimension mismatch").

(** [-A], [A * x] for a scalar [x], [A + B]. *)
Definition neg (A : spmatrix) : spmatrix :=
  mk (nrows A) (ncols A) (fun i j => Cneg (coef A i j)).
Definition scale (A : spmatrix) (x : C) : spmatrix :=
  mk (nrows A) (ncols A) (fun i j => Cmul (coef A i j) x).
Definition add (A B : spmatrix) : result spmatrix :=
  if (nrows A =? nrows B) && (ncols A =? ncols B)
  then Ok (mk (nrows A) (ncols A) (fun i j => Cadd (coef A i j) (coef B i j)))
  else Raise (ValueError "inconsistent shapes").

Definition sub (A B : spmatrix) : result spmatrix :=
  if (nrows A =? nrows B) && (ncols A =? ncols B)
  then Ok (mk (nrows A) (ncols A) (fun i j => Csub (coef A i j) (coef B i j)))
  else Raise (ValueError "inconsistent shapes").

(** [sp.vstack([A, B])] and [sp.hstack([A, B])]. *)
Definition vstack2 (A B : spmatrix) : result spmatrix :=
  if ncols A =? ncols B
  then Ok (mk (nrows A + nrows B) (ncols A)
              (fun i j => if i <? nrows A then coef A i j
                          else coef B (i - nrows A) j))
  else Raise (ValueError "incompatible dimensions for axis 1").
Definition hstack2 (A B : spmatrix) : result spmatrix :=
  if nrows A =? nrows B
  then Ok (mk (nrows A) (ncols A + ncols B)
              (fun i j => if j <? ncols A then coef A i j
                          else coef B i (j - ncols A)))
  else Raise (ValueError "incompatible dimensions for axis 0").

(** [sp.bmat(blocks)].  scipy records the height of each row of blocks and
    the width of each column from the first block that has one, and
    compares the other blocks with it. *)
Fixpoint block_length (dims : list nat) (acc : nat) : option nat :=
  match dims with
  | [] => Some acc
  | d :: ds =>
      if acc =? 0 then block_length ds d
      else if acc =? d then block_length ds acc
      else None
  end.

Fixpoint block_lengths (dims : list (list nat)) : option (list nat) :=
  match dims with
  | [] => Some []
  | ds :: rest =>
      match block_length ds 0, block_lengths rest with
      | Some n, Some ns => Some (n :: ns)
      | _, _ => None
      end
  end.

(** The block an index falls in, and the index inside that block. *)
Fixpoint locate (sizes : list nat) (i : nat) : nat * nat :=
  match sizes with
  | [] => (0, i)
  | s :: rest =>
      if i <? s then (0, i)
      else let p := locate rest (i - s) in (S (fst p), snd p)
  end.

Definition bmat (blocks : list (list spmatrix)) : result spmatrix :=
  let N := match blocks with row :: _ => length row | [] => 0 end in
  if (length blocks =? 0) || negb (forallb (fun row => length row =? N) blocks)
  then Raise (ValueError "blocks must be 2-D")
  else
    let cols :=
      map (fun j => flat_map (fun row => option_list (row !! j)) blocks)
          (seq 0 N) in
    match block_lengths (map (map nrows) blocks),
          block_lengths (map (map ncols) cols) with
    | Some heights, Some widths =>
        Ok (mk (fold_right Nat.add 0 heights) (fold_right Nat.add 0 widths)
              (fun i j =>
                 let bi := locate heights i in
                 let bj := locate widths j in
                 match blocks !! fst bi ≫= (fun row => row !! fst bj) with
                 | Some B =>
                     if (snd bi <? nrows B) && (snd bj <? ncols B)
                     then coef B (snd bi) (snd bj) else Czero
                 | None => Czero
                 end))
    | _, _ => Raise (ValueError "blocks have incompatible dimensions")
    end.

(** [A @ v] for a vector [v]. *)
Definition matvec (A : spmatrix) (v : list C) : list C :=
  map (fun i => Csum (fun k => Cmul (coef A i k) (nth k v Czero)) (ncols A))
      (seq 0 (nrows A)).

(** What an eigensolver computes: a number [lam] and a vector [v] with
    [A @ v = lam * v]. *)
Definition eigenpair (A : spmatrix) (lam : C) (v : list C) : Prop :=
  length v = ncols A /\ matvec A v = map (Cmul lam) v.

(** [A.conj().T], written [A^H]. *)
Definition adjoint (A : spmatrix) : spmatrix :=
  mk (ncols A) (nrows A) (fun i j => Cconj (coef A j i)).

(** Two sparse matrices are the same operator: same dimensions and same
    coefficients inside them. *)
Definition meq (A B : spmatrix) : Prop :=
  nrows A = nrows B /\ ncols A = ncols B /\
  forall i j, i < nrows A -> j < ncols A -> coef A i j = coef B i j.

(** [A] is minus the conjugate transpose of [A'], coefficient by
    coefficient; [B] is the conjugate transpose of [B']. *)
Definition anti_adj (A A' : spmatrix) : Prop :=
  forall i j, coef A i j = Cneg (Cconj (coef A' j i)).
Definition conj_adj (B B' : spmatrix) : Prop :=
  forall i j, coef B i j = Cconj (coef B' j i).

End Sp.

(** ** [yee_avg] of [simphox/utils.py] *)

Module Utils.

Import Np.

Section YeeAvg.
Local Open Scope R_scope.

(** [utils.yee_avg].  The sums and divisions are the exact ones: the mean
    of equal values is that value, where in binary64 the mean of three,
    [(c + c + c) / 3], can differ from [c] in the last place. *)
Definition yee_avg (params : ndarray R) (shift : Z) : result (ndarray R) :=
  if (Np.ndim params =? 1)%nat
  then
    let p := map1 (fun x => x / 3)
               (map2 Rplus (map2 Rplus params (roll_flat params shift))
                     (roll_flat params (- shift))) in
    stack [p; p; p]
  else
    let p := if (Np.ndim params =? 2)%nat then newaxis_last params else params in
    let p_x := map1 (fun x => x / 2) (map2 Rplus p (roll p shift 1)) in
    let p_y := map1 (fun x => x / 2) (map2 Rplus p (roll p shift 0)) in
    let p_z := map1 (fun x => x / 2) (map2 Rplus p_y (roll p_y shift 1)) in
    stack [p_x; p_y; p_z].

End YeeAvg.

(** [utils.d2curl_op]: the curl as one block matrix of per-axis
    derivatives. *)
Definition d2curl_op (d : list Sp.spmatrix) : result Sp.spmatrix :=
  match d with
  | d0 :: d1 :: d2 :: _ =>
      let o := Sp.zeros (Sp.nrows d0) (Sp.nrows d0) in
      Sp.bmat [[o; Sp.neg d2; d1];
               [d2; o; Sp.neg d0];
               [Sp.neg d1; d0; o]]
  | _ => Raise (IndexError "list index out of range")
  end.

End Utils.

(** ** [SimGrid] *)

Module SimGrid.

Import Np.

(** [pml] is an int (the same thickness on every axis), a tuple, or (outside
    its annotation, but accepted by the code) an integer array. *)
Inductive pml_arg : Type :=
| PmlInt (t : Z)
| PmlTuple (ts : list Z)
| PmlArray (ts : list Z).

Inductive bloch_arg : Type :=
| BlochFloat (phase : R)
| BlochSeq (phases : list R).

Inductive dtype : Type := float64 | complex128.

Record t : Type := mk
  { grid : Grid.t;
    pml_shape : option (list Z);
    pml_eps : R;
    yee_avg : Z;
    bloch : list C;
    dtype_of : dtype;
    _dxes : list (ndarray C) * list (ndarray C) }.

(** numpy's broadcasting of an element-wise comparison of two
    one-dimensional arrays. *)
Definition broadcast_cmp {A B} (f : A -> B -> bool) (l1 : list A) (l2 : list B)
  : result (list bool) :=
  match l1, l2 with
  | [a], _ => Ok (map (f a) l2)
  | _, [b] => Ok (map (fun a => f a b) l1)
  | _, _ =>
      if length l1 =? length l2 then Ok (zip_with f l1 l2)
      else Raise (ValueError "operands could not be broadcast together")
  end.

(** [np.any]. *)
Definition any (l : list bool) : bool := existsb (fun b => b) l.

(** The Bloch phase is zero on every axis. *)
Definition bloch_phase_zero (bp : bloch_arg) : Prop :=
  match bp with
  | BlochFloat phase => phase = 0%R
  | BlochSeq phases => Forall (fun phase => phase = 0%R) phases
  end.

(** [np.exp(1j * phase)]. *)
Definition bloch_factor (phase : R) : C := np_exp (Cmul Ci (RtoC phase)).

Definition pml_bound_msg : string :=
  "PML shape must be more than 3 and less than half the shape on each axis.".

(** The thickness per axis that a [pml] argument stands for, where the
    constructor gets as far as the guard. *)
Definition pml_thickness (p : pml_arg) (ndim : nat) : option (list Z) :=
  match p with
  | PmlInt t => Some (repeat t ndim)
  | PmlArray ts => Some ts
  | PmlTuple _ => None
  end.

(** The bound on a thickness [t] for an axis of [s] cells, as the
    specification words it ([3 < t < s / 2], the half of [s] a real number),
    and as the guard tests it (the half of [s] rounded down). *)
Definition spec_pml_bound (t : Z) (s : nat) : Prop :=
  (3 < IZR t /\ IZR t < INR s / 2)%R.
Definition pml_bound (t : Z) (s : nat) : Prop :=
  (3 < t /\ t < Z.of_nat (s / 2))%Z.

(** The test guarding the PML thickness: [np.any(pml_shape <= 3) or
    np.any(pml_shape >= self.shape // 2)] and the raise under it. *)
Definition pml_check (ps : list Z) (shape : list nat) : result (list Z) :=
  if any (map (fun t => (t <=? 3)%Z) ps)
  then Raise (AttributeError pml_bound_msg)
  else
    ge ← broadcast_cmp (fun t s => (Z.of_nat (s / 2) <=? t)%Z) ps shape;
    if any ge then Raise (AttributeError pml_bound_msg) else Ok ps.

(** [SimGrid.__init__] (with [gpu=False]).  The second assignment to
    [pml_shape] replaces the first, so a tuple stays a tuple, and the
    comparison of a tuple with [3] raises. *)
Definition init (shape : list nat) (spacing : Grid.spacing_arg)
    (eps : Grid.eps_arg) (bloch_phase : bloch_arg) (pml : option pml_arg)
    (pml_eps : R) (yee_avg : Z) : result t :=
  g ← Grid.init shape spacing eps;
  let ndim := Grid.ndim g in
  pml_shape ←
    match pml with
    | None => Ok None
    | Some (PmlTuple _) =>
        Raise (TypeError "'<=' not supported between instances of 'tuple' and 'int'")
    | Some (PmlInt t) =>
        ps ← pml_check (repeat t ndim) (Grid.shape g); Ok (Some ps)
    | Some (PmlArray ts) =>
        ps ← pml_check ts (Grid.shape g); Ok (Some ps)
    end;
  if match pml_shape with
     | Some ps => negb (length ps =? length (Grid.shape g))
     | None => false
     end
  then Raise (AttributeError "Need len(pml_shape) == len(grid_shape)")
  else
  let bloch :=
    match bloch_phase with
    | BlochFloat phase => repeat (bloch_factor phase) ndim
    | BlochSeq phases => map bloch_factor phases
    end in
  if negb (length bloch =? length (Grid.shape g))
  then Raise (AttributeError "Need len(bloch_phase) == len(grid_shape)")
  else
  let dtype :=
    match pml, bloch_phase with
    | None, BlochFloat phase => if Reqb phase 0 then float64 else complex128
    | _, _ => complex128
    end in
  let dxes := (map (map1 RtoC) (meshgrid (Grid.cell_sizes g)),
               map (map1 RtoC) (meshgrid (Grid.cell_sizes g))) in
  Ok (mk g pml_shape pml_eps yee_avg bloch dtype dxes).

(** The operator of one axis of [n] cells with Bloch factor [b], forward or
    backward: the body of the list comprehensions of [SimGrid.deriv]. *)
Definition axis_op (back : bool) (b : C) (n : nat) : Sp.spmatrix :=
  if 1 <? n
  then
    if back
    then Sp.diags [Cone; Cneg Cone; Cneg (Cconj b)] [0; -1; Z.of_nat n - 1]%Z n
    else Sp.diags [Cneg Cone; Cone; b] [0; 1; - Z.of_nat n + 1]%Z n
  else Sp.of_scalar Czero.

(** [SimGrid.deriv]: the discrete derivative along each of the three axes,
    forward or backward. *)
Definition deriv (self : t) (back : bool) : result (list Sp.spmatrix) :=
  let ndim := Grid.ndim (grid self) in
  let b := bloch self ++ repeat Cone (3 - ndim) in
  let s := Grid.shape (grid self) ++ repeat 1 (3 - ndim) in
  let dx := if back then snd (_dxes self) else fst (_dxes self) in
  let d := imap (fun ax n => axis_op back (nth ax b Czero) n) s in
  match s, d with
  | s0 :: s1 :: s2 :: _, d0 :: d1 :: d2 :: _ =>
      let d := [Sp.kron d0 (Sp.eye (s1 * s2));
                Sp.kron (Sp.kron (Sp.eye s0) d1) (Sp.eye s2);
                Sp.kron (Sp.eye (s0 * s1)) d2] in
      map_result
        (fun ax =>
           match dx !! ax, d !! ax with
           | Some dxa, Some da =>
               Sp.matmul
                 (Sp.diag (map Cinv (data (flatten dxa)))) da
           | _, _ => Raise (IndexError "list index out of range")
           end)
        (seq 0 (length s))
  | _, _ => Raise (IndexError "index out of bounds")
  end.

(** The properties [df] and [db]. *)
Definition df (self : t) : result (list Sp.spmatrix) := deriv self false.
Definition db (self : t) : result (list Sp.spmatrix) := deriv self true.

(** The body of the property [eps_t]; the cache in front of it is modelled
    with the object store below. *)
Definition eps_t_body (self : t) : result (ndarray R) :=
  if (0 <? yee_avg self)%Z
  then Utils.yee_avg (Grid.eps (grid self)) (yee_avg self)
  else stack [Grid.eps (grid self); Grid.eps (grid self); Grid.eps (grid self)].

(** *** The curl of a field

    [curl_e] and [curl_h] pass their first argument, a finite difference
    and [beta] to [utils.curl], which [grid.py] imports and this version of
    [utils.py] does not define; it is a parameter here.  As the annotations
    and docstrings of [curl_e] and [curl_h] have it, it returns an array
    (the discretized curl), or raises.  What a caller passes for the field
    is any Python value. *)

Inductive pyval : Type :=
| PyNone
| PyFloat (x : R)
| PyArray (a : ndarray C).

Section Curl.

Variable curl :
  pyval -> (ndarray C -> nat -> result (ndarray C)) -> option R ->
  result (ndarray C).

(** The differences [de] and [dh] local to [curl_e] and [curl_h]; the field
    component and the cell sizes have the shape of the grid. *)
Definition de (self : t) (e_ : ndarray C) (d : nat) : result (ndarray C) :=
  match fst (_dxes self) !! d with
  | Some dx =>
      Ok (map2 Cdiv (map2 Csub (roll e_ (-1) d) e_) dx)
  | None => Raise (IndexError "list index out of range")
  end.

Definition dh (self : t) (h_ : ndarray C) (d : nat) : result (ndarray C) :=
  match snd (_dxes self) !! d with
  | Some dx =>
      Ok (map2 Cdiv (map2 Csub h_ (roll h_ 1 d)) dx)
  | None => Raise (IndexError "list index out of range")
  end.

(** [SimGrid.curl_e(e, beta=None)] and [SimGrid.curl_h(h, beta=None)]. *)
Definition curl_e (self : t) (e : pyval) (beta : option R)
  : result (ndarray C) :=
  curl e (de self) beta.

Definition curl_h (self : t) (h : pyval) (beta : option R)
  : result (ndarray C) :=
  curl h (dh self) beta.

End Curl.

End SimGrid.

(** ** Sorting and dense arrays of complex numbers *)

Module Dense.

(** A two-dimensional numpy array of complex numbers, as the list of its
    rows. *)
Definition t : Type := list (list C).

(** The order numpy sorts floats in: increasing, [nan] last. *)
Definition key_lt (a b : option R) : bool :=
  match a, b with
  | Some x, Some y => Rltb x y
  | Some _, None => true
  | None, _ => false
  end.

(** The indices [inds] list keys in numpy's increasing order. *)
Definition sorted_by (keys : list (option R)) (inds : list nat) : Prop :=
  StronglySorted
    (fun i j => key_lt (nth j keys None) (nth i keys None) = false) inds.

(** A list of floats is in non-increasing order: for every pair of indices
    [i < j], the element at [j] is at most the element at [i]. *)
Definition non_increasing (l : list R) : Prop :=
  forall i j x y, i < j -> l !! i = Some x -> l !! j = Some y -> (y <= x)%R.

(** [np.argsort(keys)]: insertion sort on the indices, which is what numpy
    does on the short arrays of a mode solve; equal keys keep their order. *)
Fixpoint insert_idx (keys : list (option R)) (i : nat) (sorted : list nat)
  : list nat :=
  match sorted with
  | [] => [i]
  | j :: rest =>
      if key_lt (nth i keys None) (nth j keys None)
      then i :: j :: rest
      else j :: insert_idx keys i rest
  end.

Definition argsort (keys : list (option R)) : list nat :=
  fold_left (fun acc i => insert_idx keys i acc) (seq 0 (length keys)) [].

(** [a[inds]] for a one-dimensional array. *)
Definition take {A} (a : list A) (inds : list nat) : result (list A) :=
  map_result (fun i => match a !! i with
                       | Some x => Ok x
                       | None => Raise (IndexError "index out of bounds")
                       end) inds.

(** [h[:, j]], and [h[:, inds].T]: for each index, that column of [h]. *)
Definition column (h : t) (j : nat) : result (list C) :=
  map_result (fun row => match row !! j with
                         | Some x => Ok x
                         | None => Raise (IndexError "index out of bounds")
                         end) h.
Definition columns (h : t) (inds : list nat) : result t :=
  map_result (column h) inds.

(** [A @ V] for a sparse [A] and a dense [V]. *)
Definition spmatmul (A : Sp.spmatrix) (V : t) : result t :=
  if Sp.ncols A =? length V
  then Ok (map (fun i =>
                  map (fun m =>
                         Csum (fun k => Cmul (Sp.coef A i k)
                                             (nth m (nth k V []) Czero))
                              (Sp.ncols A))
                      (seq 0 (length (nth 0 V []))))
               (seq 0 (Sp.nrows A)))
  else Raise (ValueError "dimension mismatch").

(** [h * row] and [h / row], a one-row array broadcast over the rows of
    [h]. *)
Definition mul_row (h : t) (row : list C) : t :=
  map (fun r => zip_with Cmul r row) h.
Definition div_row (h : t) (row : list C) : t :=
  map (fun r => zip_with Cdiv r row) h.

End Dense.

(** ** [FDFD]

    An [FDFD] object is the attributes of its [SimGrid] part together with
    its [wavelength].  Its [_dxes] are the real cell sizes that
    [SimGrid.__init__] computes, or the complex ones that [FDFD.__init__]
    stores over them when the grid has a PML; what is stated below about
    [FDFD] holds for every such object. *)

Module FDFD.

Import Np.

Record t : Type := mk
  { sim : SimGrid.t;
    wavelength : R }.

Definition ndim (self : t) : nat := Grid.ndim (SimGrid.grid (sim self)).
Definition n (self : t) : nat := Grid.n (SimGrid.grid (sim self)).
Definition eps (self : t) : ndarray R := Grid.eps (SimGrid.grid (sim self)).

(** The property [k0], [2 * np.pi / self.wavelength]: a division of Python
    floats, which raises on a wavelength of zero. *)
Definition k0 (self : t) : result R :=
  if Reqb (wavelength self) 0
  then Raise (ZeroDivisionError "float division by zero")
  else Ok (2 * PI / wavelength self)%R.

Definition dim_msg : string := "Grid dimension must be 1 or 2".

(** [FDFD.wgm], the operator of the waveguide mode solver.  Here and below
    [eps_t] is the array that reading the property [self.eps_t] returns
    (the read itself never raises, see [eps_t_body_total]). *)
Definition wgm (self : t) (eps_t : ndarray R) : result Sp.spmatrix :=
  if negb (ndim self <=? 2) then Raise (AttributeError dim_msg)
  else
    df ← SimGrid.df (sim self);
    db ← SimGrid.db (sim self);
    let eps := map (fun e => data (flatten e)) (unstack eps_t) in
    if ndim self =? 2
    then
      match eps with
      | e0 :: e1 :: eps_rest =>
          let eps_10 := Sp.diag (map RtoC (e1 ++ e0)) in
          k ← k0 self;
          let m1 := Sp.scale eps_10 (RtoC (k * k)) in
          match df, eps_rest, db with
          | df0 :: df1 :: _, e2 :: _, db0 :: db1 :: _ =>
              v ← Sp.vstack2 (Sp.neg df1) df0;
              t1 ← Sp.matmul eps_10 v;
              t2 ← Sp.matmul t1 (Sp.diag (map (fun x => RtoC (/ x)) e2));
              h ← Sp.hstack2 (Sp.neg db1) db0;
              m2 ← Sp.matmul t2 h;
              vb ← Sp.vstack2 db0 db1;
              hf ← Sp.hstack2 df0 df1;
              m3 ← Sp.matmul vb hf;
              m12 ← Sp.add m1 m2;
              Sp.add m12 m3
          | _, _, _ => Raise (IndexError "list index out of range")
          end
      | _ => Raise (IndexError "list index out of range")
      end
    else
      match eps with
      | e0 :: _ =>
          let d := Sp.diag (map RtoC e0) in
          k ← k0 self;
          match df, db with
          | df0 :: _, db0 :: _ =>
              p ← Sp.matmul df0 db0;
              Sp.add (Sp.scale d (RtoC (k * k))) p
          | _, _ => Raise (IndexError "list index out of range")
          end
      | [] => Raise (IndexError "index 0 is out of bounds for axis 0")
      end.

(** *** Conversion between the fields *)

(** Calling an array, [a(x)]: numpy arrays are not callable. *)
Definition call_array (a x : ndarray C) : result (ndarray C) :=
  Raise (TypeError "'numpy.ndarray' object is not callable").

Definition of_optional (beta : option R) : SimGrid.pyval :=
  match beta with
  | None => SimGrid.PyNone
  | Some b => SimGrid.PyFloat b
  end.

Section Fields.

Variable curl :
  SimGrid.pyval -> (ndarray C -> nat -> result (ndarray C)) -> option R ->
  result (ndarray C).

(** [FDFD.e2h(e, beta=None)]: [self.curl_e(beta)(e) / (1j * self.k0)].  The
    one positional argument of [curl_e] is its field, so [beta] is passed
    for the field, and what [curl_e] returns is then called on [e]. *)
Definition e2h (self : t) (e : ndarray C) (beta : option R)
  : result (ndarray C) :=
  e ← (if Np.ndim e =? 2 then Grid.reshape (SimGrid.grid (sim self)) e
       else Ok e);
  c ← SimGrid.curl_e curl (sim self) (of_optional beta) None;
  r ← call_array c e;
  k ← k0 self;
  Ok (map1 (fun z => Cdiv z (Cmul Ci (RtoC k))) r).

(** [FDFD.h2e(h, beta=None)]:
    [self.curl_h(beta)(h) / (1j * self.k0 * self.eps_t)]. *)
Definition h2e (self : t) (eps_t : ndarray R) (h : ndarray C) (beta : option R)
  : result (ndarray C) :=
  h ← (if Np.ndim h =? 2 then Grid.reshape (SimGrid.grid (sim self)) h
       else Ok h);
  c ← SimGrid.curl_h curl (sim self) (of_optional beta) None;
  r ← call_array c h;
  k ← k0 self;
  Ok (map2 (fun z x => Cdiv z (Cmul (Cmul Ci (RtoC k)) (RtoC x)))
           r eps_t).

End Fields.

(** The last two statements of [wgm_solve] before its return:
    [factor = np.exp(-1j * np.angle(h[:1, :]))] for a complex grid,
    [np.sign(h[:1, :])] for a real one, and [h *= factor], the one row of
    [factor] broadcast over the rows of [h].  The product is the exact one:
    for a complex grid the first row becomes [|z|], where in binary64
    [z * exp(-1j * angle(z))] keeps an imaginary part of the size of the
    rounding error. *)
Definition normalise (dt : SimGrid.dtype) (h : Dense.t) : Dense.t :=
  let factor :=
    map (map (match dt with
              | SimGrid.complex128 =>
                  fun z => np_exp (Cmul (Cneg Ci) (RtoC (np_angle z)))
              | SimGrid.float64 => np_sign
              end))
        (firstn 1 h) in
  match factor with
  | [row] => Dense.mul_row h row
  | _ => h
  end.

(** *** The solvers

    The linear and eigenvalue solvers are collaborators ([scipy], the MKL
    bindings of [simphox/mkl.py]).  A collaborator returns a value or fails
    with a message, and its failure is raised as [ExternalError]. *)

Definition call_ext {A} (r : string + A) : result A :=
  match r with
  | inl msg => Raise (ExternalError msg)
  | inr a => Ok a
  end.

(** What is passed for [beta_guess]: a float (a number or [nan]), a pair of
    floats, or anything else. *)
Inductive beta_arg : Type :=
| BetaFloat (beta : R)
| BetaNaN
| BetaRange (lo hi : R)
| BetaOther.

(** What [solve] returns: a field, or the pair of solution and exit code
    that scipy's iterative solvers return. *)
Inductive solve_out : Type :=
| Field (e : ndarray C)
| SolverPair (x : list C) (info : Z).

Definition size_msg : string :=
  "Expected src.size == {self.n * 3} or {self.n}, but got {b.size}.".

(** The properties [curl_curl] and [ddz].  [curl_curl] sits behind
    [lru_cache()]; what it reads ([df], [db]) is not reassigned by any of the
    operations modelled here, so the cache is left out. *)
Definition curl_curl (self : t) : result Sp.spmatrix :=
  db ← SimGrid.db (sim self);
  cb ← Utils.d2curl_op db;
  df ← SimGrid.df (sim self);
  cf ← Utils.d2curl_op df;
  Sp.matmul cb cf.

Definition ddz (self : t) : result Sp.spmatrix :=
  df ← SimGrid.df (sim self);
  db ← SimGrid.db (sim self);
  match db, df with
  | db0 :: db1 :: _, df0 :: df1 :: _ =>
      a ← Sp.matmul (Sp.neg db0) df0;
      b ← Sp.matmul db1 df1;
      Sp.sub a b
  | _, _ => Raise (IndexError "list index out of range")
  end.

Section Solvers.

Variable spsolve_pardiso : Sp.spmatrix -> list C -> string + list C.
Variable Precond : Type.
Variable spilu : Sp.spmatrix -> string + Precond.
Variable gmres : Sp.spmatrix -> list C -> Precond -> string + (list C * Z).
Variable bicgstab : Sp.spmatrix -> list C -> Precond -> string + (list C * Z).
Variable eigs :
  Sp.spmatrix -> nat -> option R -> R -> string + (list C * Dense.t).
Variable feast_eigs :
  Sp.spmatrix -> R * R -> nat -> string + (list C * Dense.t).

(** [FDFD.mat] and [FDFD.matz]. *)
Definition mat (self : t) (eps_t : ndarray R) : result Sp.spmatrix :=
  cc ← curl_curl self;
  k ← k0 self;
  Sp.sub cc
         (Sp.scale (Sp.diag (map RtoC (data (flatten eps_t))))
                   (RtoC (k * k))).

Definition matz (self : t) (eps_t : ndarray R) : result Sp.spmatrix :=
  d ← ddz self;
  k ← k0 self;
  match unstack eps_t with
  | _ :: _ :: e2 :: _ =>
      Sp.sub d
             (Sp.scale (Sp.diag (map RtoC (data (flatten e2))))
                       (RtoC (k * k)))
  | _ => Raise (IndexError "index 2 is out of bounds for axis 0")
  end.

(** [FDFD.solve]. *)
Definition solve (self : t) (eps_t : ndarray R) (src : ndarray C)
    (solver_fn : option (Sp.spmatrix -> list C -> string + list C))
    (reshaped : bool) (iterative : Z) : result solve_out :=
  k ← k0 self;
  let b := map (Cmul (RtoC k)) (data (flatten src)) in
  e ←
    (if length b =? n self * 3
     then
       if (iterative =? -1)%Z && negb (bool_decide (is_Some solver_fn))
          && (ndim self =? 3)
       then
         A ← mat self eps_t;
         A' ← mat self eps_t;
         M ← call_ext (spilu A');
         A'' ← mat self eps_t;
         xi ← call_ext (if (iterative =? 1)%Z then gmres A'' b M
                        else bicgstab A'' b M);
         Ok (SolverPair (fst xi) (snd xi))
       else
         A ← mat self eps_t;
         x ← call_ext (match solver_fn with
                       | Some f => f A b
                       | None => spsolve_pardiso A b
                       end);
         Ok (Field (of_list x))
     else if length b =? n self
     then
       A ← matz self eps_t;
       hz ← call_ext (match solver_fn with
                      | Some f => f A b
                      | None => spsolve_pardiso A b
                      end);
       let o := map (fun _ => Czero) hz in
       Ok (Field (mk_ndarray [3; length hz] (o ++ o ++ hz)))
     else Raise (ValueError size_msg));
  if reshaped
  then
    match e with
    | Field a => a' ← Grid.reshape (SimGrid.grid (sim self)) a; Ok (Field a')
    | SolverPair _ _ =>
        Raise (AttributeError "'tuple' object has no attribute 'ndim'")
    end
  else Ok e.

(** [FDFD.wgm_solve]. *)
Definition wgm_solve (self : t) (eps_t : ndarray R) (num_modes : nat)
    (beta_guess : option beta_arg) (tol : R) : result (list C * Dense.t) :=
  df ← SimGrid.df (sim self);
  let default_sigma :=
    k ← k0 self;
    m ← Np.max (eps self);
    Ok (r ← np_sqrt m; Some ((k * r) * (k * r))%R) in
  eig ←
    match beta_guess with
    | Some BetaOther =>
        Raise (TypeError "Expected beta_guess to be None, float, or Tuple[float, float]")
    | Some (BetaRange lo hi) =>
        let erange := ((lo * lo)%R, (hi * hi)%R) in
        A ← wgm self eps_t;
        call_ext (feast_eigs A erange num_modes)
    | _ =>
        sigma ← match beta_guess with
                | Some (BetaFloat beta) =>
                    if Reqb beta 0 then default_sigma
                    else Ok (Some (beta * beta)%R)
                | Some BetaNaN => Ok None
                | _ => default_sigma
                end;
        A ← wgm self eps_t;
        call_ext (eigs A num_modes sigma tol)
    end;
  let eigvals := fst eig in
  let eigvecs := snd eig in
  let inds_sorted :=
    rev (Dense.argsort (map (fun ev => np_sqrt (Re ev)) eigvals)) in
  h ←
    (if 1 <? ndim self
     then
       match df with
       | df0 :: df1 :: _ =>
           hs ← Sp.hstack2 df0 df1;
           p ← Dense.spmatmul hs eigvecs;
           let hz := Dense.div_row p
                       (map (fun ev => Cmul Ci (np_csqrt ev)) eigvals) in
           Ok (eigvecs ++ hz)
       | _ => Raise (IndexError "list index out of range")
       end
     else Ok eigvecs);
  let h := normalise (SimGrid.dtype_of (sim self)) h in
  lams ← Dense.take eigvals inds_sorted;
  modes ← Dense.columns h inds_sorted;
  Ok (map np_csqrt lams, modes).

End Solvers.

End FDFD.

(** ** Objects, references and the cache of [eps_t]

    [eps] is an attribute holding a reference to a numpy array: it can be
    rebound ([fdfd.eps = a]) and the array can be written in place
    ([fdfd.eps[i] = x]), and two attributes can hold the same array.  The
    property [eps_t] sits behind [functools.lru_cache()], whose key is the
    object itself. *)

Module Device.

Import Np.

Definition loc : Type := nat.
Definition oid : Type := nat.

(** An [FDFD] object: its attributes by value, except [eps], which is the
    reference [eps_ref] (the field [Grid.eps] of [attrs] is not read). *)
Record fdfd_obj : Type := mk_obj
  { attrs : FDFD.t;
    eps_ref : loc }.

(** The store: the arrays, the objects, the entries of the cache of [eps_t]
    (most recently used first), and the next fresh identity. *)
Record state : Type := mk_state
  { arrays : gmap loc (ndarray R);
    objects : gmap oid fdfd_obj;
    eps_t_cache : list (oid * ndarray R);
    next : nat }.

Definition with_eps (f : FDFD.t) (a : ndarray R) : FDFD.t :=
  let sg := FDFD.sim f in
  let g := SimGrid.grid sg in
  FDFD.mk
    (SimGrid.mk
       (Grid.mk (Grid.shape g) (Grid.spacing g) (Grid.ndim g) (Grid.shape3 g)
                (Grid.n g) a (Grid.cell_sizes g))
       (SimGrid.pml_shape sg) (SimGrid.pml_eps sg) (SimGrid.yee_avg sg)
       (SimGrid.bloch sg) (SimGrid.dtype_of sg) (SimGrid._dxes sg))
    (FDFD.wavelength f).

(** The attributes of object [o] as they read now. *)
Definition view (s : state) (o : oid) : result FDFD.t :=
  match objects s !! o with
  | Some ob =>
      match arrays s !! eps_ref ob with
      | Some a => Ok (with_eps (attrs ob) a)
      | None => Raise (AttributeError "dangling reference")
      end
  | None => Raise (AttributeError "no such object")
  end.

(** [functools.lru_cache()] keeps the 128 most recently used entries. *)
Definition maxsize : nat := 128.

Fixpoint cache_find (o : oid) (c : list (oid * ndarray R))
  : option (ndarray R) :=
  match c with
  | [] => None
  | (o', v) :: c' => if o' =? o then Some v else cache_find o c'
  end.

Definition cache_remove (o : oid) (c : list (oid * ndarray R))
  : list (oid * ndarray R) :=
  filter (fun e => negb (fst e =? o)) c.

Definition set_cache (s : state) (c : list (oid * ndarray R)) : state :=
  mk_state (arrays s) (objects s) c (next s).

(** Reading the property [eps_t] of object [o]: a hit returns the stored
    array whatever [eps] is now; a miss runs the body and stores its
    result. *)
Definition eps_t (s : state) (o : oid) : result (ndarray R * state) :=
  match cache_find o (eps_t_cache s) with
  | Some v => Ok (v, set_cache s ((o, v) :: cache_remove o (eps_t_cache s)))
  | None =>
      f ← view s o;
      v ← SimGrid.eps_t_body (FDFD.sim f);
      Ok (v, set_cache s (firstn maxsize ((o, v) :: eps_t_cache s)))
  end.

(** [np.array(...)]: a new array object. *)
Definition new_array (s : state) (a : ndarray R) : loc * state :=
  (next s,
   mk_state (<[next s := a]> (arrays s)) (objects s) (eps_t_cache s)
            (S (next s))).

(** [obj.eps = a]: the attribute is rebound to the array at [l]. *)
Definition setattr_eps (s : state) (o : oid) (l : loc) : result state :=
  match objects s !! o with
  | Some ob =>
      Ok (mk_state (arrays s) (<[o := mk_obj (attrs ob) l]> (objects s))
                   (eps_t_cache s) (next s))
  | None => Raise (AttributeError "no such object")
  end.


(** [a.flat[i] = x]: the array at [l] is written in place. *)
Definition setitem (s : state) (l : loc) (i : nat) (x : R) : result state :=
  match arrays s !! l with
  | Some a =>
      if i <? size a
      then Ok (mk_state
                 (<[l := mk_ndarray (shape a) (<[i := x]> (data a))]> (arrays s))
                 (objects s) (eps_t_cache s) (next s))
      else Raise (IndexError "index out of bounds")
  | None => Raise (AttributeError "dangling reference")
  end.

(** [copy.deepcopy(obj)]: a new object whose [eps] is a new array with the
    same elements. *)
Definition deepcopy (s : state) (o : oid) : result (oid * state) :=
  match objects s !! o with
  | Some ob =>
      match arrays s !! eps_ref ob with
      | Some a =>
          let l' := next s in
          let o' := S (next s) in
          Ok (o', mk_state (<[l' := a]> (arrays s))
                           (<[o' := mk_obj (attrs ob) l']> (objects s))
                           (eps_t_cache s) (S (S (next s))))
      | None => Raise (AttributeError "dangling reference")
      end
  | None => Raise (AttributeError "no such object")
  end.

(** Every identity in use is below the next fresh one. *)
Definition state_wf (s : state) : Prop :=
  (forall o ob, objects s !! o = Some ob -> o < next s /\ eps_ref ob < next s) /\
  (forall l a, arrays s !! l = Some a -> l < next s).

(** *** [Modes] *)

Record Modes : Type := mk_modes
  { betas : list R;
    modes : Dense.t;
    fdfd : oid;
    eps : loc;
    num_modes : nat }.

(** [Modes.__init__]: [self.fdfd = copy.deepcopy(fdfd)] and
    [self.eps = fdfd.eps], the array of the grid passed in. *)
Definition Modes_init (s : state) (betas : list C) (modes : Dense.t)
    (fdfd : oid) : result (Modes * state) :=
  let betas_real := map Re betas in
  cp ← deepcopy s fdfd;
  match objects (snd cp) !! fdfd with
  | Some ob =>
      Ok (mk_modes betas_real modes (fst cp) (eps_ref ob) (length betas_real),
          snd cp)
  | None => Raise (AttributeError "no such object")
  end.

(** What is read through [modes.eps], and what [modes.fdfd] reads as. *)
Definition Modes_eps (s : state) (m : Modes) : option (ndarray R) :=
  arrays s !! eps m.

(** *** [ModeDevice] *)

Section Solve.

Variable eigs :
  Sp.spmatrix -> nat -> option R -> R -> string + (list C * Dense.t).
Variable feast_eigs :
  Sp.spmatrix -> R * R -> nat -> string + (list C * Dense.t).

(** [ModeDevice.solve(eps, m)] for the device whose grid is the object [dev]
    and whose waveguide material has permittivity [wg_eps].  [wgm_solve]
    reads [self.eps_t] when it builds the operator; that read, which never
    raises, is made here before the call and its result passed on. *)
Definition ModeDevice_solve (s : state) (dev : oid) (wg_eps : R) (eps : loc)
    (m : nat) : result (Modes * state) :=
  s ← setattr_eps s dev eps;
  f ← view s dev;
  k ← FDFD.k0 f;
  let beta_guess :=
    match np_sqrt wg_eps with
    | Some r => FDFD.BetaFloat (k * r)
    | None => FDFD.BetaNaN
    end in
  rd ← eps_t s dev;
  sol ← FDFD.wgm_solve eigs feast_eigs f (fst rd) m (Some beta_guess)
          (1 / 10 ^ 7)%R;
  Modes_init (snd rd) (fst sol) (snd sol) dev.

End Solve.

End Device.

(** ** [utils.Box]

    A box is the record of its four attributes.  A method that changes the
    box and returns it ([rot90], [flip_x], [translate], [align], ...) is the
    function from the box before the call to the box after it; [copy]
    (a [deepcopy]) gives a new box with the same attributes, so the boxes
    that [flip_boxes_x] and the like return are changed independently of one
    another. *)

Module Box.

Local Open Scope R_scope.

(** The comparison [x >= y] of two floats. *)
Definition Rgeb (x y : R) : bool := if Rge_dec x y then true else false.

Record t : Type := mk
  { min : R * R;
    size : R * R;
    spacing : R;
    reverse : bool * bool }.

(** [Box(size, spacing, min=(0.0, 0.0), reverse=(False, False))]. *)
Definition init (size : R * R) (spacing : R) (min : option (R * R))
    (reverse : option (bool * bool)) : t :=
  mk (default (0, 0) min) size spacing (default (false, false) reverse).

Definition max (self : t) : R * R :=
  (fst (min self) + fst (size self), snd (min self) + snd (size self)).

Definition center (self : t) : R * R :=
  (fst (min self) + fst (size self) / 2, snd (min self) + snd (size self) / 2).

Definition copy (self : t) : t := self.

Definition rot90 (self : t) : t :=
  mk (min self) (snd (size self), fst (size self)) (spacing self)
     (reverse self).

Definition flip_x (self : t) : t :=
  mk (min self) (size self) (spacing self)
     (negb (fst (reverse self)), snd (reverse self)).

Definition flip_y (self : t) : t :=
  mk (min self) (size self) (spacing self)
     (fst (reverse self), negb (snd (reverse self))).

Definition flip_xy (self : t) : t :=
  mk (min self) (size self) (spacing self)
     (negb (fst (reverse self)), negb (snd (reverse self))).

Definition translate (self : t) (dx dy : R) : t :=
  mk (fst (min self) + dx, snd (min self) + dy) (size self) (spacing self)
     (reverse self).

(** [align(c)]: [c] is a box or a point. *)
Definition align (self : t) (c : t + R * R) : t :=
  let center_ := match c with inl b => center b | inr p => p end in
  translate self (fst center_ - fst (center self))
                 (snd center_ - snd (center self)).

(** [halign(c, left, opposite)]: [c] is a box or a number. *)
Definition halign (self : t) (c : t + R) (left opposite : bool) : t :=
  let x := if left then fst (min self) else fst (max self) in
  let p := match c with
           | inr v => v
           | inl b => if left && negb opposite || opposite && negb left
                      then fst (min b) else fst (max b)
           end in
  translate self (p - x) 0.

Definition valign (self : t) (c : t + R) (bottom opposite : bool) : t :=
  let y := if bottom then snd (min self) else snd (max self) in
  let p := match c with
           | inr v => v
           | inl b => if bottom && negb opposite || opposite && negb bottom
                      then snd (min b) else snd (max b)
           end in
  translate self 0 (p - y).

Definition flip_boxes_y (self : t) (gap : R) : result (list t) :=
  if Rgeb gap (fst (size self) / 2)
  then Raise (ValueError "Failed gap < size[0] / 2")
  else
    let box := init (fst (size self), snd (size self) / 2 - gap)
                    (spacing self) (Some (min self)) None in
    Ok [copy box; valign (flip_y (copy box)) (inl self) false false].

Definition flip_boxes_x (self : t) (gap : R) : result (list t) :=
  if Rgeb gap (fst (size self) / 2)
  then Raise (ValueError "Failed gap < size[0] / 2")
  else
    let box := init (fst (size self) / 2 - gap, snd (size self))
                    (spacing self) (Some (min self)) None in
    Ok [copy box; halign (flip_x (copy box)) (inl self) false false].

Definition flip_boxes_xy (self : t) (gaps : R * R) : result (list t) :=
  if Rgeb (fst gaps) (fst (size self) / 2)
     || Rgeb (snd gaps) (snd (size self) / 2)
  then Raise (ValueError "Failed gap < size[0] / 2 and gap < size[1] / 2")
  else
    let box := init (fst (size self) / 2 - fst gaps,
                     snd (size self) / 2 - snd gaps)
                    (spacing self) (Some (min self)) None in
    Ok [copy box;
        halign (flip_x (copy box)) (inl self) false false;
        valign (halign (flip_y (copy box)) (inl self) true false)
               (inl self) false false;
        valign (halign (flip_xy (copy box)) (inl self) false false)
               (inl self) false false].

End Box.

(** ** Exceptions of numpy and of Python arithmetic

    The field utilities of [utils.py] index, roll and combine arrays, which
    can raise [numpy.AxisError], and divide Python floats, which can raise
    [ZeroDivisionError]; [pyexn] adds these classes to the built-in ones of
    [exn].  The utilities raise the [ZeroDivisionError] of [pyexn]; the one
    of [exn] is that of the division in [FDFD.k0]. *)

Module Py.

Inductive pyexn : Type :=
| Builtin (e : exn)
| AxisError (msg : string)
| ZeroDivisionError (msg : string).

Inductive py (A : Type) : Type :=
| Ret (a : A)
| Exc (e : pyexn).
Arguments Ret {A} a.
Arguments Exc {A} e.

#[global] Instance py_ret : MRet py := fun A a => Ret a.
#[global] Instance py_bind : MBind py := fun A B k r =>
  match r with
  | Ret a => k a
  | Exc e => Exc e
  end.

Definition lift {A} (r : result A) : py A :=
  match r with
  | Ok a => Ret a
  | Raise e => Exc (Builtin e)
  end.

Definition returns {A} (r : py A) : Prop := exists a, r = Ret a.
Definition raises {A} (r : py A) : Prop := exists e, r = Exc e.

End Py.

(** ** numpy: integer indexing, [roll] along an axis, broadcasting *)

Module NpIx.

Import Np Py.

(** [a[i]] for an integer [i]: the sub-array at index [i] of the first axis,
    counted from the end when [i] is negative. *)
Definition getitem {A} (a : ndarray A) (i : Z) : py (ndarray A) :=
  match shape a with
  | [] => Exc (Builtin (IndexError "too many indices for array"))
  | n :: s =>
      if ((- Z.of_nat n <=? i) && (i <? Z.of_nat n))%Z
      then let k := Z.to_nat (i mod Z.of_nat n) in
           Ret (mk_ndarray s (firstn (prod s) (skipn (k * prod s) (data a))))
      else Exc (Builtin (IndexError "index is out of bounds for axis 0"))
  end.

(** [np.roll(a, shift, axis=axis)] for any integer [axis]. *)
Definition roll_axis {A} (a : ndarray A) (shift axis : Z) : py (ndarray A) :=
  let nd := Z.of_nat (ndim a) in
  if ((- nd <=? axis) && (axis <? nd))%Z
  then Ret (roll a shift (Z.to_nat (axis mod nd)))
  else Exc (AxisError "axis is out of bounds for array").

(** The shape two shapes broadcast to, both read from the last axis. *)
Fixpoint broadcast_rev (s t : list nat) : option (list nat) :=
  match s, t with
  | [], _ => Some t
  | _, [] => Some s
  | x :: s', y :: t' =>
      if (x =? y)%nat then cons x <$> broadcast_rev s' t'
      else if (x =? 1)%nat then cons y <$> broadcast_rev s' t'
      else if (y =? 1)%nat then cons x <$> broadcast_rev s' t'
      else None
  end.

Definition broadcast_shapes (s t : list nat) : option (list nat) :=
  reverse <$> broadcast_rev (reverse s) (reverse t).

(** A shape with axes of length 1 in front, up to [n] axes. *)
Definition pad (n : nat) (s : list nat) : list nat :=
  repeat 1%nat (n - length s) ++ s.

(** The flat position, in an operand of (padded) shape [s], of the element
    that goes to flat position [p] of the result of shape [o]: an axis of
    length 1 of the operand is repeated. *)
Fixpoint bsrc (o s : list nat) (p : nat) : nat :=
  match o, s with
  | n :: o', m :: s' =>
      ((if (m =? 1)%nat then 0 else (p / prod o') mod n) * prod s'
       + bsrc o' s' (p mod prod o'))%nat
  | _, _ => 0%nat
  end.

(** An element-wise binary operation, with broadcasting. *)
Definition broadcast2 {A B D} (f : A -> B -> D) (a : ndarray A)
    (b : ndarray B) : py (ndarray D) :=
  match broadcast_shapes (shape a) (shape b) with
  | None =>
      Exc (Builtin (ValueError "operands could not be broadcast together"))
  | Some o =>
      let sa := pad (length o) (shape a) in
      let sb := pad (length o) (shape b) in
      Ret (mk_ndarray o
             (flat_map (fun p =>
                          match data a !! bsrc o sa p, data b !! bsrc o sb p
                          with
                          | Some x, Some y => [f x y]
                          | _, _ => []
                          end)
                       (seq 0 (prod o))))
  end.

(** [np.sum] of all the elements. *)
Definition sum (a : ndarray C) : C := fold_right Cadd Czero (data a).

(** Division of numpy scalars does not raise: [None] stands for the [nan]
    or [inf] that a division by zero gives. *)
Definition cdivide (a b : C) : option C :=
  if Reqb (Re b) 0 && Reqb (Im b) 0 then None else Some (Cdiv a b).
Definition divide (a b : R) : option R :=
  if Reqb b 0 then None else Some (a / b)%R.

End NpIx.

(** ** [utils.py]: Poynting vector, overlap and curl of fields *)

Module Fields.

Import Np Py NpIx.

(** [np.roll((1, 2, 0), -axis)]. *)
Definition ax_of (axis : Z) : list Z :=
  data (roll_flat (of_list [1; 2; 0]%Z) (- axis)).

(** [(f[i] + xp.roll(f[i], shift=1, axis=axis)) / 2]. *)
Definition avg (f : ndarray C) (i axis : Z) : py (ndarray C) :=
  x ← getitem f i;
  y ← getitem f i;
  r ← roll_axis y 1 axis;
  s ← broadcast2 Cadd x r;
  Ret (map1 (fun z => Cdiv z (RtoC 2)) s).

Definition poynting_fn (axis : Z) (e h : ndarray C) : py (ndarray C) :=
  let ax := ax_of axis in
  let ax0 := nth 0 ax 0%Z in
  let ax1 := nth 1 ax 0%Z in
  e0 ← avg e ax0 1;
  e1 ← avg e ax1 0;
  e_cross ← lift (stack [e0; e1]);
  h0 ← avg h ax0 0;
  h1 ← avg h ax1 1;
  h_cross ← lift (stack [h0; h1]);
  a ← getitem e_cross ax0;
  b ← getitem (map1 Cconj h_cross) ax1;
  ab ← broadcast2 Cmul a b;
  c ← getitem e_cross ax1;
  d ← getitem (map1 Cconj h_cross) ax0;
  cd ← broadcast2 Cmul c d;
  broadcast2 Csub ab cd.

Definition overlap (e1 h1 e2 h2 : ndarray C) : py (option R) :=
  p12 ← poynting_fn 2 e1 h2;
  p21 ← poynting_fn 2 e2 h1;
  p11 ← poynting_fn 2 e1 h1;
  p22 ← poynting_fn 2 e2 h2;
  Ret (q ← cdivide (Cmul (sum p12) (sum p21)) (sum p11);
       divide (Re q) (Re (sum p22))).

Section Curl.

(** The derivative [df(f, axis)] that [curl_fn] is given. *)
Variable df : ndarray C -> Z -> py (ndarray C).

Definition scale (c : C) (a : ndarray C) : ndarray C := map1 (Cmul c) a.

Definition curl_fn (beta : option R) (f : ndarray C) : py (ndarray C) :=
  match beta with
  | Some beta =>
      f2 ← getitem f 2; d21 ← df f2 1;
      f1 ← getitem f 1;
      c0 ← broadcast2 Cadd d21 (scale (Cmul Ci (RtoC beta)) f1);
      f0 ← getitem f 0;
      f2' ← getitem f 2; d20 ← df f2' 0;
      c1 ← broadcast2 Csub (scale (Cmul (Cneg Ci) (RtoC beta)) f0) d20;
      f1' ← getitem f 1; d10 ← df f1' 0;
      f0' ← getitem f 0; d01 ← df f0' 1;
      c2 ← broadcast2 Csub d10 d01;
      lift (stack [c0; c1; c2])
  | None =>
      f2 ← getitem f 2; d21 ← df f2 1;
      f1 ← getitem f 1; d12 ← df f1 2;
      c0 ← broadcast2 Csub d21 d12;
      f0 ← getitem f 0; d02 ← df f0 2;
      f2' ← getitem f 2; d20 ← df f2' 0;
      c1 ← broadcast2 Csub d02 d20;
      f1' ← getitem f 1; d10 ← df f1' 0;
      f0' ← getitem f 0; d01 ← df f0' 1;
      c2 ← broadcast2 Csub d10 d01;
      lift (stack [c0; c1; c2])
  end.

End Curl.

End Fields.

(** ** [utils.Box]: pixel indices and masks *)

Module BoxIx.

Import Np Py.
Local Open Scope Z_scope.

(** Python's [int(x)] of a float: truncation towards zero. *)
Definition py_int (x : R) : Z :=
  if Rle_dec 0 x then Int_part x else - Int_part (- x).

(** Python's [x / y] of two floats. *)
Definition truediv (x y : R) : py R :=
  if Reqb y 0 then Exc (ZeroDivisionError "float division by zero")
  else Ret (x / y)%R.

Definition min_i (self : Box.t) : py (Z * Z) :=
  a ← truediv (fst (Box.min self)) (Box.spacing self);
  b ← truediv (snd (Box.min self)) (Box.spacing self);
  Ret (py_int a, py_int b).

Definition max_i (self : Box.t) : py (Z * Z) :=
  a ← truediv (fst (Box.max self)) (Box.spacing self);
  b ← truediv (snd (Box.max self)) (Box.spacing self);
  Ret (py_int a, py_int b).

Definition shape (self : Box.t) : py (Z * Z) :=
  hi0 ← max_i self; lo0 ← min_i self;
  hi1 ← max_i self; lo1 ← min_i self;
  Ret (fst hi0 - fst lo0, snd hi1 - snd lo1).







End BoxIx.

(** ** [SimGrid.curl_f] and [SimGrid.curl_b] *)

Module SimGridCurl.

(** The properties [curl_f] and [curl_b]: the curl operators built from the
    forward and from the backward derivatives. *)
Definition curl_f (self : SimGrid.t) : result Sp.spmatrix :=
  df ← SimGrid.df self; Utils.d2curl_op df.

Definition curl_b (self : SimGrid.t) : result Sp.spmatrix :=
  db ← SimGrid.db self; Utils.d2curl_op db.

End SimGridCurl.

(** * Properties *)

(** ** Fallible computations *)

Lemma rbind_ok {A B} (r : result A) (k : A -> result B) (b : B) :
  (x ← r; k x) = Ok b -> exists a, r = Ok a /\ k a = Ok b.
Proof.
  destruct r as [a|e]; simpl; intros H; [eauto | discriminate].
Qed.

(** ** [Grid.reshape] *)

Import Np.

Lemma length_chunks {A} (len k : nat) (l : list A) :
  length (chunks len k l) = k.
Proof.
  revert l; induction k as [|k IH]; intros l; simpl; [reflexivity|].
  now rewrite IH.
Qed.

Lemma concat_chunks {A} (len k : nat) (l : list A) :
  length l = k * len -> concat (chunks len k l) = l.
Proof.
  revert l; induction k as [|k IH]; intros l Hl; simpl in *.
  - destruct l; [reflexivity | discriminate].
  - rewrite IH.
    + apply firstn_skipn.
    + rewrite length_skipn. lia.
Qed.

Lemma chunks_lengths {A} (len k : nat) (l : list A) :
  length l = k * len -> Forall (fun c => length c = len) (chunks len k l).
Proof.
  revert l; induction k as [|k IH]; intros l Hl; simpl in *; constructor.
  - rewrite length_firstn. lia.
  - apply IH. rewrite length_skipn. lia.
Qed.

Lemma map_result_reshape {A} (s : list nat) (cs : list (list A)) :
  Forall (fun c => length c = prod s) cs ->
  map_result (fun v => Np.reshape v s) (map of_list cs)
  = Ok (map (mk_ndarray s) cs).
Proof.
  induction 1 as [|c cs Hc _ IH]; simpl; [reflexivity|].
  rewrite IH. unfold Np.reshape, size; simpl.
  now rewrite Hc, Nat.eqb_refl.
Qed.

Lemma forallb_same_shape {A} (s : list nat) (cs : list (list A)) :
  forallb (fun b : ndarray A => list_eqb (shape b) s) (map (mk_ndarray s) cs)
  = true.
Proof.
  induction cs as [|c cs IH]; simpl; [reflexivity|].
  rewrite IH. unfold list_eqb. now rewrite bool_decide_eq_true_2.
Qed.

Lemma stack_same_shape {A} (s : list nat) (cs : list (list A)) :
  cs <> [] ->
  stack (map (mk_ndarray s) cs) = Ok (mk_ndarray (length cs :: s) (concat cs)).
Proof.
  intros Hne. unfold stack.
  pose proof (forallb_same_shape s cs) as Hall.
  destruct cs as [|c0 cs']; [congruence|].
  cbn [map] in *. simpl shape. rewrite Hall.
  cbn [length]. rewrite length_map. f_equal. f_equal.
  cbn [map data concat]. rewrite map_map. simpl. now rewrite map_id.
Qed.

(** The shape and the elements of [Grid.reshape] on a flat vector of three
    components. *)
Lemma Grid_reshape_flat {A} (g : Grid.t) (l : list A) :
  length l = 3 * prod (Grid.shape3 g) ->
  Grid.reshape g (of_list l) = Ok (mk_ndarray (3 :: Grid.shape3 g) l).
Proof.
  intros Hl. unfold Grid.reshape, Np.split.
  change (Np.ndim (of_list l)) with 1. change (size (of_list l)) with (length l).
  change (data (of_list l)) with l. rewrite Hl.
  replace ((3 * prod (Grid.shape3 g)) mod 3) with 0
    by (rewrite Nat.mul_comm; now rewrite Nat.Div0.mod_mul).
  replace (3 * prod (Grid.shape3 g) / 3) with (prod (Grid.shape3 g))
    by (rewrite Nat.mul_comm; now rewrite Nat.div_mul).
  cbn [Nat.eqb mbind result_bind].
  assert (Hcs : Forall (fun c => length c = prod (Grid.shape3 g))
                       (chunks (prod (Grid.shape3 g)) 3 l))
    by (apply chunks_lengths; lia).
  rewrite (map_result_reshape _ _ Hcs).
  assert (Hlen : length (chunks (prod (Grid.shape3 g)) 3 l) = 3)
    by apply length_chunks.
  unfold mbind, result_bind.
  rewrite stack_same_shape.
  - rewrite Hlen, concat_chunks; [reflexivity | lia].
  - intros E. rewrite E in Hlen. discriminate.
Qed.

Lemma prod_app_ones (s : list nat) (k : nat) :
  prod (s ++ repeat 1 k) = prod s.
Proof.
  induction s as [|x s IH]; simpl.
  - induction k as [|k IHk]; simpl; lia.
  - unfold prod in *. simpl. now rewrite IH.
Qed.

(** What [Grid.__init__] establishes. *)
Lemma Grid_init_inv (sh : list nat) (sp : Grid.spacing_arg) (e : Grid.eps_arg)
    (g : Grid.t) :
  Grid.init sh sp e = Ok g ->
  Grid.shape g = sh /\ Grid.ndim g = length sh /\
  1 <= length sh <= 3 /\
  Grid.shape3 g = sh ++ repeat 1 (3 - length sh) /\
  Grid.n g = prod sh /\
  Np.shape (Grid.eps g) = sh /\
  Grid.cell_sizes g =
    map (fun i => if i <? length sh
                  then repeat (nth i (Grid.spacing g) 0%R) (nth i sh 0)
                  else [1%R]) (seq 0 3).
Proof.
  unfold Grid.init. intros H.
  destruct (3 <? length sh) eqn:E3; [discriminate|].
  destruct (negb (length sh =? length _)); [discriminate|].
  destruct (negb (list_eqb sh _)) eqn:Ee; [discriminate|].
  destruct (length sh =? 0) eqn:E0; [discriminate|].
  destruct (existsb _ _); [discriminate|].
  injection H as <-. cbn [Grid.shape Grid.ndim Grid.shape3 Grid.n Grid.eps
                          Grid.cell_sizes Grid.spacing].
  apply Nat.ltb_ge in E3. apply Nat.eqb_neq in E0.
  apply negb_false_iff in Ee. unfold list_eqb in Ee.
  apply bool_decide_eq_true_1 in Ee.
  repeat split; try lia; auto.
Qed.

Lemma existsb_repeat {A} (f : A -> bool) (x : A) (k : nat) :
  f x = false -> existsb f (repeat x k) = false.
Proof. intros Hx. induction k as [|k IH]; simpl; [reflexivity|]. now rewrite Hx. Qed.

Lemma Reqb_false (x y : R) : x <> y -> Reqb x y = false.
Proof. intros H. unfold Reqb. destruct (Req_dec_T x y); [contradiction|reflexivity]. Qed.

Lemma Reqb_refl (x : R) : Reqb x x = true.
Proof. unfold Reqb. destruct (Req_dec_T x x); [reflexivity | contradiction]. Qed.

(** [Grid.__init__] on one spacing and one permittivity for the whole
    grid. *)
Lemma Grid_init_float (sh : list nat) (dx e : R) :
  1 <= length sh <= 3 -> dx <> 0%R ->
  Grid.init sh (Grid.SpacingFloat dx) (Grid.EpsFloat e)
  = Ok (Grid.attributes sh (repeat dx (length sh)) (full sh e)).
Proof.
  intros Hlen Hdx. unfold Grid.init.
  replace (3 <? length sh) with false by (symmetry; apply Nat.ltb_ge; lia).
  rewrite repeat_length, Nat.eqb_refl. cbn [negb].
  unfold list_eqb. cbn [shape full]. rewrite bool_decide_eq_true_2 by reflexivity.
  cbn [negb].
  replace (length sh =? 0) with false by (symmetry; apply Nat.eqb_neq; lia).
  rewrite existsb_repeat by now apply Reqb_false.
  reflexivity.
Qed.

(** [SimGrid.__init__] on such a grid, without PML and with Bloch phase
    zero. *)
Lemma SimGrid_init_float (sh : list nat) (dx e pe : R) (ya : Z) :
  1 <= length sh <= 3 -> dx <> 0%R ->
  let g := Grid.attributes sh (repeat dx (length sh)) (full sh e) in
  SimGrid.init sh (Grid.SpacingFloat dx) (Grid.EpsFloat e)
    (SimGrid.BlochFloat 0) None pe ya
  = Ok (SimGrid.mk g None pe ya (repeat (SimGrid.bloch_factor 0) (length sh))
          SimGrid.float64
          (map (map1 RtoC) (meshgrid (Grid.cell_sizes g)),
            map (map1 RtoC) (meshgrid (Grid.cell_sizes g)))).
Proof.
  intros Hlen Hdx g. unfold SimGrid.init.
  rewrite Grid_init_float by assumption. fold g.
  unfold mbind, result_bind. cbn [negb].
  cbn [Grid.shape Grid.ndim Grid.attributes g].
  rewrite repeat_length, Nat.eqb_refl. cbn [negb].
  now rewrite Reqb_refl.
Qed.

(** C10.  For a grid built by [Grid.__init__] and a flat one-dimensional
    vector [v] of [3 n] elements, [n] the number of cells, [reshape(v)]
    returns an array of shape [(3, *shape3)], and reshaping that array again
    returns the flat vector [v]. *)
Theorem Grid_reshape_involution {A} (sh : list nat) (sp : Grid.spacing_arg)
    (e : Grid.eps_arg) (g : Grid.t) (v : ndarray A) :
  Grid.init sh sp e = Ok g ->
  Np.shape v = [3 * Grid.n g] ->
  Np.wf v ->
  exists a,
    Grid.reshape g v = Ok a /\
    Np.shape a = 3 :: Grid.shape3 g /\
    Grid.reshape g a = Ok v.
Proof.
  intros Hg Hs Hwf.
  destruct (Grid_init_inv _ _ _ _ Hg) as (_ & _ & _ & H3 & Hn & _).
  destruct v as [s l]. simpl in Hs. subst s.
  unfold wf in Hwf. simpl in Hwf. rewrite Nat.mul_1_r in Hwf.
  assert (Hl : length l = 3 * prod (Grid.shape3 g))
    by (rewrite H3, prod_app_ones; lia).
  exists (mk_ndarray (3 :: Grid.shape3 g) l). split; [|split].
  - rewrite <- Hwf. apply (Grid_reshape_flat g l Hl).
  - reflexivity.
  - unfold Grid.reshape, Np.ndim. simpl shape.
    rewrite H3. rewrite length_cons, length_app.
    destruct (S (length sh + _) =? 1) eqn:E.
    + apply Nat.eqb_eq in E.
      pose proof (Grid_init_inv _ _ _ _ Hg) as (_ & _ & Hnd & _). lia.
    + unfold flatten, of_list. simpl. now rewrite Hwf.
Qed.

Lemma Grid_reshape_involution_witness :
  exists g a,
    Grid.init [2; 3] (Grid.SpacingFloat 1) (Grid.EpsFloat 1) = Ok g /\
    Grid.reshape g (of_list (seq 0 18)) = Ok a /\
    Np.shape a = [3; 2; 3; 1] /\
    Grid.reshape g a = Ok (of_list (seq 0 18)).
Proof.
  assert (Hg := Grid_init_float [2; 3] 1 1 ltac:(simpl; lia) ltac:(lra)).
  destruct (Grid_reshape_involution [2; 3] (Grid.SpacingFloat 1)
              (Grid.EpsFloat 1) _ (of_list (seq 0 18)) Hg eq_refl eq_refl)
    as (a & H1 & H2 & H3).
  eexists. exists a. repeat split; eassumption.
Defined.

(** ** The PML guard of [SimGrid.__init__] *)

Lemma any_map_true {A} (f : A -> bool) (l : list A) :
  SimGrid.any (map f l) = true <-> exists i x, l !! i = Some x /\ f x = true.
Proof.
  unfold SimGrid.any. induction l as [|a l IH]; simpl.
  - split; [discriminate | intros (i & x & H & _); destruct i; discriminate].
  - rewrite orb_true_iff, IH. split.
    + intros [Ha | (i & x & Hi & Hx)].
      * exists 0, a. auto.
      * exists (S i), x. auto.
    + intros (i & x & Hi & Hx). destruct i as [|i]; simpl in Hi.
      * injection Hi as ->. auto.
      * right. eauto.
Qed.

Lemma any_zip_with_true {A B} (f : A -> B -> bool) (l1 : list A) (l2 : list B) :
  SimGrid.any (zip_with f l1 l2) = true <->
  exists i x y, l1 !! i = Some x /\ l2 !! i = Some y /\ f x y = true.
Proof.
  unfold SimGrid.any. revert l2; induction l1 as [|a l1 IH]; intros l2; simpl.
  - split; [discriminate | intros (i & x & y & H & _); destruct i; discriminate].
  - destruct l2 as [|b l2]; simpl.
    + split; [discriminate|].
      intros (i & x & y & _ & H & _); destruct i; discriminate.
    + rewrite orb_true_iff, IH. split.
      * intros [Ha | (i & x & y & Hi & Hj & Hx)].
        -- exists 0, a, b. auto.
        -- exists (S i), x, y. auto.
      * intros (i & x & y & Hi & Hj & Hx). destruct i as [|i]; simpl in *.
        -- injection Hi as ->. injection Hj as ->. auto.
        -- right. exists i, x, y. auto.
Qed.

Lemma broadcast_cmp_same_length {A B} (f : A -> B -> bool) l1 l2 :
  length l1 = length l2 ->
  SimGrid.broadcast_cmp f l1 l2 = Ok (zip_with f l1 l2).
Proof.
  intros Hlen. unfold SimGrid.broadcast_cmp.
  destruct l1 as [|a [|a' l1]], l2 as [|b [|b' l2]]; try discriminate;
    try reflexivity.
  simpl in Hlen. simpl length. injection Hlen as Hlen. rewrite Hlen.
  now rewrite Nat.eqb_refl.
Qed.

(** The guard raises exactly when some axis has a thickness of at most 3 or
    of at least the floor of half the axis' cell count. *)
Lemma pml_check_raises (ts : list Z) (sh : list nat) :
  length ts = length sh ->
  (SimGrid.pml_check ts sh = Raise (AttributeError SimGrid.pml_bound_msg) <->
   exists ax t s, ts !! ax = Some t /\ sh !! ax = Some s /\
                  (t <= 3 \/ Z.of_nat (s / 2) <= t)%Z) /\
  (SimGrid.pml_check ts sh = Ok ts \/
   SimGrid.pml_check ts sh = Raise (AttributeError SimGrid.pml_bound_msg)).
Proof.
  intros Hlen. unfold SimGrid.pml_check.
  rewrite (broadcast_cmp_same_length _ _ _ Hlen).
  unfold mbind, result_bind.
  destruct (SimGrid.any (map _ ts)) eqn:E1.
  - split; [|now right]. split; [|reflexivity]. intros _.
    apply any_map_true in E1 as (i & t & Hi & Ht).
    destruct (lookup_lt_is_Some_2 sh i) as [s Hs].
    { rewrite <- Hlen. eapply lookup_lt_Some; eauto. }
    exists i, t, s. repeat split; auto. left. lia.
  - destruct (SimGrid.any (zip_with _ ts sh)) eqn:E2.
    + split; [|now right]. split; [|reflexivity]. intros _.
      apply any_zip_with_true in E2 as (i & t & s & Hi & Hs & Ht).
      exists i, t, s. repeat split; auto. right. lia.
    + split; [|now left]. split; [discriminate|].
      intros (i & t & s & Hi & Hs & [Ht | Ht]).
      * assert (SimGrid.any (map (fun t => (t <=? 3)%Z) ts) = true) as E.
        { apply any_map_true. exists i, t. split; auto. lia. }
        congruence.
      * assert (SimGrid.any
                  (zip_with (fun t s => (Z.of_nat (s / 2) <=? t)%Z) ts sh) = true)
          as E.
        { apply any_zip_with_true. exists i, t, s. repeat split; auto. lia. }
        congruence.
Qed.

(** C7, as stated, fails: on a grid of 9 cells a PML of 4 cells satisfies
    [3 < 4 < 9 / 2], and the constructor raises the PML error. *)
Lemma SimGrid_pml_bound_counterexample :
  SimGrid.spec_pml_bound 4 9 /\
  SimGrid.init [9] (Grid.SpacingFloat 1) (Grid.EpsFloat 1)
    (SimGrid.BlochFloat 0) (Some (SimGrid.PmlInt 4)) 1 1
  = Raise (AttributeError SimGrid.pml_bound_msg).
Proof.
  split.
  - unfold SimGrid.spec_pml_bound. simpl. lra.
  - unfold SimGrid.init.
    rewrite Grid_init_float by (simpl; lia || lra). reflexivity.
Qed.

(** C7, amended.  For a grid that [Grid.__init__] accepts and a PML given as
    one int for all axes, or as an integer array with one thickness per
    axis, the constructor raises the PML configuration error if and only if
    on some axis the thickness [t] fails [3 < t < shape[axis] // 2], the half
    rounded down; so it passes the PML guard whenever every axis satisfies
    that bound. *)
Theorem SimGrid_init_pml_guard (sh : list nat) (sp : Grid.spacing_arg)
    (e : Grid.eps_arg) (bp : SimGrid.bloch_arg) (p : SimGrid.pml_arg)
    (pe : R) (ya : Z) (g : Grid.t) (ts : list Z) :
  Grid.init sh sp e = Ok g ->
  SimGrid.pml_thickness p (length sh) = Some ts ->
  length ts = length sh ->
  (SimGrid.init sh sp e bp (Some p) pe ya
   = Raise (AttributeError SimGrid.pml_bound_msg)
   <-> exists ax t s, ts !! ax = Some t /\ sh !! ax = Some s /\
                      ~ SimGrid.pml_bound t s).
Proof.
  intros Hg Hp Hlen.
  destruct (Grid_init_inv _ _ _ _ Hg) as (Hsh & Hnd & _).
  destruct (pml_check_raises ts sh Hlen) as [Hiff Hcases].
  assert (Hbound : (exists ax t s, ts !! ax = Some t /\ sh !! ax = Some s /\
                                   ~ SimGrid.pml_bound t s) <->
                   (exists ax t s, ts !! ax = Some t /\ sh !! ax = Some s /\
                                   (t <= 3 \/ Z.of_nat (s / 2) <= t)%Z)).
  { unfold SimGrid.pml_bound.
    split; intros (ax & t & s & H1 & H2 & H3); exists ax, t, s;
      repeat split; auto; lia. }
  rewrite Hbound, <- Hiff. clear Hbound Hiff.
  unfold SimGrid.init. rewrite Hg. unfold mbind at 1, result_bind at 1.
  rewrite Hsh, Hnd.
  assert (Hchk : match p with
                 | SimGrid.PmlInt t => SimGrid.pml_check (repeat t (length sh)) sh
                 | SimGrid.PmlTuple _ => Raise (TypeError "")
                 | SimGrid.PmlArray ts' => SimGrid.pml_check ts' sh
                 end = SimGrid.pml_check ts sh).
  { destruct p; simpl in Hp; try discriminate; now injection Hp as ->. }
  destruct p as [t | ? | ts']; [| discriminate Hp |]; rewrite Hchk;
    (destruct Hcases as [-> | ->]; unfold mbind, result_bind;
     [ | tauto ]);
    rewrite Hlen, Nat.eqb_refl; cbn [negb];
    (split; [|discriminate]);
    match goal with
    | |- context [negb ?c] => destruct (negb c)
    end; discriminate.
Qed.

Lemma SimGrid_init_pml_guard_witness :
  SimGrid.init [9; 12] (Grid.SpacingFloat 1) (Grid.EpsFloat 1)
    (SimGrid.BlochFloat 0) (Some (SimGrid.PmlInt 4)) 1 1
  = Raise (AttributeError SimGrid.pml_bound_msg)
  <-> exists ax t s, repeat 4%Z 2 !! ax = Some t /\ [9; 12] !! ax = Some s /\
                     ~ SimGrid.pml_bound t s.
Proof.
  eapply (SimGrid_init_pml_guard [9; 12] (Grid.SpacingFloat 1)
            (Grid.EpsFloat 1) (SimGrid.BlochFloat 0) (SimGrid.PmlInt 4) 1 1);
    [ apply Grid_init_float; [simpl; lia | lra] | reflexivity | reflexivity ].
Defined.

(** ** Complex arithmetic *)

Lemma C_eq (a b : C) : Re a = Re b -> Im a = Im b -> a = b.
Proof. destruct a, b; simpl; intros -> ->; reflexivity. Qed.

Ltac Csolve :=
  intros; apply C_eq; simpl; lra.

Lemma Cadd_0_r (a : C) : Cadd a Czero = a.
Proof. Csolve. Qed.

Lemma Cadd_0_l (a : C) : Cadd Czero a = a.
Proof. Csolve. Qed.

Lemma Cmul_0_l (a : C) : Cmul Czero a = Czero.
Proof. Csolve. Qed.

Lemma Cmul_0_r (a : C) : Cmul a Czero = Czero.
Proof. Csolve. Qed.

Lemma Cmul_1_r (a : C) : Cmul a Cone = a.
Proof. Csolve. Qed.

Lemma Cconj_0 : Cconj Czero = Czero.
Proof. Csolve. Qed.

Lemma Cneg_0 : Cneg Czero = Czero.
Proof. Csolve. Qed.

Lemma Cconj_mul (a b : C) : Cconj (Cmul a b) = Cmul (Cconj a) (Cconj b).
Proof. Csolve. Qed.

Lemma Cneg_mul_r (a b : C) : Cneg (Cmul a b) = Cmul a (Cneg b).
Proof. Csolve. Qed.

Lemma Cneg_mul_l (a b : C) : Cneg (Cmul a b) = Cmul (Cneg a) b.
Proof. Csolve. Qed.

(** A sum with a single non-zero term. *)
Lemma Csum_single (f : nat -> C) (i n : nat) :
  (forall k, k <> i -> f k = Czero) ->
  Csum f n = if i <? n then f i else Czero.
Proof.
  intros Hz. induction n as [|n IH]; simpl; [reflexivity|].
  rewrite IH. destruct (Nat.eq_dec n i) as [->|Hne].
  - rewrite Nat.ltb_irrefl.
    replace (i <? S i) with true by (symmetry; apply Nat.ltb_lt; lia).
    apply Cadd_0_l.
  - rewrite (Hz n Hne), Cadd_0_r.
    destruct (i <? n) eqn:E.
    + replace (i <? S n) with true; [reflexivity|].
      symmetry. apply Nat.ltb_lt. apply Nat.ltb_lt in E. lia.
    + replace (i <? S n) with false; [reflexivity|].
      symmetry. apply Nat.ltb_ge. apply Nat.ltb_ge in E. lia.
Qed.

(** ** Sparse matrices *)

Lemma matmul_diag_coef (v : list C) (M R : Sp.spmatrix) (i j : nat) :
  Sp.matmul (Sp.diag v) M = Ok R ->
  i < length v ->
  Sp.nrows R = length v /\ Sp.ncols R = Sp.ncols M /\
  Sp.nrows M = length v /\
  Sp.coef R i j = Cmul (nth i v Czero) (Sp.coef M i j).
Proof.
  unfold Sp.matmul. simpl. destruct (length v =? Sp.nrows M) eqn:E;
    [|discriminate].
  intros [= <-] Hi. simpl. apply Nat.eqb_eq in E.
  repeat split; auto.
  rewrite (Csum_single _ i).
  - rewrite Nat.eqb_refl. now apply Nat.ltb_lt in Hi as ->.
  - intros k Hk. destruct (i =? k) eqn:Ek.
    + apply Nat.eqb_eq in Ek. congruence.
    + apply Cmul_0_l.
Qed.

Lemma eye_conj_adj (n : nat) : Sp.conj_adj (Sp.eye n) (Sp.eye n).
Proof.
  intros i j. simpl. rewrite (Nat.eqb_sym j i).
  destruct (i =? j); Csolve.
Qed.

Lemma kron_anti_adj_l (A A' B B' : Sp.spmatrix) :
  Sp.anti_adj A A' -> Sp.conj_adj B B' ->
  Sp.nrows B = Sp.ncols B' -> Sp.ncols B = Sp.nrows B' ->
  Sp.anti_adj (Sp.kron A B) (Sp.kron A' B').
Proof.
  intros HA HB Hr Hc i j. simpl. rewrite HA, HB, Hr, Hc. Csolve.
Qed.

Lemma kron_anti_adj_r (A A' B B' : Sp.spmatrix) :
  Sp.conj_adj A A' -> Sp.anti_adj B B' ->
  Sp.nrows B = Sp.ncols B' -> Sp.ncols B = Sp.nrows B' ->
  Sp.anti_adj (Sp.kron A B) (Sp.kron A' B').
Proof.
  intros HA HB Hr Hc i j. simpl. rewrite HA, HB, Hr, Hc. Csolve.
Qed.

Lemma axis_op_anti_adj (b : C) (n : nat) :
  Sp.anti_adj (SimGrid.axis_op true b n) (SimGrid.axis_op false b n).
Proof.
  intros i j. unfold SimGrid.axis_op. destruct (1 <? n); [|Csolve].
  simpl.
  repeat match goal with
         | |- context [(?a =? ?b)%Z] => destruct (Z.eqb_spec a b)
         end; try lia; Csolve.
Qed.

Lemma axis_op_dims (back : bool) (b : C) (n : nat) :
  Sp.nrows (SimGrid.axis_op back b n) = (if 1 <? n then n else 1) /\
  Sp.ncols (SimGrid.axis_op back b n) = (if 1 <? n then n else 1).
Proof. unfold SimGrid.axis_op. destruct (1 <? n), back; auto. Qed.

(** ** The cell sizes of a grid without PML *)

Lemma lookup_repeat {A} (a : A) (k i : nat) :
  i < k -> repeat a k !! i = Some a.
Proof.
  revert i; induction k as [|k IH]; intros i Hi; [lia|].
  destruct i as [|i]; simpl; [reflexivity|]. apply IH. lia.
Qed.

Lemma flat_map_lookup_repeat {A} (a : A) (k N : nat) (c : nat -> nat) :
  (forall p, p < N -> c p < k) ->
  flat_map (fun p => option_list (repeat a k !! c p)) (seq 0 N) = repeat a N.
Proof.
  induction N as [|N IH]; intros Hc; [reflexivity|].
  rewrite seq_S, flat_map_app, IH by (intros; apply Hc; lia).
  simpl. rewrite lookup_repeat by (apply Hc; lia). simpl.
  change [a] with (repeat a 1). rewrite <- repeat_app.
  now rewrite Nat.add_1_r.
Qed.

Lemma prod_zero_axis (s : list nat) (ax : nat) :
  ax < length s -> nth ax s 1 = 0 -> prod s = 0.
Proof.
  revert ax; induction s as [|x s IH]; intros ax Hax Hz; simpl in *; [lia|].
  unfold prod in *. simpl. destruct ax as [|ax].
  - subst x. reflexivity.
  - rewrite (IH ax); [lia | lia | assumption].
Qed.

Lemma coord_lt (s : list nat) (ax p : nat) :
  p < prod s -> ax < length s -> coord s ax p < nth ax s 1.
Proof.
  intros Hp Hax. unfold coord. apply Nat.mod_upper_bound.
  intros Hz. rewrite (prod_zero_axis s ax Hax Hz) in Hp. lia.
Qed.

Lemma meshgrid_uniform (a0 a1 a2 : R) (s0 s1 s2 : nat) :
  let s := [s0; s1; s2] in
  meshgrid [repeat a0 s0; repeat a1 s1; repeat a2 s2]
  = [mk_ndarray s (repeat a0 (prod s)); mk_ndarray s (repeat a1 (prod s));
     mk_ndarray s (repeat a2 (prod s))].
Proof.
  intros s. unfold meshgrid. cbn [map]. rewrite !repeat_length. fold s.
  cbn [imap]. unfold compose.
  repeat f_equal.
  - apply flat_map_lookup_repeat. intros p Hp.
    apply (coord_lt s 0 p Hp). simpl; lia.
  - apply flat_map_lookup_repeat. intros p Hp.
    apply (coord_lt s 1 p Hp). simpl; lia.
  - apply flat_map_lookup_repeat. intros p Hp.
    apply (coord_lt s 2 p Hp). simpl; lia.
Qed.

Lemma bloch_factor_0 : SimGrid.bloch_factor 0 = Cone.
Proof.
  unfold SimGrid.bloch_factor, np_exp, Cone, RtoC. simpl.
  replace (0 * 0 - 1 * 0)%R with 0%R by lra.
  replace (0 * 0 + 1 * 0)%R with 0%R by lra.
  rewrite exp_0, cos_0, sin_0. f_equal; lra.
Qed.

(** What [SimGrid.__init__] establishes on a grid without PML. *)
Lemma SimGrid_init_no_pml_inv sh sp e bp pe ya sg :
  SimGrid.init sh sp e bp None pe ya = Ok sg ->
  exists g, Grid.init sh sp e = Ok g /\ SimGrid.grid sg = g /\
            SimGrid.bloch sg
            = match bp with
              | SimGrid.BlochFloat phase =>
                  repeat (SimGrid.bloch_factor phase) (length sh)
              | SimGrid.BlochSeq phases => map SimGrid.bloch_factor phases
              end /\
            length (SimGrid.bloch sg) = length sh /\
            SimGrid.pml_shape sg = None /\
            SimGrid._dxes sg
            = (map (map1 RtoC) (meshgrid (Grid.cell_sizes g)),
               map (map1 RtoC) (meshgrid (Grid.cell_sizes g))).
Proof.
  unfold SimGrid.init. intros H.
  destruct (Grid.init sh sp e) as [g|] eqn:Hg; [|discriminate].
  unfold mbind, result_bind in H. cbn [negb] in H.
  destruct (Grid_init_inv _ _ _ _ Hg) as (Hsh & Hnd & _).
  rewrite Hnd, Hsh in H.
  destruct (negb _) eqn:Hlen in H; [discriminate|].
  injection H as <-. exists g. cbn [SimGrid.grid SimGrid.bloch
    SimGrid.pml_shape SimGrid._dxes].
  apply negb_false_iff, Nat.eqb_eq in Hlen.
  repeat split; auto.
Qed.

(** The cell sizes of a constructed grid are one constant per axis. *)
Lemma Grid_init_cell_sizes sh sp e g :
  Grid.init sh sp e = Ok g ->
  exists s0 s1 s2 a0 a1 a2,
    sh ++ repeat 1 (3 - length sh) = [s0; s1; s2] /\
    Grid.cell_sizes g = [repeat a0 s0; repeat a1 s1; repeat a2 s2].
Proof.
  intros Hg.
  destruct (Grid_init_inv _ _ _ _ Hg) as (_ & _ & Hnd & _ & _ & _ & ->).
  destruct sh as [|x [|y [|z [|]]]]; simpl in Hnd; try lia; simpl.
  - exists x, 1, 1, (nth 0 (Grid.spacing g) 0%R), 1%R, 1%R. auto.
  - exists x, y, 1, (nth 0 (Grid.spacing g) 0%R),
      (nth 1 (Grid.spacing g) 0%R), 1%R. auto.
  - exists x, y, z, (nth 0 (Grid.spacing g) 0%R),
      (nth 1 (Grid.spacing g) 0%R), (nth 2 (Grid.spacing g) 0%R). auto.
Qed.

(** ** [SimGrid.deriv] on a grid with constant cell sizes *)

Lemma Cinv_RtoC (x : R) : Cinv (RtoC x) = RtoC (/ x).
Proof.
  unfold Cinv, RtoC. cbn [Re Im]. f_equal.
  - destruct (Req_dec_T x 0) as [->|Hx].
    + unfold Rdiv. now rewrite Rmult_0_l, Rinv_0.
    + field. assumption.
  - unfold Rdiv. ring.
Qed.

Lemma deriv_uniform (sg : SimGrid.t) (back : bool)
    (s0 s1 s2 : nat) (b0 b1 b2 : C) (a0 a1 a2 : R) :
  let s := [s0; s1; s2] in
  let dxs := [mk_ndarray s (repeat (RtoC a0) (prod s));
              mk_ndarray s (repeat (RtoC a1) (prod s));
              mk_ndarray s (repeat (RtoC a2) (prod s))] in
  Grid.shape (SimGrid.grid sg) ++ repeat 1 (3 - Grid.ndim (SimGrid.grid sg)) = s ->
  SimGrid.bloch sg ++ repeat Cone (3 - Grid.ndim (SimGrid.grid sg))
  = [b0; b1; b2] ->
  SimGrid._dxes sg = (dxs, dxs) ->
  SimGrid.deriv sg back
  = map_result
      (fun p => Sp.matmul (Sp.diag (repeat (RtoC (/ fst p)) (prod s))) (snd p))
      [(a0, Sp.kron (SimGrid.axis_op back b0 s0) (Sp.eye (s1 * s2)));
       (a1, Sp.kron (Sp.kron (Sp.eye s0) (SimGrid.axis_op back b1 s1))
                    (Sp.eye s2));
       (a2, Sp.kron (Sp.eye (s0 * s1)) (SimGrid.axis_op back b2 s2))].
Proof.
  intros s dxs Hs Hb Hdx. unfold SimGrid.deriv.
  rewrite Hs, Hb, Hdx. subst s dxs.
  replace (if back then snd _ else fst _) with
    [mk_ndarray [s0; s1; s2] (repeat (RtoC a0) (prod [s0; s1; s2]));
     mk_ndarray [s0; s1; s2] (repeat (RtoC a1) (prod [s0; s1; s2]));
     mk_ndarray [s0; s1; s2] (repeat (RtoC a2) (prod [s0; s1; s2]))]
    by (destruct back; reflexivity).
  cbn [imap compose nth length seq map_result lookup list_lookup fst snd
       flatten of_list data].
  now rewrite !map_repeat, !Cinv_RtoC.
Qed.

Lemma nth_repeat_lt {A} (x d : A) (k i : nat) : i < k -> nth i (repeat x k) d = x.
Proof.
  revert i; induction k as [|k IH]; intros i Hi; [lia|].
  destruct i; simpl; [reflexivity | apply IH; lia].
Qed.

(** Scaling the rows of two operators by one real constant keeps one the
    negated conjugate transpose of the other. *)
Lemma scaled_anti_adj (a : R) (N : nat) (Mb Mf Rb Rf : Sp.spmatrix) :
  Sp.anti_adj Mb Mf ->
  Sp.ncols Mb = Sp.nrows Mb -> Sp.ncols Mf = Sp.nrows Mf ->
  Sp.matmul (Sp.diag (repeat (RtoC (/ a)) N)) Mb = Ok Rb ->
  Sp.matmul (Sp.diag (repeat (RtoC (/ a)) N)) Mf = Ok Rf ->
  Sp.meq Rb (Sp.neg (Sp.adjoint Rf)).
Proof.
  intros Hanti Hsqb Hsqf Hb Hf.
  assert (Hdims : Sp.nrows Rb = N /\ Sp.ncols Rb = N /\
                  Sp.nrows Rf = N /\ Sp.ncols Rf = N).
  { unfold Sp.matmul in Hb, Hf. simpl in Hb, Hf.
    rewrite repeat_length in Hb. rewrite repeat_length in Hf.
    destruct (N =? Sp.nrows Mb) eqn:Eb; [|discriminate].
    destruct (N =? Sp.nrows Mf) eqn:Ef; [|discriminate].
    apply Nat.eqb_eq in Eb, Ef.
    injection Hb as <-. injection Hf as <-. simpl.
    repeat split; congruence. }
  destruct Hdims as (Hrb & Hcb & Hrf & Hcf).
  unfold Sp.meq. simpl. repeat split; try congruence.
  intros i j Hi Hj. rewrite Hrb in Hi. rewrite Hcb in Hj.
  destruct (matmul_diag_coef _ _ _ i j Hb) as (_ & _ & _ & ->);
    [now rewrite repeat_length|].
  destruct (matmul_diag_coef _ _ _ j i Hf) as (_ & _ & _ & ->);
    [now rewrite repeat_length|].
  rewrite !nth_repeat_lt by assumption. rewrite Hanti. Csolve.
Qed.

Lemma axis_op_square (back : bool) (b : C) (n : nat) :
  Sp.ncols (SimGrid.axis_op back b n) = Sp.nrows (SimGrid.axis_op back b n).
Proof. destruct (axis_op_dims back b n) as [-> ->]. reflexivity. Qed.

Lemma axis_op_rows_eq (b : C) (n : nat) :
  Sp.nrows (SimGrid.axis_op true b n) = Sp.nrows (SimGrid.axis_op false b n).
Proof.
  destruct (axis_op_dims true b n) as [-> _].
  destruct (axis_op_dims false b n) as [-> _]. reflexivity.
Qed.

Lemma axis_op_rows_pos (back : bool) (b : C) (n : nat) :
  0 < n -> Sp.nrows (SimGrid.axis_op back b n) = n.
Proof.
  intros Hn. destruct (axis_op_dims back b n) as [-> _].
  destruct (1 <? n) eqn:E; [reflexivity|]. apply Nat.ltb_ge in E. lia.
Qed.

(** On a grid with constant cell sizes the backward operators are minus the
    conjugate transposes of the forward ones, and both are built when no
    axis is empty. *)
Lemma deriv_uniform_adjoint (sg : SimGrid.t)
    (s0 s1 s2 : nat) (b0 b1 b2 : C) (a0 a1 a2 : R) :
  let s := [s0; s1; s2] in
  let dxs := [mk_ndarray s (repeat (RtoC a0) (prod s));
              mk_ndarray s (repeat (RtoC a1) (prod s));
              mk_ndarray s (repeat (RtoC a2) (prod s))] in
  Grid.shape (SimGrid.grid sg) ++ repeat 1 (3 - Grid.ndim (SimGrid.grid sg)) = s ->
  SimGrid.bloch sg ++ repeat Cone (3 - Grid.ndim (SimGrid.grid sg))
  = [b0; b1; b2] ->
  SimGrid._dxes sg = (dxs, dxs) ->
  (0 < s0 -> 0 < s1 -> 0 < s2 ->
   is_ok (SimGrid.deriv sg false) /\ is_ok (SimGrid.deriv sg true)) /\
  (forall df db,
     SimGrid.deriv sg false = Ok df -> SimGrid.deriv sg true = Ok db ->
     Forall2 (fun b f => Sp.meq b (Sp.neg (Sp.adjoint f))) db df).
Proof.
  intros s dxs Hs Hb Hdx.
  rewrite (deriv_uniform sg false _ _ _ _ _ _ _ _ _ Hs Hb Hdx).
  rewrite (deriv_uniform sg true _ _ _ _ _ _ _ _ _ Hs Hb Hdx).
  cbn [map_result fst snd]. unfold mbind, result_bind. split.
  - intros H0 H1 H2. unfold Sp.matmul. cbn [Sp.ncols Sp.nrows Sp.diag Sp.kron Sp.eye].
    rewrite !repeat_length, !axis_op_rows_pos by assumption.
    replace (prod [s0; s1; s2]) with (s0 * (s1 * s2))
      by (unfold prod; simpl; lia).
    replace (s0 * s1 * s2) with (s0 * (s1 * s2)) by lia.
    rewrite Nat.eqb_refl. unfold is_ok. eauto.
  - intros df db Hf Hbk.
    destruct (Sp.matmul _ (Sp.kron (SimGrid.axis_op false b0 s0) _))
      as [f0|] eqn:F0; [|discriminate].
    destruct (Sp.matmul _ (Sp.kron (Sp.kron _ (SimGrid.axis_op false b1 s1)) _))
      as [f1|] eqn:F1; [|discriminate].
    destruct (Sp.matmul _ (Sp.kron _ (SimGrid.axis_op false b2 s2)))
      as [f2|] eqn:F2; [|discriminate].
    destruct (Sp.matmul _ (Sp.kron (SimGrid.axis_op true b0 s0) _))
      as [r0|] eqn:R0; [|discriminate].
    destruct (Sp.matmul _ (Sp.kron (Sp.kron _ (SimGrid.axis_op true b1 s1)) _))
      as [r1|] eqn:R1; [|discriminate].
    destruct (Sp.matmul _ (Sp.kron _ (SimGrid.axis_op true b2 s2)))
      as [r2|] eqn:R2; [|discriminate].
    injection Hf as <-. injection Hbk as <-.
    apply Forall2_cons; [|apply Forall2_cons; [|apply Forall2_cons;
                                                  [|apply Forall2_nil]]].
    + eapply scaled_anti_adj; [ | | | exact R0 | exact F0 ].
      * apply kron_anti_adj_l; [apply axis_op_anti_adj | apply eye_conj_adj
                               | reflexivity | reflexivity].
      * simpl. now rewrite axis_op_square.
      * simpl. now rewrite axis_op_square.
    + eapply scaled_anti_adj; [ | | | exact R1 | exact F1 ].
      * apply kron_anti_adj_l; [ | apply eye_conj_adj | reflexivity | reflexivity].
        apply kron_anti_adj_r; [apply eye_conj_adj | apply axis_op_anti_adj | | ].
        -- rewrite axis_op_square. apply axis_op_rows_eq.
        -- rewrite axis_op_square. apply axis_op_rows_eq.
      * simpl. now rewrite axis_op_square.
      * simpl. now rewrite axis_op_square.
    + eapply scaled_anti_adj; [ | | | exact R2 | exact F2 ].
      * apply kron_anti_adj_r; [apply eye_conj_adj | apply axis_op_anti_adj | | ].
        -- rewrite axis_op_square. apply axis_op_rows_eq.
        -- rewrite axis_op_square. apply axis_op_rows_eq.
      * simpl. now rewrite axis_op_square.
      * simpl. now rewrite axis_op_square.
Qed.

Lemma list_length_3 {A} (l : list A) :
  length l = 3 -> exists a b c, l = [a; b; c].
Proof.
  destruct l as [|a [|b [|c [|]]]]; try discriminate. eauto.
Qed.

(** C1.  On a grid built without PML and with Bloch phase zero, the backward
    derivative operator of each axis is minus the conjugate transpose of the
    forward one, [db[i] = -df[i]^H]; both lists of operators are built
    whenever no axis of the grid is empty. *)
Theorem SimGrid_deriv_adjoint (sh : list nat) (sp : Grid.spacing_arg)
    (e : Grid.eps_arg) (bp : SimGrid.bloch_arg) (pe : R) (ya : Z)
    (sg : SimGrid.t) :
  SimGrid.init sh sp e bp None pe ya = Ok sg ->
  SimGrid.bloch_phase_zero bp ->
  (Forall (fun n => 0 < n) sh ->
   is_ok (SimGrid.df sg) /\ is_ok (SimGrid.db sg)) /\
  (forall df db,
     SimGrid.df sg = Ok df -> SimGrid.db sg = Ok db ->
     length df = 3 /\
     Forall2 (fun b f => Sp.meq b (Sp.neg (Sp.adjoint f))) db df).
Proof.
  intros Hinit _.
  destruct (SimGrid_init_no_pml_inv _ _ _ _ _ _ _ Hinit)
    as (g & Hg & Hgrid & _ & Hblen & _ & Hdx).
  destruct (Grid_init_inv _ _ _ _ Hg) as (Hsh & Hnd & Hrange & _).
  destruct (Grid_init_cell_sizes _ _ _ _ Hg)
    as (s0 & s1 & s2 & a0 & a1 & a2 & Hs & Hcs).
  rewrite Hcs, meshgrid_uniform in Hdx.
  unfold map1 in Hdx. cbn [map shape data] in Hdx.
  rewrite !map_repeat in Hdx.
  destruct (list_length_3 (SimGrid.bloch sg ++ repeat Cone (3 - length sh)))
    as (b0 & b1 & b2 & Hb).
  { rewrite length_app, repeat_length. lia. }
  assert (Hs' : Grid.shape (SimGrid.grid sg)
                ++ repeat 1 (3 - Grid.ndim (SimGrid.grid sg)) = [s0; s1; s2])
    by (rewrite Hgrid, Hsh, Hnd; exact Hs).
  assert (Hb' : SimGrid.bloch sg
                ++ repeat Cone (3 - Grid.ndim (SimGrid.grid sg)) = [b0; b1; b2])
    by (rewrite Hgrid, Hnd; exact Hb).
  destruct (deriv_uniform_adjoint sg s0 s1 s2 b0 b1 b2 a0 a1 a2 Hs' Hb' Hdx)
    as [Hok Hadj].
  unfold SimGrid.df, SimGrid.db. split.
  - intros Hpos. apply Hok.
    + assert (Forall (fun n => 0 < n) [s0; s1; s2]) as Hall.
      { rewrite <- Hs. apply Forall_app. split; [assumption|].
        apply Forall_forall. intros x Hx. apply repeat_spec in Hx. lia. }
      now inversion Hall.
    + assert (Forall (fun n => 0 < n) [s0; s1; s2]) as Hall.
      { rewrite <- Hs. apply Forall_app. split; [assumption|].
        apply Forall_forall. intros x Hx. apply repeat_spec in Hx. lia. }
      inversion Hall as [|? ? _ Hall']. now inversion Hall'.
    + assert (Forall (fun n => 0 < n) [s0; s1; s2]) as Hall.
      { rewrite <- Hs. apply Forall_app. split; [assumption|].
        apply Forall_forall. intros x Hx. apply repeat_spec in Hx. lia. }
      inversion Hall as [|? ? _ Hall']. inversion Hall' as [|? ? _ Hall''].
      now inversion Hall''.
  - intros df db Hf Hbk. split; [|now apply Hadj].
    specialize (Hadj df db Hf Hbk).
    rewrite (deriv_uniform sg false _ _ _ _ _ _ _ _ _ Hs' Hb' Hdx) in Hf.
    cbn [map_result] in Hf. unfold mbind, result_bind in Hf.
    repeat match type of Hf with
           | context [Sp.matmul ?x ?y] =>
               destruct (Sp.matmul x y); [|discriminate]
           end.
    now injection Hf as <-.
Qed.

Lemma SimGrid_deriv_adjoint_witness :
  exists sg,
    SimGrid.init [3; 2] (Grid.SpacingFloat (1 / 2)) (Grid.EpsFloat 1)
      (SimGrid.BlochFloat 0) None 1 1 = Ok sg /\
    (is_ok (SimGrid.df sg) /\ is_ok (SimGrid.db sg)) /\
    (forall df db,
       SimGrid.df sg = Ok df -> SimGrid.db sg = Ok db ->
       length df = 3 /\
       Forall2 (fun b f => Sp.meq b (Sp.neg (Sp.adjoint f))) db df).
Proof.
  assert (Hsg := SimGrid_init_float [3; 2] (1 / 2) 1 1 1
                   ltac:(simpl; lia) ltac:(lra)).
  eexists. split; [exact Hsg|].
  destruct (SimGrid_deriv_adjoint [3; 2] (Grid.SpacingFloat (1 / 2))
              (Grid.EpsFloat 1) (SimGrid.BlochFloat 0) 1 1 _ Hsg eq_refl)
    as [Hok Hadj].
  split; [|exact Hadj].
  apply Hok. repeat constructor.
Defined.

(** ** The Yee-averaged permittivity *)

(** Reading [eps_t] never raises: the three arrays it stacks have one
    shape. *)
Lemma eps_t_body_total (sg : SimGrid.t) : is_ok (SimGrid.eps_t_body sg).
Proof.
  unfold SimGrid.eps_t_body, Utils.yee_avg, is_ok.
  destruct (0 <? SimGrid.yee_avg sg)%Z.
  - destruct (Np.ndim _ =? 1).
    + unfold stack. cbn [forallb]. unfold list_eqb.
      rewrite !bool_decide_eq_true_2 by reflexivity. simpl. eauto.
    + unfold stack. cbn [forallb]. unfold list_eqb.
      rewrite !bool_decide_eq_true_2 by reflexivity. simpl. eauto.
  - unfold stack. cbn [forallb]. unfold list_eqb.
    rewrite !bool_decide_eq_true_2 by reflexivity. simpl. eauto.
Qed.

(** ** The dimension check of [FDFD.wgm] *)

Lemma map_result_raise {A B} (P : exn -> Prop) (f : A -> result B)
    (l : list A) (e : exn) :
  (forall a e', f a = Raise e' -> P e') ->
  map_result f l = Raise e -> P e.
Proof.
  intros Hf. induction l as [|a l IH]; simpl; [discriminate|].
  destruct (f a) as [b|e'] eqn:E; simpl.
  - destruct (map_result f l); simpl; [discriminate|].
    intros [= <-]. now apply IH.
  - intros [= <-]. eapply Hf; eauto.
Qed.

Lemma matmul_raise A B e : Sp.matmul A B = Raise e -> not_dim_error e.
Proof. unfold Sp.matmul. destruct (_ =? _); intros [= <-]. exact I. Qed.

Lemma deriv_raise sg back e :
  SimGrid.deriv sg back = Raise e -> not_dim_error e.
Proof.
  unfold SimGrid.deriv.
  destruct (Grid.shape _ ++ _) as [|s0 [|s1 [|s2 ?]]];
    try (intros [= <-]; exact I).
  cbn [imap]. apply map_result_raise. intros ax e'.
  destruct (_ !! ax); [|intros [= <-]; exact I].
  destruct (_ !! ax); [|intros [= <-]; exact I].
  apply matmul_raise.
Qed.

Lemma k0_raise self e : FDFD.k0 self = Raise e -> not_dim_error e.
Proof. unfold FDFD.k0. destruct (Reqb _ _); intros [= <-]. exact I. Qed.

Ltac raise_cases :=
  repeat match goal with
         | |- context [FDFD.k0 ?s] =>
             let E := fresh "E" in
             destruct (FDFD.k0 s) eqn:E; [ | apply k0_raise in E ]
         | |- Raise _ = Raise _ -> _ =>
             intros [= <-]; first [exact I | assumption]
         | |- Ok _ = Raise _ -> _ => discriminate
         | |- context [Sp.vstack2 ?a ?b] =>
             unfold Sp.vstack2 at 1; destruct (Sp.ncols a =? Sp.ncols b)
         | |- context [Sp.hstack2 ?a ?b] =>
             unfold Sp.hstack2 at 1; destruct (Sp.nrows a =? Sp.nrows b)
         | |- context [Sp.add ?a ?b] =>
             unfold Sp.add at 1;
             destruct ((Sp.nrows a =? Sp.nrows b) && (Sp.ncols a =? Sp.ncols b))
         | |- context [Sp.matmul ?a ?b] =>
             let E := fresh "E" in
             destruct (Sp.matmul a b) eqn:E;
             [ | apply matmul_raise in E ]
         | |- _ => progress (unfold mbind, result_bind)
         | |- _ => progress cbv beta iota
         end.

(** C6.  Reading [wgm] on a grid of dimension 3 raises the configuration
    error; on a grid of dimension 1 or 2 it does not raise that error. *)
Theorem FDFD_wgm_dimension_check (self : FDFD.t) (eps_t : ndarray R) :
  (FDFD.ndim self = 3 ->
   FDFD.wgm self eps_t = Raise (AttributeError FDFD.dim_msg)) /\
  (FDFD.ndim self = 1 \/ FDFD.ndim self = 2 ->
   forall msg, FDFD.wgm self eps_t <> Raise (AttributeError msg)).
Proof.
  split.
  - intros H3. unfold FDFD.wgm. now rewrite H3.
  - intros H12 msg Hraise.
    assert (Hgen : forall e, FDFD.wgm self eps_t = Raise e -> not_dim_error e);
      [|exact (Hgen _ Hraise)].
    clear Hraise. intros e. unfold FDFD.wgm.
    replace (FDFD.ndim self <=? 2) with true
      by (symmetry; apply Nat.leb_le; lia).
    cbn [negb]. unfold SimGrid.df, SimGrid.db.
    destruct (SimGrid.deriv (FDFD.sim self) false) as [df|e1] eqn:Ef;
      [|apply deriv_raise in Ef; unfold mbind, result_bind; now intros [= <-]].
    destruct (SimGrid.deriv (FDFD.sim self) true) as [db|e1] eqn:Eb;
      [|apply deriv_raise in Eb; unfold mbind, result_bind; now intros [= <-]].
    unfold mbind at 1 2, result_bind at 1 2.
    destruct (FDFD.ndim self =? 2).
    + destruct (map _ (unstack eps_t)) as [|e0 [|e1 [|e2 ?]]];
        try (intros [= <-]; exact I);
        destruct df as [|df0 [|df1 ?]]; try (intros [= <-]; exact I);
        destruct db as [|db0 [|db1 ?]]; try (intros [= <-]; exact I);
        raise_cases.
    + destruct (map _ (unstack eps_t)) as [|e0 ?];
        try (intros [= <-]; exact I);
        destruct df as [|df0 ?]; try (intros [= <-]; exact I);
        destruct db as [|db0 ?]; try (intros [= <-]; exact I);
        raise_cases.
Qed.

(** ** The size check of [FDFD.solve] *)








Lemma k0_ok (self : FDFD.t) :
  FDFD.wavelength self <> 0%R ->
  FDFD.k0 self = Ok (2 * PI / FDFD.wavelength self)%R.
Proof. intros H. unfold FDFD.k0. now rewrite Reqb_false. Qed.


Lemma k0_ok_inv (self : FDFD.t) (k : R) :
  FDFD.k0 self = Ok k ->
  FDFD.wavelength self <> 0%R /\ k = (2 * PI / FDFD.wavelength self)%R.
Proof.
  unfold FDFD.k0. destruct (Reqb (FDFD.wavelength self) 0) eqn:E;
    [discriminate|]. intros [= <-]. split; [|reflexivity].
  intros H. rewrite H, Reqb_refl in E. discriminate.
Qed.








(** ** The order of the indices that [np.argsort] returns *)

Lemma Rltb_true (x y : R) : Rltb x y = true <-> (x < y)%R.
Proof. unfold Rltb. destruct (Rlt_dec x y); split; auto; discriminate. Qed.

Lemma Rltb_false (x y : R) : Rltb x y = false <-> (y <= x)%R.
Proof.
  unfold Rltb. destruct (Rlt_dec x y); split; auto; try discriminate; lra.
Qed.

Lemma key_lt_le_trans (a b c : option R) :
  Dense.key_lt a b = true -> Dense.key_lt c b = false ->
  Dense.key_lt a c = true.
Proof.
  destruct a as [x|], b as [y|], c as [z|]; simpl; try discriminate; auto.
  rewrite !Rltb_true, Rltb_false. lra.
Qed.

Lemma key_le_trans (a b c : option R) :
  Dense.key_lt b a = false -> Dense.key_lt c b = false ->
  Dense.key_lt c a = false.
Proof.
  destruct a as [x|], b as [y|], c as [z|]; simpl; try discriminate; auto.
  rewrite !Rltb_false. lra.
Qed.

Lemma key_lt_asym (a b : option R) :
  Dense.key_lt a b = true -> Dense.key_lt b a = false.
Proof.
  destruct a as [x|], b as [y|]; simpl; try discriminate; auto.
  rewrite Rltb_true, Rltb_false. lra.
Qed.

Lemma insert_idx_Forall (P : nat -> Prop) keys i l :
  P i -> Forall P l -> Forall P (Dense.insert_idx keys i l).
Proof.
  intros Hi. induction 1 as [|j l Hj Hl IH]; simpl.
  - constructor; auto.
  - destruct (Dense.key_lt _ _); repeat constructor; auto.
Qed.

Lemma insert_idx_sorted keys i l :
  Dense.sorted_by keys l -> Dense.sorted_by keys (Dense.insert_idx keys i l).
Proof.
  unfold Dense.sorted_by. induction 1 as [|j l Hl IH Hj]; simpl.
  - repeat constructor.
  - destruct (Dense.key_lt (nth i keys None) (nth j keys None)) eqn:E.
    + constructor; [constructor; assumption|].
      constructor; [now apply key_lt_asym|].
      eapply Forall_impl; [|exact Hj]. cbv beta. intros k Hk.
      apply key_lt_asym. eapply key_lt_le_trans; eauto.
    + constructor; [assumption|].
      apply insert_idx_Forall; assumption.
Qed.

Lemma argsort_sorted keys : Dense.sorted_by keys (Dense.argsort keys).
Proof.
  unfold Dense.argsort.
  assert (H : Dense.sorted_by keys []) by constructor.
  revert H. generalize (@nil nat). generalize (seq 0 (length keys)).
  intros idxs. induction idxs as [|i idxs IH]; intros acc Hacc; simpl; [assumption|].
  apply IH. now apply insert_idx_sorted.
Qed.

(** In a list in increasing order, a later element is not below an earlier
    one. *)
Lemma sorted_by_lookup keys inds a b p q :
  Dense.sorted_by keys inds -> a < b ->
  inds !! a = Some p -> inds !! b = Some q ->
  Dense.key_lt (nth q keys None) (nth p keys None) = false.
Proof.
  unfold Dense.sorted_by. intros Hs. revert a b.
  induction Hs as [|j l Hl IH Hj]; intros a b Hab Ha Hb.
  - destruct a; discriminate.
  - destruct b as [|b]; [lia|]. destruct a as [|a]; simpl in *.
    + injection Ha as ->. rewrite Forall_forall in Hj. apply Hj.
      apply list_elem_of_In. eapply list_elem_of_lookup_2; eauto.
    + apply (IH a b); auto. lia.
Qed.

(** ** Square roots *)

Section SqrtFacts.
Local Open Scope R_scope.

Lemma Cabs_ge_re (z : C) : Rabs (Re z) <= Cabs z.
Proof.
  unfold Cabs. rewrite <- sqrt_Rsqr_abs. apply sqrt_le_1_alt.
  unfold Rsqr. nra.
Qed.

Lemma np_csqrt_re_nonneg (z : C) : 0 <= Re (np_csqrt z).
Proof. simpl. apply sqrt_pos. Qed.

(** The principal square root squares back to a number of the same real
    part. *)
Lemma np_csqrt_sq_re (z : C) : Re (Cmul (np_csqrt z) (np_csqrt z)) = Re z.
Proof.
  pose proof (Cabs_ge_re z) as Habs.
  assert (Ha : 0 <= (Cabs z + Re z) / 2)
    by (unfold Rabs in Habs; destruct (Rcase_abs (Re z)); lra).
  assert (Hb : 0 <= (Cabs z - Re z) / 2)
    by (unfold Rabs in Habs; destruct (Rcase_abs (Re z)); lra).
  simpl.
  pose proof (sqrt_def _ Ha) as Hsa. pose proof (sqrt_def _ Hb) as Hsb.
  destruct (Rlt_dec (Im z) 0); nra.
Qed.

Lemma np_sqrt_nonneg (x : R) : 0 <= x -> np_sqrt x = Some (sqrt x).
Proof. intros Hx. unfold np_sqrt. destruct (Rlt_dec x 0); [lra | reflexivity]. Qed.

End SqrtFacts.

(** ** The results of [FDFD.wgm_solve] *)

Lemma lookup_map {A B} (f : A -> B) (l : list A) (i : nat) :
  map f l !! i = f <$> (l !! i).
Proof.
  revert i; induction l as [|a l IH]; intros [|i]; simpl; auto.
Qed.

Lemma take_lookup {A} (a : list A) (inds : list nat) (l : list A) :
  Dense.take a inds = Ok l ->
  forall i x, l !! i = Some x ->
              exists p, inds !! i = Some p /\ a !! p = Some x.
Proof.
  unfold Dense.take. revert l. induction inds as [|p inds IH]; intros l; simpl.
  - intros [= <-] i x Hi. destruct i; discriminate.
  - destruct (a !! p) as [y|] eqn:Ey; [|discriminate].
    unfold mbind at 1, result_bind at 1.
    destruct (map_result _ inds) as [l'|] eqn:El; [|discriminate].
    unfold mbind, result_bind. intros [= <-] i x Hi.
    destruct i as [|i]; simpl in *.
    + injection Hi as <-. eauto.
    + eapply IH; eauto.
Qed.

(** What a successful [wgm_solve] returns, in terms of what the eigensolver
    returned. *)
Lemma wgm_solve_ok eigs feast_eigs self eps_t num_modes beta_guess tol
    betas modes :
  FDFD.wgm_solve eigs feast_eigs self eps_t num_modes beta_guess tol
  = Ok (betas, modes) ->
  exists eigvals h lams,
    let keys := map (fun ev => np_sqrt (Re ev)) eigvals in
    let inds := rev (Dense.argsort keys) in
    Dense.take eigvals inds = Ok lams /\
    betas = map np_csqrt lams /\
    Dense.columns (FDFD.normalise (SimGrid.dtype_of (FDFD.sim self)) h) inds
    = Ok modes.
Proof.
  unfold FDFD.wgm_solve. intros H.
  apply rbind_ok in H as (df & _ & H).
  apply rbind_ok in H as (eig & _ & H).
  apply rbind_ok in H as (h & _ & H).
  apply rbind_ok in H as (lams & Hl & H).
  apply rbind_ok in H as (ms & Hm & H).
  injection H as <- <-.
  exists (fst eig), h, lams. cbv zeta. repeat split; auto.
Qed.

Lemma rev_lookup_Some {A} (l : list A) (i : nat) (x : A) :
  rev l !! i = Some x -> l !! (length l - S i) = Some x /\ i < length l.
Proof. rewrite rev_alt. apply reverse_lookup_Some. Qed.

(** The eigenvalues come out in non-increasing order of the sort key, so
    of their real part where no key is [nan]. *)
Lemma sorted_lams_re (eigvals lams : list C) :
  Dense.take eigvals
    (rev (Dense.argsort (map (fun ev => np_sqrt (Re ev)) eigvals))) = Ok lams ->
  Forall (fun ev => (0 <= Re ev)%R) lams ->
  Dense.non_increasing (map Re lams).
Proof.
  intros Htake Hpos i j x y Hij Hi Hj.
  rewrite lookup_map in Hi, Hj.
  destruct (lams !! i) as [li|] eqn:Eli; [|discriminate].
  destruct (lams !! j) as [lj|] eqn:Elj; [|discriminate].
  injection Hi as <-. injection Hj as <-.
  destruct (take_lookup _ _ _ Htake i li Eli) as (p & Hp & Hlp).
  destruct (take_lookup _ _ _ Htake j lj Elj) as (q & Hq & Hlq).
  apply rev_lookup_Some in Hp as [Hp Hip]. apply rev_lookup_Some in Hq as [Hq Hjq].
  set (keys := map (fun ev => np_sqrt (Re ev)) eigvals) in *.
  assert (Hs := sorted_by_lookup keys (Dense.argsort keys)
                  (length (Dense.argsort keys) - S j)
                  (length (Dense.argsort keys) - S i) q p
                  (argsort_sorted keys) ltac:(lia) Hq Hp).
  assert (Hkp : nth p keys None = np_sqrt (Re li)).
  { apply nth_lookup_Some. subst keys. now rewrite lookup_map, Hlp. }
  assert (Hkq : nth q keys None = np_sqrt (Re lj)).
  { apply nth_lookup_Some. subst keys. now rewrite lookup_map, Hlq. }
  rewrite Hkp, Hkq in Hs.
  rewrite Forall_forall in Hpos.
  assert (Hli : (0 <= Re li)%R)
    by (apply Hpos, list_elem_of_In; eapply list_elem_of_lookup_2; eauto).
  assert (Hlj : (0 <= Re lj)%R)
    by (apply Hpos, list_elem_of_In; eapply list_elem_of_lookup_2; eauto).
  rewrite !np_sqrt_nonneg in Hs by assumption. simpl in Hs.
  apply Rltb_false in Hs. now apply sqrt_le_0.
Qed.

(** When no returned propagation constant has a square (its eigenvalue) of
    negative real part, no sort key is [nan], and the returned betas are in
    non-increasing order of the real part of their squares; so betas that
    are all real are in non-increasing order. *)
Theorem FDFD_wgm_solve_betas_sorted eigs feast_eigs (self : FDFD.t)
    (eps_t : ndarray R) (num_modes : nat) (beta_guess : option FDFD.beta_arg)
    (tol : R) (betas : list C) (modes : Dense.t) :
  FDFD.wgm_solve eigs feast_eigs self eps_t num_modes beta_guess tol
  = Ok (betas, modes) ->
  Forall (fun beta => (0 <= Re (Cmul beta beta))%R) betas ->
  Dense.non_increasing (map (fun beta => Re (Cmul beta beta)) betas) /\
  (Forall (fun beta => Im beta = 0%R) betas ->
   Dense.non_increasing (map Re betas)).
Proof.
  intros Hsolve Hpos.
  destruct (wgm_solve_ok _ _ _ _ _ _ _ _ _ Hsolve)
    as (eigvals & h & lams & Htake & -> & _).
  assert (Hlams : Forall (fun ev => (0 <= Re ev)%R) lams).
  { rewrite Forall_forall in Hpos. apply Forall_forall. intros ev Hev.
    rewrite <- np_csqrt_sq_re. apply Hpos. now apply in_map. }
  pose proof (sorted_lams_re _ _ Htake Hlams) as Hsorted.
  assert (Hsq : Dense.non_increasing
                  (map (fun beta => Re (Cmul beta beta)) (map np_csqrt lams))).
  { rewrite map_map.
    erewrite map_ext; [exact Hsorted|]. intros ev. apply np_csqrt_sq_re. }
  split; [exact Hsq|].
  intros Hreal i j x y Hij Hi Hj.
  rewrite lookup_map in Hi, Hj.
  destruct (map np_csqrt lams !! i) as [bi|] eqn:Ebi; [|discriminate].
  destruct (map np_csqrt lams !! j) as [bj|] eqn:Ebj; [|discriminate].
  injection Hi as <-. injection Hj as <-.
  specialize (Hsq i j (Re (Cmul bi bi)) (Re (Cmul bj bj)) Hij).
  rewrite (lookup_map (fun beta => Re (Cmul beta beta))), Ebi in Hsq.
  rewrite (lookup_map (fun beta => Re (Cmul beta beta))), Ebj in Hsq.
  specialize (Hsq eq_refl eq_refl).
  rewrite Forall_forall in Hreal.
  assert (Hbi : Im bi = 0%R)
    by (apply Hreal, list_elem_of_In; eapply list_elem_of_lookup_2; eauto).
  assert (Hbj : Im bj = 0%R)
    by (apply Hreal, list_elem_of_In; eapply list_elem_of_lookup_2; eauto).
  assert (Hnni : (0 <= Re bi)%R).
  { rewrite lookup_map in Ebi. destruct (lams !! i); [|discriminate].
    injection Ebi as <-. apply np_csqrt_re_nonneg. }
  assert (Hnnj : (0 <= Re bj)%R).
  { rewrite lookup_map in Ebj. destruct (lams !! j); [|discriminate].
    injection Ebj as <-. apply np_csqrt_re_nonneg. }
  simpl in Hsq. rewrite Hbi, Hbj in Hsq. nra.
Qed.

(** [wgm_solve] on a one-dimensional grid, with the default shift, once
    the operators are built and the eigensolver has returned. *)
Lemma wgm_solve_1d_eval eigs feast_eigs (self : FDFD.t) (eps_t : ndarray R)
    (num_modes : nat) (tol : R) df A k m vals vecs :
  SimGrid.df (FDFD.sim self) = Ok df ->
  (1 <? FDFD.ndim self) = false ->
  FDFD.k0 self = Ok k ->
  Np.max (FDFD.eps self) = Ok m ->
  FDFD.wgm self eps_t = Ok A ->
  (forall sigma, eigs A num_modes sigma tol = inr (vals, vecs)) ->
  FDFD.wgm_solve eigs feast_eigs self eps_t num_modes None tol
  = (let inds :=
       rev (Dense.argsort (map (fun ev => np_sqrt (Re ev)) vals)) in
     lams ← Dense.take vals inds;
     modes ← Dense.columns
               (FDFD.normalise (SimGrid.dtype_of (FDFD.sim self)) vecs) inds;
     Ok (map np_csqrt lams, modes)).
Proof.
  intros Hdf Hnd Hk Hm HA Heigs. unfold FDFD.wgm_solve.
  rewrite Hdf, Hk, Hm, HA, Hnd.
  cbn [mbind result_bind]. rewrite Heigs. reflexivity.
Qed.

(** The same with a guess [beta_guess] that is a float other than zero:
    the shift is its square. *)
Lemma wgm_solve_1d_eval_guess eigs feast_eigs (self : FDFD.t)
    (eps_t : ndarray R) (num_modes : nat) (beta tol : R) df A vals vecs :
  SimGrid.df (FDFD.sim self) = Ok df ->
  (1 <? FDFD.ndim self) = false ->
  beta <> 0%R ->
  FDFD.wgm self eps_t = Ok A ->
  eigs A num_modes (Some (beta * beta)%R) tol = inr (vals, vecs) ->
  FDFD.wgm_solve eigs feast_eigs self eps_t num_modes
    (Some (FDFD.BetaFloat beta)) tol
  = (let inds :=
       rev (Dense.argsort (map (fun ev => np_sqrt (Re ev)) vals)) in
     lams ← Dense.take vals inds;
     modes ← Dense.columns
               (FDFD.normalise (SimGrid.dtype_of (FDFD.sim self)) vecs) inds;
     Ok (map np_csqrt lams, modes)).
Proof.
  intros Hdf Hnd Hb HA Heigs. unfold FDFD.wgm_solve.
  rewrite Hdf, (Reqb_false _ _ Hb), HA, Hnd.
  cbn [mbind result_bind]. rewrite Heigs. reflexivity.
Qed.

Section Evaluation.
Local Open Scope R_scope.

Lemma sqrt_eq (x y : R) : 0 <= y -> y * y = x -> sqrt x = y.
Proof. intros Hy <-. now apply sqrt_square. Qed.

Lemma Rltb_lt (x y : R) : x < y -> Rltb x y = true.
Proof. apply Rltb_true. Qed.

Lemma Rltb_ge (x y : R) : y <= x -> Rltb x y = false.
Proof. apply Rltb_false. Qed.

End Evaluation.

Lemma k0_pi (sg : SimGrid.t) : FDFD.k0 (FDFD.mk sg PI) = Ok 2%R.
Proof.
  rewrite k0_ok by (cbn [FDFD.wavelength]; apply PI_neq0).
  cbn [FDFD.wavelength]. f_equal. field. apply PI_neq0.
Qed.

(** The operator of the grid the examples below solve: two cells of size 1
    with [eps = 1] and [k0 = 2].  Its eigenvalues are [4] and [0]. *)
Lemma wgm_two_cells_eigenpairs :
  exists sg et A,
    SimGrid.init [2] (Grid.SpacingFloat 1) (Grid.EpsFloat 1)
      (SimGrid.BlochFloat 0) None 1 1 = Ok sg /\
    SimGrid.eps_t_body sg = Ok et /\
    FDFD.wgm (FDFD.mk sg PI) et = Ok A /\
    Sp.eigenpair A (mkC 4 0) [Cone; Cone] /\
    Sp.eigenpair A (mkC 0 0) [Cone; Cneg Cone].
Proof.
  eexists. eexists. eexists.
  split; [apply SimGrid_init_float; [simpl; lia | lra]|].
  split; [cbv - [Rplus Rmult Ropp Rinv Rminus Rdiv IZR]; reflexivity|].
  split.
  { unfold FDFD.wgm. rewrite k0_pi.
    cbv - [Rplus Rmult Ropp Rinv Rminus Rdiv IZR PI exp cos sin]. reflexivity. }
  split.
  all: split; [reflexivity|];
    cbv - [Rplus Rmult Ropp Rinv Rminus Rdiv IZR PI exp cos sin];
    replace (0 * 0 - 1 * 0)%R with 0%R by lra;
    replace (0 * 0 + 1 * 0)%R with 0%R by lra;
    rewrite exp_0, cos_0, sin_0;
    (f_equal; [|f_equal]); f_equal; field.
Qed.

(** Evaluation of the operators of a small grid: the sums over the cells
    are unfolded to complex arithmetic, the terms with a zero factor are
    dropped, and what remains is an identity of the field of reals. *)
Ltac eval_cells :=
  cbv - [Rplus Rmult Ropp Rinv Rminus Rdiv IZR PI exp cos sin Cadd Cmul Cneg
         Cdiv Cinv Csub RtoC np_exp Czero Cone Ci Cconj SimGrid.bloch_factor];
  repeat (progress rewrite ?Cadd_0_r, ?Cadd_0_l, ?Cmul_0_l, ?Cmul_0_r,
            ?Cmul_1_r, ?bloch_factor_0).

Ltac eq_cells :=
  repeat match goal with
         | |- _ :: _ = _ :: _ => f_equal
         | |- @eq C _ _ =>
             apply C_eq;
             cbn [Re Im Cadd Cmul Cneg Cinv Cconj RtoC Czero Cone]
         | |- @eq R _ _ => field
         end; try reflexivity.

Ltac wgm_cells :=
  unfold FDFD.wgm; rewrite k0_pi;
  cbv - [Rplus Rmult Ropp Rinv Rminus Rdiv IZR PI exp cos sin Cadd Cmul Cneg
         Cdiv Cinv Csub RtoC np_exp Czero Cone Ci Cconj SimGrid.bloch_factor];
  reflexivity.

(** The operator of the grid that the evaluation for C3 solves: four cells
    of size [1/2] with [eps = 1] and [k0 = 2], which is [4 I] plus the
    periodic second difference over the cells.  Its eigenvalues are [4],
    [-4] (twice) and [-12]. *)
Lemma wgm_four_cells_eigenpairs :
  exists sg et A,
    SimGrid.init [4] (Grid.SpacingFloat (1 / 2)) (Grid.EpsFloat 1)
      (SimGrid.BlochFloat 0) None 1 1 = Ok sg /\
    SimGrid.eps_t_body sg = Ok et /\
    FDFD.wgm (FDFD.mk sg PI) et = Ok A /\
    Sp.eigenpair A (mkC 4 0) [Cone; Cone; Cone; Cone] /\
    Sp.eigenpair A (mkC (-4) 0) [Cone; Czero; Cneg Cone; Czero] /\
    Sp.eigenpair A (mkC (-4) 0) [Czero; Cone; Czero; Cneg Cone] /\
    Sp.eigenpair A (mkC (-12) 0) [Cone; Cneg Cone; Cone; Cneg Cone].
Proof.
  eexists. eexists. eexists.
  split; [apply SimGrid_init_float; [simpl; lia | lra]|].
  split; [cbv - [Rplus Rmult Ropp Rinv Rminus Rdiv IZR]; reflexivity|].
  split; [wgm_cells|].
  repeat split.
  all: eval_cells; eq_cells.
Qed.

Lemma np_sqrt_neg (x : R) : (x < 0)%R -> np_sqrt x = None.
Proof. intros Hx. unfold np_sqrt. destruct (Rlt_dec x 0); [reflexivity|lra]. Qed.

Lemma np_csqrt_4 : np_csqrt (mkC 4 0) = mkC 2 0.
Proof.
  unfold np_csqrt, Cabs. simpl.
  rewrite (sqrt_eq (4 * 4 + 0 * 0) 4) by lra.
  rewrite (sqrt_eq ((4 + 4) / 2) 2) by lra.
  rewrite (sqrt_eq ((4 - 4) / 2) 0) by lra.
  destruct (Rlt_dec 0 0); [lra|]. f_equal. lra.
Qed.

Lemma np_csqrt_neg_re (x : R) : (x <= 0)%R -> Re (np_csqrt (mkC x 0)) = 0%R.
Proof.
  intros Hx. unfold np_csqrt, Cabs. cbn [Re Im].
  rewrite (sqrt_eq (x * x + 0 * 0) (- x)) by nra.
  replace ((- x + x) / 2)%R with 0%R by lra. apply sqrt_0.
Qed.

(** C3.  The grid of [wgm_four_cells_eigenpairs] (four cells of size
    [1/2], [eps = 1], no PML, wavelength [pi]) solved for two modes with
    the guess [beta_guess = 1.0]: the eigensolver returns the two
    eigenvalues nearest the shift [1], which are [4] and [-4], in either
    order.  The sort key [np.sqrt(eigvals.real)] of [-4] is [nan]; [argsort]
    puts it last and the reversal first, so the betas come out as the
    square root of [-4], of real part [0], followed by [2]: their real
    parts increase. *)
Theorem FDFD_wgm_solve_evanescent_first :
  exists sg et A b0 modes modes',
    SimGrid.init [4] (Grid.SpacingFloat (1 / 2)) (Grid.EpsFloat 1)
      (SimGrid.BlochFloat 0) None 1 1 = Ok sg /\
    SimGrid.eps_t_body sg = Ok et /\
    FDFD.wgm (FDFD.mk sg PI) et = Ok A /\
    Sp.eigenpair A (mkC 4 0) [Cone; Cone; Cone; Cone] /\
    Sp.eigenpair A (mkC (-4) 0) [Cone; Czero; Cneg Cone; Czero] /\
    FDFD.wgm_solve
      (fun _ _ _ _ =>
         inr ([mkC 4 0; mkC (-4) 0],
              [[Cone; Cone]; [Cone; Czero]; [Cone; Cneg Cone]; [Cone; Czero]]))
      (fun _ _ _ => inl "not called")
      (FDFD.mk sg PI) et 2 (Some (FDFD.BetaFloat 1)) (1 / 10 ^ 7)
    = Ok ([b0; mkC 2 0], modes) /\
    FDFD.wgm_solve
      (fun _ _ _ _ =>
         inr ([mkC (-4) 0; mkC 4 0],
              [[Cone; Cone]; [Czero; Cone]; [Cneg Cone; Cone]; [Czero; Cone]]))
      (fun _ _ _ => inl "not called")
      (FDFD.mk sg PI) et 2 (Some (FDFD.BetaFloat 1)) (1 / 10 ^ 7)
    = Ok ([b0; mkC 2 0], modes') /\
    Re b0 = 0%R /\
    ~ Dense.non_increasing (map Re [b0; mkC 2 0]).
Proof.
  eexists. eexists. eexists. eexists. eexists. eexists.
  split; [apply SimGrid_init_float; [simpl; lia | lra]|].
  split; [cbv - [Rplus Rmult Ropp Rinv Rminus Rdiv IZR]; reflexivity|].
  split; [wgm_cells|].
  split; [split; [reflexivity | eval_cells; eq_cells]|].
  split; [split; [reflexivity | eval_cells; eq_cells]|].
  assert (Hb0 : Re (np_csqrt (mkC (-4) 0)) = 0%R)
    by (apply np_csqrt_neg_re; lra).
  split; [|split; [|split]].
  - erewrite wgm_solve_1d_eval_guess;
      [ | vm_compute; reflexivity | reflexivity | lra | wgm_cells
        | reflexivity ].
    cbv zeta. cbn [map Re].
    rewrite (np_sqrt_nonneg 4), (np_sqrt_neg (-4)) by lra.
    unfold Dense.argsort. cbn [length seq fold_left Dense.insert_idx nth].
    cbn [Dense.key_lt].
    cbn [rev app Dense.take map_result lookup list_lookup mbind result_bind].
    cbn [map]. rewrite np_csqrt_4.
    cbn [FDFD.sim SimGrid.dtype_of].
    unfold FDFD.normalise, Dense.mul_row, Dense.columns, Dense.column.
    cbn [firstn map zip_with map_result lookup list_lookup mbind result_bind].
    reflexivity.
  - erewrite wgm_solve_1d_eval_guess;
      [ | vm_compute; reflexivity | reflexivity | lra | wgm_cells
        | reflexivity ].
    cbv zeta. cbn [map Re].
    rewrite (np_sqrt_nonneg 4), (np_sqrt_neg (-4)) by lra.
    unfold Dense.argsort. cbn [length seq fold_left Dense.insert_idx nth].
    cbn [Dense.key_lt].
    cbn [rev app Dense.take map_result lookup list_lookup mbind result_bind].
    cbn [map]. rewrite np_csqrt_4.
    cbn [FDFD.sim SimGrid.dtype_of].
    unfold FDFD.normalise, Dense.mul_row, Dense.columns, Dense.column.
    cbn [firstn map zip_with map_result lookup list_lookup mbind result_bind].
    reflexivity.
  - exact Hb0.
  - intros H.
    specialize (H 0 1 (Re (np_csqrt (mkC (-4) 0))) 2%R ltac:(lia)
                  eq_refl eq_refl).
    rewrite Hb0 in H. lra.
Qed.

(** The theorem on the grid of [wgm_two_cells_eigenpairs], the solver
    returning its two eigenpairs. *)
Lemma FDFD_wgm_solve_betas_sorted_witness :
  exists sg et betas modes,
    SimGrid.init [2] (Grid.SpacingFloat 1) (Grid.EpsFloat 1)
      (SimGrid.BlochFloat 0) None 1 1 = Ok sg /\
    SimGrid.eps_t_body sg = Ok et /\
    FDFD.wgm_solve
      (fun _ _ _ _ => inr ([mkC 4 0; mkC 0 0],
                           [[Cone; Cone]; [Cone; Cneg Cone]]))
      (fun _ _ _ => inl "not called")
      (FDFD.mk sg PI) et 2 None 1
    = Ok (betas, modes) /\
    Forall (fun beta => (0 <= Re (Cmul beta beta))%R) betas /\
    Dense.non_increasing (map (fun beta => Re (Cmul beta beta)) betas) /\
    (Forall (fun beta => Im beta = 0%R) betas ->
     Dense.non_increasing (map Re betas)).
Proof.
  eexists. eexists. eexists. eexists.
  split; [apply SimGrid_init_float; [simpl; lia | lra]|]. split.
  { vm_compute. reflexivity. }
  match goal with
  | |- FDFD.wgm_solve ?e ?f ?self ?et ?n ?bg ?tol = _ /\ _ =>
      eassert (Hcall : FDFD.wgm_solve e f self et n bg tol
                       = Ok (map np_csqrt [mkC 4 0; mkC 0 0], _))
  end.
  { erewrite wgm_solve_1d_eval;
      [ | vm_compute; reflexivity | reflexivity | apply k0_pi
        | vm_compute; reflexivity
        | unfold FDFD.wgm; rewrite k0_pi;
          cbv - [Rplus Rmult Ropp Rinv Rminus Rdiv IZR PI]; reflexivity
        | intros; reflexivity ].
    cbv zeta. cbn [map Re].
    rewrite !np_sqrt_nonneg by lra.
    unfold Dense.argsort. cbn [length seq fold_left Dense.insert_idx nth].
    cbn [Dense.key_lt].
    rewrite (sqrt_eq 4 2), (sqrt_eq 0 0) by lra.
    rewrite (Rltb_lt 0 2) by lra.
    cbn [rev app Dense.take map_result lookup list_lookup mbind result_bind].
    cbn [FDFD.sim SimGrid.dtype_of].
    unfold FDFD.normalise, Dense.mul_row, Dense.columns, Dense.column.
    cbn [firstn map zip_with map_result lookup list_lookup mbind result_bind].
    reflexivity. }
  assert (Hpos : Forall (fun beta => (0 <= Re (Cmul beta beta))%R)
                        (map np_csqrt [mkC 4 0; mkC 0 0])).
  { cbn [map]. repeat constructor; rewrite np_csqrt_sq_re; simpl; lra. }
  split; [exact Hcall|]. split; [exact Hpos|].
  exact (FDFD_wgm_solve_betas_sorted _ _ _ _ _ _ _ _ _ Hcall Hpos).
Defined.

(** ** Phase and sign of the normalised modes *)

Section Polar.
Local Open Scope R_scope.

Lemma sqrt_1_tan_sq (x y r : R) :
  x <> 0 -> 0 < r -> r * r = x * x + y * y ->
  sqrt (1 + (y / x)²) = r / Rabs x.
Proof.
  intros Hx Hr Hrr.
  assert (Hax : 0 < Rabs x) by now apply Rabs_pos_lt.
  apply sqrt_eq.
  - apply Rlt_le, Rdiv_lt_0_compat; assumption.
  - unfold Rsqr, Rabs. destruct (Rcase_abs x).
    + replace (r / - x * (r / - x)) with ((r * r) / (x * x)) by (field; lra).
      rewrite Hrr. field; lra.
    + replace (r / x * (r / x)) with ((r * r) / (x * x)) by (field; lra).
      rewrite Hrr. field; lra.
Qed.

(** The polar form behind [np.angle]: for [theta = arctan2(y, x)],
    [x = r cos theta] and [y = r sin theta]. *)
Lemma arctan2_polar (x y : R) :
  let theta := np_arctan2 y x in
  let r := sqrt (x * x + y * y) in
  x = r * cos theta /\ y = r * sin theta.
Proof.
  cbv zeta. unfold np_arctan2.
  set (r := sqrt (x * x + y * y)).
  assert (Hr0 : 0 <= r) by apply sqrt_pos.
  assert (Hrr : r * r = x * x + y * y) by (apply sqrt_def; nra).
  destruct (Rlt_dec 0 x) as [Hx|Hx].
  - assert (Hr : 0 < r) by nra.
    rewrite cos_atan, sin_atan, (sqrt_1_tan_sq x y r) by (assumption || lra).
    rewrite Rabs_right by lra. split; field; lra.
  - destruct (Rlt_dec x 0) as [Hx'|Hx'].
    + assert (Hr : 0 < r) by nra.
      destruct (Rle_dec 0 y).
      * rewrite neg_cos, neg_sin, cos_atan, sin_atan,
          (sqrt_1_tan_sq x y r) by (assumption || lra).
        rewrite Rabs_left by lra. split; field; lra.
      * rewrite cos_minus, sin_minus, cos_PI, sin_PI, cos_atan, sin_atan,
          (sqrt_1_tan_sq x y r) by (assumption || lra).
        rewrite Rabs_left by lra. split; field; lra.
    + assert (Hx0 : x = 0) by lra. subst x.
      assert (Hyy : r * r = y * y) by lra.
      destruct (Rlt_dec 0 y).
      * rewrite cos_PI2, sin_PI2. split; nra.
      * destruct (Rlt_dec y 0).
        -- rewrite cos_neg, sin_neg, cos_PI2, sin_PI2. split; nra.
        -- rewrite cos_0, sin_0. split; nra.
Qed.

(** Dividing a complex number by the phase factor of its angle leaves its
    modulus. *)
Lemma Cmul_conj_phase (w : C) :
  Cmul w (np_exp (Cmul (Cneg Ci) (RtoC (np_angle w)))) = RtoC (Cabs w).
Proof.
  destruct (arctan2_polar (Re w) (Im w)) as [Hx Hy].
  unfold np_angle, Cabs in *.
  set (theta := np_arctan2 (Im w) (Re w)) in *.
  set (r := sqrt (Re w * Re w + Im w * Im w)) in *.
  pose proof (sin2_cos2 theta) as Hsc. unfold Rsqr in Hsc.
  unfold np_exp, Cmul, Cneg, Ci, RtoC. simpl.
  replace (- 0 * theta - - (1) * 0) with 0 by ring.
  replace (- 0 * 0 + - (1) * theta) with (- theta) by ring.
  rewrite exp_0, cos_neg, sin_neg.
  clearbody theta r. destruct w as [x y]. simpl in *. subst x y.
  apply C_eq; simpl.
  - transitivity (r * (sin theta * sin theta + cos theta * cos theta));
      [ring | rewrite Hsc; ring].
  - ring.
Qed.

Lemma np_angle_nonneg_real (r : R) : 0 <= r -> np_angle (RtoC r) = 0.
Proof.
  intros Hr. unfold np_angle, np_arctan2. simpl.
  destruct (Rlt_dec 0 r).
  - unfold Rdiv. rewrite Rmult_0_l. apply atan_0.
  - destruct (Rlt_dec r 0); [lra|].
    destruct (Rlt_dec 0 0); [lra|]. destruct (Rlt_dec 0 0); [lra|reflexivity].
Qed.

(** The phase of a normalised first entry is exactly zero. *)
Lemma normalised_phase (w : C) :
  np_angle (Cmul w (np_exp (Cmul (Cneg Ci) (RtoC (np_angle w))))) = 0.
Proof.
  rewrite Cmul_conj_phase. apply np_angle_nonneg_real. apply sqrt_pos.
Qed.

(** The sign of a normalised first entry is zero or one. *)
Lemma normalised_sign (w : C) :
  np_sign (Cmul w (np_sign w)) = Czero \/ np_sign (Cmul w (np_sign w)) = Cone.
Proof.
  unfold np_sign at 2 4.
  destruct (Req_dec_T (Re w) 0) as [Hre|Hre].
  - unfold np_sign_real.
    destruct (Rlt_dec (Im w) 0); [|destruct (Rlt_dec 0 (Im w))];
      unfold np_sign, Cmul, RtoC; simpl;
      (destruct (Req_dec_T _ 0) as [E|E]; [|exfalso; apply E; rewrite Hre; ring]);
      unfold np_sign_real;
      repeat match goal with
             | |- context [Rlt_dec ?a ?b] => destruct (Rlt_dec a b)
             end; try lra; auto.
  - unfold np_sign_real.
    destruct (Rlt_dec (Re w) 0); [|destruct (Rlt_dec 0 (Re w)); [|lra]];
      unfold np_sign, Cmul, RtoC; simpl;
      (destruct (Req_dec_T _ 0) as [E|E]; [lra|]);
      unfold np_sign_real;
      repeat match goal with
             | |- context [Rlt_dec ?a ?b] => destruct (Rlt_dec a b)
             end; try lra; auto.
Qed.

End Polar.

Lemma map_result_In {A B} (f : A -> result B) (l : list A) (bs : list B) (b : B) :
  map_result f l = Ok bs -> In b bs -> exists a, In a l /\ f a = Ok b.
Proof.
  revert bs. induction l as [|a l IH]; intros bs; simpl.
  - intros [= <-] [].
  - intros H. apply rbind_ok in H as (b0 & Hb0 & H).
    apply rbind_ok in H as (bs' & Hbs' & H). injection H as <-.
    intros [<- | Hin]; [eauto|].
    destruct (IH _ Hbs' Hin) as (a' & Ha' & Hf). eauto.
Qed.

Lemma column_head (h : Dense.t) (j : nat) (col : list C) (z : C) :
  Dense.column h j = Ok col -> col !! 0 = Some z ->
  exists row, h !! 0 = Some row /\ row !! j = Some z.
Proof.
  unfold Dense.column. destruct h as [|row h]; simpl.
  - intros [= <-]. discriminate.
  - destruct (row !! j) as [x|] eqn:E; [|discriminate].
    intros H. apply rbind_ok in H as (x' & [= <-] & H).
    apply rbind_ok in H as (bs & _ & H). injection H as <-.
    simpl. intros [= <-]. eauto.
Qed.

(** The first row of the normalised array: each entry is multiplied by the
    factor computed from it. *)
Lemma normalise_head (dt : SimGrid.dtype) (h : Dense.t) (row : list C)
    (j : nat) (z : C) :
  FDFD.normalise dt h !! 0 = Some row -> row !! j = Some z ->
  exists w,
    z = Cmul w (match dt with
                | SimGrid.complex128 =>
                    np_exp (Cmul (Cneg Ci) (RtoC (np_angle w)))
                | SimGrid.float64 => np_sign w
                end).
Proof.
  unfold FDFD.normalise. destruct h as [|r0 h]; [discriminate|].
  cbn [firstn map Dense.mul_row lookup list_lookup].
  intros [= <-] Hj.
  apply lookup_zip_with_Some in Hj as (w & f & -> & Hw & Hf).
  rewrite lookup_map, Hw in Hf. injection Hf as <-.
  exists w. destruct dt; reflexivity.
Qed.

(** ** The cache of [eps_t] *)

(** After a read, the cache holds what the read returned. *)
Lemma eps_t_caches (s : Device.state) (o : Device.oid) (v : ndarray R)
    (s' : Device.state) :
  Device.eps_t s o = Ok (v, s') ->
  Device.cache_find o (Device.eps_t_cache s') = Some v.
Proof.
  unfold Device.eps_t.
  destruct (Device.cache_find o (Device.eps_t_cache s)) as [v0|] eqn:E.
  - intros [= <- <-]. simpl. now rewrite Nat.eqb_refl.
  - intros H. apply rbind_ok in H as (f & _ & H).
    apply rbind_ok in H as (v1 & _ & H). injection H as <- <-.
    simpl. now rewrite Nat.eqb_refl.
Qed.

(** A read that finds an entry returns it, whatever [eps] is. *)
Lemma eps_t_hit (s : Device.state) (o : Device.oid) (v : ndarray R) :
  Device.cache_find o (Device.eps_t_cache s) = Some v ->
  exists s', Device.eps_t s o = Ok (v, s').
Proof. intros H. unfold Device.eps_t. rewrite H. eauto. Qed.

(** So neither rebinding [eps] nor writing into the array changes what
    [eps_t] returns. *)
Lemma eps_t_ignores_rebinding s o v s1 o' l s2 :
  Device.eps_t s o = Ok (v, s1) ->
  Device.setattr_eps s1 o' l = Ok s2 ->
  exists s3, Device.eps_t s2 o = Ok (v, s3).
Proof.
  intros Hread Hset. apply eps_t_hit.
  unfold Device.setattr_eps in Hset.
  destruct (Device.objects s1 !! o'); [|discriminate].
  injection Hset as <-. simpl. eapply eps_t_caches; eauto.
Qed.

Lemma eps_t_ignores_writes s o v s1 l i x s2 :
  Device.eps_t s o = Ok (v, s1) ->
  Device.setitem s1 l i x = Ok s2 ->
  exists s3, Device.eps_t s2 o = Ok (v, s3).
Proof.
  intros Hread Hset. apply eps_t_hit.
  unfold Device.setitem in Hset.
  destruct (Device.arrays s1 !! l); [|discriminate].
  destruct (_ <? _); [|discriminate].
  injection Hset as <-. simpl. eapply eps_t_caches; eauto.
Qed.

(** [ModeDevice.solve] on a grid whose [eps_t] was read before: the mode
    solver gets the cached array [v], not the Yee average of the array [a]
    that the solve has just bound to [eps]. *)
Lemma ModeDevice_solve_reads_cache eigs feast_eigs s dev ob wg_eps l a v m :
  Device.objects s !! dev = Some ob ->
  Device.arrays s !! l = Some a ->
  Device.cache_find dev (Device.eps_t_cache s) = Some v ->
  exists s',
    Device.ModeDevice_solve eigs feast_eigs s dev wg_eps l m
    = (let f := Device.with_eps (Device.attrs ob) a in
       k ← FDFD.k0 f;
       sol ← FDFD.wgm_solve eigs feast_eigs f v m
               (Some (match np_sqrt wg_eps with
                      | Some r => FDFD.BetaFloat (k * r)
                      | None => FDFD.BetaNaN
                      end))
               (1 / 10 ^ 7)%R;
       Device.Modes_init s' (fst sol) (snd sol) dev).
Proof.
  intros Hob Ha Hv. unfold Device.ModeDevice_solve, Device.setattr_eps.
  rewrite Hob. unfold mbind at 1, result_bind at 1.
  unfold Device.view. cbn [Device.objects Device.arrays].
  rewrite lookup_insert_eq. cbn [Device.eps_ref Device.attrs]. rewrite Ha.
  unfold mbind at 1, result_bind at 1. cbv zeta.
  eexists.
  destruct (FDFD.k0 (Device.with_eps (Device.attrs ob) a)) as [k|e];
    cbn [mbind result_bind]; [|reflexivity].
  unfold Device.eps_t. cbn [Device.eps_t_cache]. rewrite Hv.
  unfold mbind at 1, result_bind at 1. cbn [fst snd].
  reflexivity.
Qed.

(** C8 fails on the code.  A grid of two cells with [eps = 1] everywhere
    reads [eps_t]; [eps] is then rebound to an array with [4] everywhere, as
    [ModeDevice.solve] does; the next read of [eps_t] returns the array of
    the first read, not the Yee average of the new [eps]. *)
Theorem eps_t_stale_after_eps_assignment :
  exists sg v1 s1 l s2 s3 v2 s4 fresh,
    SimGrid.init [2] (Grid.SpacingFloat 1) (Grid.EpsFloat 1)
      (SimGrid.BlochFloat 0) None 1 1 = Ok sg /\
    let s0 := Device.mk_state {[0 := full [2] 1%R]}
                {[0 := Device.mk_obj (FDFD.mk sg 1) 0]} [] 1 in
    Device.eps_t s0 0 = Ok (v1, s1) /\
    Device.new_array s1 (full [2] 4%R) = (l, s2) /\
    Device.setattr_eps s2 0 l = Ok s3 /\
    Device.eps_t s3 0 = Ok (v2, s4) /\
    v2 = v1 /\
    (f ← Device.view s3 0; SimGrid.eps_t_body (FDFD.sim f)) = Ok fresh /\
    fresh <> v2.
Proof.
  eexists. eexists. eexists. eexists. eexists. eexists. eexists. eexists.
  eexists.
  split; [apply SimGrid_init_float; [simpl; lia | lra]|]. cbv zeta.
  split; [vm_compute; reflexivity|].
  split; [vm_compute; reflexivity|].
  split; [vm_compute; reflexivity|].
  split; [vm_compute; reflexivity|].
  split; [reflexivity|].
  split; [vm_compute; reflexivity|].
  intros [=]. lra.
Qed.

(** ** The [eps] of a [Modes] result *)

(** What [Modes.__init__] builds: a copy of the grid under fresh
    identities, and [eps] bound to the array of the grid passed in. *)
Lemma Modes_init_inv s bs ms o m s' :
  Device.state_wf s ->
  Device.Modes_init s bs ms o = Ok (m, s') ->
  exists ob a,
    Device.objects s !! o = Some ob /\
    Device.arrays s !! Device.eps_ref ob = Some a /\
    m = Device.mk_modes (map Re bs) ms (S (Device.next s)) (Device.eps_ref ob)
          (length (map Re bs)) /\
    s' = Device.mk_state
           (<[Device.next s := a]> (Device.arrays s))
           (<[S (Device.next s) := Device.mk_obj (Device.attrs ob) (Device.next s)]>
              (Device.objects s))
           (Device.eps_t_cache s) (S (S (Device.next s))).
Proof.
  unfold Device.Modes_init, Device.deepcopy. intros [Hwo _] H.
  destruct (Device.objects s !! o) as [ob|] eqn:Eo; [|discriminate].
  destruct (Device.arrays s !! Device.eps_ref ob) as [a|] eqn:Ea; [|discriminate].
  unfold mbind, result_bind in H. cbn [fst snd Device.objects] in H.
  destruct (Hwo _ _ Eo) as [Hlt _].
  rewrite lookup_insert_ne, Eo in H by lia.
  injection H as <- <-. exists ob, a. repeat split; auto.
Qed.


(** But [modes.eps] is the live array: a write into the live grid's [eps]
    shows through it. *)
Lemma Modes_eps_sees_writes s bs ms o m s1 ob i x s2 :
  Device.state_wf s ->
  Device.Modes_init s bs ms o = Ok (m, s1) ->
  Device.objects s1 !! o = Some ob ->
  Device.setitem s1 (Device.eps_ref ob) i x = Ok s2 ->
  exists a,
    Device.Modes_eps s1 m = Some a /\
    Device.Modes_eps s2 m
    = Some (mk_ndarray (shape a) (<[i := x]> (data a))).
Proof.
  intros Hwf Hinit Hob Hset.
  destruct (Modes_init_inv _ _ _ _ _ _ Hwf Hinit)
    as (ob0 & a & Ho & Ha & -> & ->).
  destruct Hwf as [Hwo Hwa].
  destruct (Hwo _ _ Ho) as [Hlt Hlt'].
  cbn [Device.objects] in Hob. rewrite lookup_insert_ne, Ho in Hob by lia.
  injection Hob as <-.
  unfold Device.setitem in Hset. cbn [Device.arrays] in Hset.
  rewrite lookup_insert_ne, Ha in Hset by lia.
  destruct (_ <? _); [|discriminate]. injection Hset as <-.
  exists a. unfold Device.Modes_eps. cbn [Device.eps Device.arrays].
  split.
  - now rewrite lookup_insert_ne by lia.
  - now rewrite lookup_insert_eq.
Qed.


(** ** The conversions [e2h] and [h2e] *)

(** [e2h] returns nothing: whatever [utils.curl] computes, [e2h] raises,
    either with the exception of its reshape or of [curl], or when it calls
    the array that [curl_e] returned. *)
Lemma e2h_raises curl (self : FDFD.t) (e : ndarray C) (beta : option R) :
  exists ex, FDFD.e2h curl self e beta = Raise ex.
Proof.
  unfold FDFD.e2h, FDFD.call_array.
  destruct (if Np.ndim e =? 2 then _ else _) as [e'|ex]; [|eauto].
  unfold mbind at 1, result_bind at 1.
  destruct (SimGrid.curl_e _ _ _ _) as [c|ex]; simpl; eauto.
Qed.

Lemma h2e_raises curl (self : FDFD.t) (eps_t : ndarray R) (h : ndarray C)
    (beta : option R) :
  exists ex, FDFD.h2e curl self eps_t h beta = Raise ex.
Proof.
  unfold FDFD.h2e, FDFD.call_array.
  destruct (if Np.ndim h =? 2 then _ else _) as [h'|ex]; [|eauto].
  unfold mbind at 1, result_bind at 1.
  destruct (SimGrid.curl_h _ _ _ _) as [c|ex]; simpl; eauto.
Qed.

(** C2 fails on the code.  For every grid, every field [e] and every
    [beta], the round trip [h2e(e2h(e))] raises: no field is returned to
    compare with [e]. *)
Theorem FDFD_e2h_h2e_round_trip_raises curl (self : FDFD.t) (eps_t : ndarray R)
    (e : ndarray C) (beta : option R) :
  exists ex,
    (h ← FDFD.e2h curl self e beta; FDFD.h2e curl self eps_t h beta) = Raise ex.
Proof.
  destruct (e2h_raises curl self e beta) as [ex ->]. simpl. eauto.
Qed.

(** * Further properties of the code *)

(** ** What [wgm_solve] returns *)

Section SqrtRoots.
Local Open Scope R_scope.

(** [np.sqrt] of a complex number is a square root of it. *)
Lemma np_csqrt_sq (z : C) : Cmul (np_csqrt z) (np_csqrt z) = z.
Proof.
  apply C_eq; [apply np_csqrt_sq_re|].
  destruct z as [x y]. unfold np_csqrt, Cabs, Cmul. cbn [Re Im].
  set (m := sqrt (x * x + y * y)).
  assert (Hm0 : 0 <= m) by apply sqrt_pos.
  assert (Hmm : m * m = x * x + y * y) by (apply sqrt_sqrt; nra).
  assert (Hmx : Rabs x <= m) by apply (Cabs_ge_re (mkC x y)).
  assert (Hp : 0 <= (m + x) / 2)
    by (unfold Rabs in Hmx; destruct (Rcase_abs x); lra).
  assert (Hq : 0 <= (m - x) / 2)
    by (unfold Rabs in Hmx; destruct (Rcase_abs x); lra).
  assert (Hpq : sqrt ((m + x) / 2) * sqrt ((m - x) / 2) = Rabs y / 2).
  { rewrite <- sqrt_mult by assumption.
    apply sqrt_eq.
    - pose proof (Rabs_pos y). lra.
    - replace (Rabs y / 2 * (Rabs y / 2)) with ((Rabs y * Rabs y) / 4) by field.
      replace (Rabs y * Rabs y) with (y * y)
        by (unfold Rabs; destruct (Rcase_abs y); ring).
      nra. }
  set (a := sqrt ((m + x) / 2)) in *. set (b := sqrt ((m - x) / 2)) in *.
  destruct (Rlt_dec y 0) as [Hy|Hy].
  - rewrite Rabs_left in Hpq by assumption. nra.
  - rewrite Rabs_right in Hpq by lra. nra.
Qed.

End SqrtRoots.

(** [np.argsort] returns every index once. *)
Lemma insert_idx_perm keys i l : Dense.insert_idx keys i l ≡ₚ i :: l.
Proof.
  induction l as [|j l IH]; simpl; [reflexivity|].
  destruct (Dense.key_lt _ _); [reflexivity|].
  rewrite IH. apply Permutation_swap.
Qed.

Lemma argsort_perm keys : Dense.argsort keys ≡ₚ seq 0 (length keys).
Proof.
  unfold Dense.argsort.
  assert (H : forall idxs acc,
             fold_left (fun acc i => Dense.insert_idx keys i acc) idxs acc
             ≡ₚ idxs ++ acc).
  { induction idxs as [|i idxs IH]; intros acc; simpl; [reflexivity|].
    rewrite IH, insert_idx_perm. symmetry. apply Permutation_middle. }
  rewrite H. now rewrite app_nil_r.
Qed.

(** Fancy indexing with indices in range picks the elements at them. *)
Lemma take_map_nth {A} (a : list A) (inds : list nat) (l : list A) (d : A) :
  Dense.take a inds = Ok l -> l = map (fun i => nth i a d) inds.
Proof.
  unfold Dense.take. revert l. induction inds as [|p inds IH]; intros l; simpl.
  - now intros [= <-].
  - destruct (a !! p) as [y|] eqn:Ey; [|discriminate].
    unfold mbind at 1, result_bind at 1.
    destruct (map_result _ inds) as [l'|] eqn:El; [|discriminate].
    unfold mbind, result_bind. intros [= <-].
    f_equal; [symmetry; now apply nth_lookup_Some | now apply IH].
Qed.

Lemma map_nth_seq {A} (a : list A) (d : A) :
  map (fun i => nth i a d) (seq 0 (length a)) = a.
Proof.
  induction a as [|x a IH]; simpl; [reflexivity|].
  f_equal. rewrite <- seq_shift, map_map. exact IH.
Qed.

Lemma take_perm {A} (a : list A) (inds : list nat) (l : list A) :
  inds ≡ₚ seq 0 (length a) -> Dense.take a inds = Ok l -> l ≡ₚ a.
Proof.
  intros Hp Ht. destruct a as [|d a].
  - simpl in Hp. apply Permutation_nil_r in Hp. subst inds.
    simpl in Ht. now injection Ht as <-.
  - rewrite (take_map_nth _ _ _ d Ht).
    rewrite Hp. now rewrite map_nth_seq.
Qed.

(** What a successful [wgm_solve] has computed: the eigensolver returned
    [eigvals] and [eigvecs], the array [h] begins with the rows of
    [eigvecs], and the results are the sorted roots and the sorted columns
    of the normalised [h]. *)
Lemma wgm_solve_inv eigs feast_eigs self eps_t num_modes beta_guess tol
    betas modes :
  FDFD.wgm_solve eigs feast_eigs self eps_t num_modes beta_guess tol
  = Ok (betas, modes) ->
  exists eigvals eigvecs h lams,
    ((exists A sigma, eigs A num_modes sigma tol = inr (eigvals, eigvecs)) \/
     (exists A erange,
        feast_eigs A erange num_modes = inr (eigvals, eigvecs))) /\
    (exists hz, h = eigvecs ++ hz) /\
    let inds :=
      rev (Dense.argsort (map (fun ev => np_sqrt (Re ev)) eigvals)) in
    Dense.take eigvals inds = Ok lams /\
    betas = map np_csqrt lams /\
    Dense.columns (FDFD.normalise (SimGrid.dtype_of (FDFD.sim self)) h) inds
    = Ok modes.
Proof.
  unfold FDFD.wgm_solve. intros H.
  apply rbind_ok in H as (df & _ & H).
  apply rbind_ok in H as ([eigvals eigvecs] & Heig & H).
  apply rbind_ok in H as (h & Hh & H).
  apply rbind_ok in H as (lams & Hl & H).
  apply rbind_ok in H as (ms & Hm & H).
  injection H as <- <-. cbn [fst snd] in *.
  exists eigvals, eigvecs, h, lams. split; [|split].
  - assert (Heigs : forall (s : result (option R)),
              (sigma ← s; A ← FDFD.wgm self eps_t;
               FDFD.call_ext (eigs A num_modes sigma tol))
              = Ok (eigvals, eigvecs) ->
              exists A sigma,
                eigs A num_modes sigma tol = inr (eigvals, eigvecs)).
    { intros s Hs. apply rbind_ok in Hs as (sigma & _ & Hs).
      apply rbind_ok in Hs as (A & _ & Hs). unfold FDFD.call_ext in Hs.
      destruct (eigs A num_modes sigma tol) eqn:E; [discriminate|].
      injection Hs as ->. eauto. }
    destruct beta_guess as [[b| |lo hi|]|]; try discriminate;
      try (left; exact (Heigs _ Heig)).
    apply rbind_ok in Heig as (A & _ & Heig). unfold FDFD.call_ext in Heig.
    destruct (feast_eigs A _ num_modes) eqn:E; [discriminate|].
    injection Heig as ->. right. eauto.
  - destruct (1 <? FDFD.ndim self).
    + destruct df as [|df0 [|df1 ?]]; try discriminate.
      apply rbind_ok in Hh as (hs & _ & Hh).
      apply rbind_ok in Hh as (p & _ & Hh).
      injection Hh as <-. eauto.
    + injection Hh as <-. exists []. now rewrite app_nil_r.
  - cbv zeta. repeat split; auto.
Qed.

Lemma map_result_length {A B} (f : A -> result B) (l : list A) (bs : list B) :
  map_result f l = Ok bs -> length bs = length l.
Proof.
  revert bs. induction l as [|a l IH]; intros bs; simpl.
  - now intros [= <-].
  - intros H. apply rbind_ok in H as (b0 & _ & H).
    apply rbind_ok in H as (bs' & Hbs' & H). injection H as <-.
    simpl. f_equal. now apply IH.
Qed.

(** A column of an array with at least one row has a first entry. *)
Lemma column_first (h : Dense.t) (j : nat) (col : list C) :
  h <> [] -> Dense.column h j = Ok col -> exists z, col !! 0 = Some z.
Proof.
  unfold Dense.column. destruct h as [|row h]; [congruence|]. intros _.
  simpl. destruct (row !! j) as [x|]; [|discriminate].
  intros H. apply rbind_ok in H as (x' & [= <-] & H).
  apply rbind_ok in H as (bs & _ & H). injection H as <-.
  simpl. eauto.
Qed.

(** The normalisation keeps the rows of the array. *)
Lemma normalise_length (dt : SimGrid.dtype) (h : Dense.t) :
  length (FDFD.normalise dt h) = length h.
Proof.
  unfold FDFD.normalise, Dense.mul_row.
  destruct h as [|r0 h]; simpl; [reflexivity|]. now rewrite length_map.
Qed.

(** X1.  [wgm_solve] returns the eigensolver's eigenvalues, each once: the
    squares of the returned betas are a rearrangement of the eigenvalues that
    the solver it called ([eigs], or [feast_eigs] for a range) returned, and
    there are as many modes as betas. *)
Theorem FDFD_wgm_solve_betas_are_roots eigs feast_eigs (self : FDFD.t)
    (eps_t : ndarray R) (num_modes : nat) (beta_guess : option FDFD.beta_arg)
    (tol : R) (betas : list C) (modes : Dense.t) :
  FDFD.wgm_solve eigs feast_eigs self eps_t num_modes beta_guess tol
  = Ok (betas, modes) ->
  exists eigvals eigvecs,
    ((exists A sigma, eigs A num_modes sigma tol = inr (eigvals, eigvecs)) \/
     (exists A erange,
        feast_eigs A erange num_modes = inr (eigvals, eigvecs))) /\
    map (fun beta => Cmul beta beta) betas ≡ₚ eigvals /\
    length modes = length betas.
Proof.
  intros Hsolve.
  destruct (wgm_solve_inv _ _ _ _ _ _ _ _ _ Hsolve)
    as (eigvals & eigvecs & h & lams & Hsolver & _ & Htake & -> & Hcols).
  exists eigvals, eigvecs. split; [exact Hsolver|]. split.
  - rewrite map_map. erewrite map_ext by (intros; apply np_csqrt_sq).
    rewrite map_id. eapply take_perm; [|exact Htake].
    rewrite <- Permutation_rev, argsort_perm. now rewrite length_map.
  - unfold Dense.columns in Hcols. apply map_result_length in Hcols.
    unfold Dense.take in Htake. apply map_result_length in Htake.
    rewrite length_map. congruence.
Qed.

(** The solve used in the examples below: the grid of
    [wgm_two_cells_eigenpairs], the eigensolver returning its two
    eigenpairs. *)
Lemma wgm_solve_two_cells :
  exists sg et modes,
    SimGrid.init [2] (Grid.SpacingFloat 1) (Grid.EpsFloat 1)
      (SimGrid.BlochFloat 0) None 1 1 = Ok sg /\
    SimGrid.eps_t_body sg = Ok et /\
    FDFD.wgm_solve
      (fun _ _ _ _ => inr ([mkC 4 0; mkC 0 0],
                           [[Cone; Cone]; [Cone; Cneg Cone]]))
      (fun _ _ _ => inl "not called")
      (FDFD.mk sg PI) et 2 None 1
    = Ok (map np_csqrt [mkC 4 0; mkC 0 0], modes).
Proof.
  eexists. eexists. eexists.
  split; [apply SimGrid_init_float; [simpl; lia | lra]|]. split.
  { vm_compute. reflexivity. }
  erewrite wgm_solve_1d_eval;
    [ | vm_compute; reflexivity | reflexivity | apply k0_pi
      | vm_compute; reflexivity
      | unfold FDFD.wgm; rewrite k0_pi;
        cbv - [Rplus Rmult Ropp Rinv Rminus Rdiv IZR PI]; reflexivity
      | intros; reflexivity ].
  cbv zeta. cbn [map Re].
  rewrite !np_sqrt_nonneg by lra.
  unfold Dense.argsort. cbn [length seq fold_left Dense.insert_idx nth].
  cbn [Dense.key_lt].
  rewrite (sqrt_eq 4 2), (sqrt_eq 0 0) by lra.
  rewrite (Rltb_lt 0 2) by lra.
  cbn [rev app Dense.take map_result lookup list_lookup mbind result_bind].
  cbn [FDFD.sim SimGrid.dtype_of].
  unfold FDFD.normalise, Dense.mul_row, Dense.columns, Dense.column.
  cbn [firstn map zip_with map_result lookup list_lookup mbind result_bind].
  reflexivity.
Qed.

Lemma FDFD_wgm_solve_betas_are_roots_witness :
  exists sg et betas modes,
    SimGrid.init [2] (Grid.SpacingFloat 1) (Grid.EpsFloat 1)
      (SimGrid.BlochFloat 0) None 1 1 = Ok sg /\
    SimGrid.eps_t_body sg = Ok et /\
    let eigs := fun (_ : Sp.spmatrix) (_ : nat) (_ : option R) (_ : R) =>
                  inr ([mkC 4 0; mkC 0 0], [[Cone; Cone]; [Cone; Cneg Cone]])
                  : string + (list C * Dense.t) in
    let feast_eigs := fun (_ : Sp.spmatrix) (_ : R * R) (_ : nat) =>
                        inl "not called" : string + (list C * Dense.t) in
    FDFD.wgm_solve eigs feast_eigs (FDFD.mk sg PI) et 2 None 1
    = Ok (betas, modes) /\
    exists eigvals eigvecs,
      ((exists A sigma, eigs A 2 sigma 1%R = inr (eigvals, eigvecs)) \/
       (exists A erange, feast_eigs A erange 2 = inr (eigvals, eigvecs))) /\
      map (fun beta => Cmul beta beta) betas ≡ₚ eigvals /\
      length modes = length betas.
Proof.
  destruct wgm_solve_two_cells as (sg & et & modes & Hsg & Het & Hcall).
  exists sg, et, (map np_csqrt [mkC 4 0; mkC 0 0]), modes.
  split; [exact Hsg|]. split; [exact Het|]. cbv zeta.
  split; [exact Hcall|].
  exact (FDFD_wgm_solve_betas_are_roots _ _ _ _ _ _ _ _ _ Hcall).
Defined.

(** ** The first entry of the returned modes *)

(** X2.  In exact arithmetic: a successful [wgm_solve] returns as many
    modes as betas and, when the eigensolver's array of eigenvectors has at
    least one row, every mode has a first entry, whose phase is exactly 0 on
    a complex grid and whose sign is 0 or 1 (never -1) on a real grid. *)
Theorem FDFD_wgm_solve_normalised eigs feast_eigs (self : FDFD.t)
    (eps_t : ndarray R) (num_modes : nat) (beta_guess : option FDFD.beta_arg)
    (tol : R) (betas : list C) (modes : Dense.t) :
  (forall A k sigma tl vals vecs,
     eigs A k sigma tl = inr (vals, vecs) -> vecs <> []) ->
  (forall A erange k vals vecs,
     feast_eigs A erange k = inr (vals, vecs) -> vecs <> []) ->
  FDFD.wgm_solve eigs feast_eigs self eps_t num_modes beta_guess tol
  = Ok (betas, modes) ->
  length modes = length betas /\
  forall mode, In mode modes ->
    exists z, mode !! 0 = Some z /\
      match SimGrid.dtype_of (FDFD.sim self) with
      | SimGrid.complex128 => np_angle z = 0%R
      | SimGrid.float64 => np_sign z = Czero \/ np_sign z = Cone
      end.
Proof.
  intros Heigs Hfeast Hsolve.
  destruct (wgm_solve_inv _ _ _ _ _ _ _ _ _ Hsolve)
    as (eigvals & eigvecs & h & lams & Hret & [hz ->] & Htake & -> & Hcols).
  split.
  { rewrite length_map. unfold Dense.columns in Hcols. unfold Dense.take in Htake.
    apply map_result_length in Hcols, Htake. congruence. }
  assert (Hne : eigvecs <> []).
  { destruct Hret as [(A & sigma & E) | (A & erange & E)];
      [exact (Heigs _ _ _ _ _ _ E) | exact (Hfeast _ _ _ _ _ E)]. }
  intros mode Hin.
  unfold Dense.columns in Hcols.
  destruct (map_result_In _ _ _ _ Hcols Hin) as (j & _ & Hcol).
  assert (Hnn : FDFD.normalise (SimGrid.dtype_of (FDFD.sim self))
                  (eigvecs ++ hz) <> []).
  { intros E. apply (f_equal (@length _)) in E.
    rewrite normalise_length, length_app in E.
    destruct eigvecs; [congruence|]. simpl in E. lia. }
  destruct (column_first _ _ _ Hnn Hcol) as (z & Hz).
  exists z. split; [exact Hz|].
  destruct (column_head _ _ _ _ Hcol Hz) as (row & Hrow & Hj).
  destruct (normalise_head _ _ _ _ _ Hrow Hj) as (w & ->).
  destruct (SimGrid.dtype_of (FDFD.sim self)).
  - apply normalised_sign.
  - apply normalised_phase.
Qed.

(** The theorem on the grid of [wgm_two_cells_eigenpairs], the solver
    returning its eigenvectors with the sign of the first reversed: two
    modes come back, and each begins with an entry of phase 0. *)
Lemma FDFD_wgm_solve_normalised_witness :
  exists sg et betas modes,
    SimGrid.init [2] (Grid.SpacingFloat 1) (Grid.EpsFloat 1)
      (SimGrid.BlochFloat 0) None 1 1 = Ok sg /\
    SimGrid.eps_t_body sg = Ok et /\
    FDFD.wgm_solve
      (fun _ _ _ _ => inr ([mkC 4 0; mkC 0 0],
                           [[Cneg Cone; Cone]; [Cneg Cone; Cneg Cone]]))
      (fun _ _ _ => inl "not called")
      (FDFD.mk sg PI) et 2 None 1
    = Ok (betas, modes) /\
    length modes = 2 /\
    length modes = length betas /\
    forall mode, In mode modes ->
      exists z, mode !! 0 = Some z /\
        match SimGrid.dtype_of sg with
        | SimGrid.complex128 => np_angle z = 0%R
        | SimGrid.float64 => np_sign z = Czero \/ np_sign z = Cone
        end.
Proof.
  eexists. eexists. eexists. eexists.
  split; [apply SimGrid_init_float; [simpl; lia | lra]|]. split.
  { vm_compute. reflexivity. }
  match goal with
  | |- FDFD.wgm_solve ?e ?f ?self ?et ?n ?bg ?tol = _ /\ _ =>
      eassert (Hcall : FDFD.wgm_solve e f self et n bg tol = Ok (_, _))
  end.
  { erewrite wgm_solve_1d_eval;
      [ | vm_compute; reflexivity | reflexivity | apply k0_pi
        | vm_compute; reflexivity
        | unfold FDFD.wgm; rewrite k0_pi;
          cbv - [Rplus Rmult Ropp Rinv Rminus Rdiv IZR PI]; reflexivity
        | intros; reflexivity ].
    cbv zeta. cbn [map Re].
    rewrite !np_sqrt_nonneg by lra.
    unfold Dense.argsort. cbn [length seq fold_left Dense.insert_idx nth].
    cbn [Dense.key_lt].
    rewrite (sqrt_eq 4 2), (sqrt_eq 0 0) by lra.
    rewrite (Rltb_lt 0 2) by lra.
    cbn [rev app Dense.take map_result lookup list_lookup mbind result_bind].
    cbn [FDFD.sim SimGrid.dtype_of].
    unfold FDFD.normalise, Dense.mul_row, Dense.columns, Dense.column.
    cbn [firstn map zip_with map_result lookup list_lookup mbind result_bind].
    reflexivity. }
  split; [exact Hcall|]. split; [reflexivity|].
  refine (FDFD_wgm_solve_normalised _ _ _ _ _ _ _ _ _ _ _ Hcall).
  - intros ? ? ? ? ? ? [= _ <-]. discriminate.
  - intros ? ? ? ? ? [=].
Defined.

(** ** The branches of [FDFD.solve] *)

Lemma rbind_ret {A B} (a : A) (k : A -> result B) : (Ok a ≫= k) = k a.
Proof. reflexivity. Qed.

(** [k0] at a wavelength that is a non-zero literal. *)
Ltac eval_k0 :=
  rewrite !k0_ok by (cbn [FDFD.wavelength]; first [lra | apply PI_neq0]);
  rewrite ?rbind_ret.

(** X3.  [solve] never calls gmres, and [iterative] matters only through
    whether it is [-1]: the test [iterative == 1] that would choose gmres
    sits under [iterative == -1], so any other value, [1] included, takes the
    direct solver. *)
Theorem FDFD_solve_never_calls_gmres
    (spsolve_pardiso : Sp.spmatrix -> list C -> string + list C)
    (Precond : Type) (spilu : Sp.spmatrix -> string + Precond)
    (gmres gmres' bicgstab :
       Sp.spmatrix -> list C -> Precond -> string + (list C * Z))
    (self : FDFD.t) (eps_t : ndarray R) (src : ndarray C)
    (solver_fn : option (Sp.spmatrix -> list C -> string + list C))
    (reshaped : bool) :
  (forall iterative,
     FDFD.solve spsolve_pardiso Precond spilu gmres bicgstab
       self eps_t src solver_fn reshaped iterative
     = FDFD.solve spsolve_pardiso Precond spilu gmres' bicgstab
         self eps_t src solver_fn reshaped iterative) /\
  (forall iterative iterative',
     iterative <> (-1)%Z -> iterative' <> (-1)%Z ->
     FDFD.solve spsolve_pardiso Precond spilu gmres bicgstab
       self eps_t src solver_fn reshaped iterative
     = FDFD.solve spsolve_pardiso Precond spilu gmres bicgstab
         self eps_t src solver_fn reshaped iterative').
Proof.
  split.
  - intros iterative. unfold FDFD.solve.
    destruct (iterative =? -1)%Z eqn:E; [|reflexivity].
    apply Z.eqb_eq in E. subst iterative. reflexivity.
  - intros it it' H H'. unfold FDFD.solve.
    apply Z.eqb_neq in H, H'. now rewrite H, H'.
Qed.

(** X4.  For a source of [n] elements (the z component alone; [n] not 0)
    [solve] returns the zero x and y components followed by what the solver
    returned.  With [reshaped=False] this is the stacked array of shape
    [(3, len(hz))]; with [reshaped=True] it is the flat vector of these
    [3 * len(hz)] elements, since [Grid.reshape] flattens whatever is not
    one-dimensional. *)
Theorem FDFD_solve_z_source
    (spsolve_pardiso : Sp.spmatrix -> list C -> string + list C)
    (Precond : Type) (spilu : Sp.spmatrix -> string + Precond)
    (gmres bicgstab :
       Sp.spmatrix -> list C -> Precond -> string + (list C * Z))
    (self : FDFD.t) (eps_t : ndarray R) (src : ndarray C)
    (solver_fn : option (Sp.spmatrix -> list C -> string + list C))
    (iterative : Z) (A : Sp.spmatrix) (k : R) (hz : list C) :
  Np.size src = FDFD.n self -> FDFD.n self <> 0 ->
  FDFD.matz self eps_t = Ok A ->
  FDFD.k0 self = Ok k ->
  (let b := map (Cmul (RtoC k)) (data src) in
   match solver_fn with
   | Some f => f A b
   | None => spsolve_pardiso A b
   end = inr hz) ->
  let o := repeat Czero (length hz) in
  FDFD.solve spsolve_pardiso Precond spilu gmres bicgstab
    self eps_t src solver_fn false iterative
  = Ok (FDFD.Field (mk_ndarray [3; length hz] (o ++ o ++ hz))) /\
  FDFD.solve spsolve_pardiso Precond spilu gmres bicgstab
    self eps_t src solver_fn true iterative
  = Ok (FDFD.Field (of_list (o ++ o ++ hz))).
Proof.
  intros Hsize Hn HA Hk Hsol o. cbv zeta in Hsol.
  assert (Ho : map (fun _ : C => Czero) hz = o).
  { subst o. clear. induction hz; simpl; congruence. }
  unfold FDFD.solve. rewrite Hk, !rbind_ret.
  cbn [flatten of_list data]. rewrite length_map.
  fold (Np.size src). rewrite Hsize.
  replace (FDFD.n self =? FDFD.n self * 3) with false
    by (symmetry; apply Nat.eqb_neq; lia).
  rewrite Nat.eqb_refl, HA. unfold mbind, result_bind.
  rewrite Hsol. cbn [FDFD.call_ext]. rewrite Ho.
  split; [reflexivity|].
  unfold Grid.reshape, Np.ndim. cbn [shape length Nat.eqb flatten data].
  reflexivity.
Qed.

Lemma FDFD_solve_z_source_witness :
  exists sg et A,
    SimGrid.init [2] (Grid.SpacingFloat 1) (Grid.EpsFloat 1)
      (SimGrid.BlochFloat 0) None 1 1 = Ok sg /\
    SimGrid.eps_t_body sg = Ok et /\
    FDFD.matz (FDFD.mk sg 1) et = Ok A /\
    let solve :=
      FDFD.solve (fun _ _ => inl "not called") unit
        (fun _ => inl "not called") (fun _ _ _ => inl "not called")
        (fun _ _ _ => inl "not called") (FDFD.mk sg 1) et
        (of_list [Cone; Cone]) (Some (fun _ _ => inr [Ci; Cone])) in
    solve false 0%Z
    = Ok (FDFD.Field (mk_ndarray [3; 2]
                        [Czero; Czero; Czero; Czero; Ci; Cone])) /\
    solve true 0%Z
    = Ok (FDFD.Field (of_list [Czero; Czero; Czero; Czero; Ci; Cone])).
Proof.
  assert (Hsg := SimGrid_init_float [2] 1 1 1 1
                   ltac:(simpl; lia) ltac:(lra)).
  eexists. eexists. eexists.
  split; [exact Hsg|].
  split; [vm_compute; reflexivity|].
  split; [unfold FDFD.matz; eval_k0; vm_compute; reflexivity|].
  cbv zeta.
  eapply (FDFD_solve_z_source (fun _ _ => inl "not called") unit
            (fun _ => inl "not called") (fun _ _ _ => inl "not called")
            (fun _ _ _ => inl "not called") _ _ (of_list [Cone; Cone])
            (Some (fun _ _ => inr [Ci; Cone])) 0%Z _ _ [Ci; Cone]);
    [ reflexivity | vm_compute; lia
    | unfold FDFD.matz; eval_k0; vm_compute; reflexivity
    | eval_k0; reflexivity | reflexivity ].
Defined.

(** ** [Grid.reshape] on one-dimensional arrays *)

(** X5.  On a one-dimensional array [Grid.reshape] returns an array exactly
    when the array has [3 n] elements, [n] the number of cells; for any other
    size it raises [ValueError] (from [np.split] or from [reshape]). *)
Theorem Grid_reshape_vector_size {A} (sh : list nat) (sp : Grid.spacing_arg)
    (e : Grid.eps_arg) (g : Grid.t) (v : ndarray A) :
  Grid.init sh sp e = Ok g ->
  Np.ndim v = 1 ->
  (Np.size v = 3 * Grid.n g -> is_ok (Grid.reshape g v)) /\
  (Np.size v <> 3 * Grid.n g ->
   exists msg, Grid.reshape g v = Raise (ValueError msg)).
Proof.
  intros Hg Hnd.
  destruct (Grid_init_inv _ _ _ _ Hg) as (_ & _ & _ & H3 & Hn & _).
  assert (Hp : prod (Grid.shape3 g) = Grid.n g)
    by (rewrite H3, prod_app_ones; lia).
  assert (Hv : Grid.reshape g v = Grid.reshape g (of_list (data v))).
  { unfold Grid.reshape. rewrite Hnd. reflexivity. }
  split.
  - intros Hs. rewrite Hv, Grid_reshape_flat by (unfold size in Hs; lia).
    unfold is_ok. eauto.
  - intros Hs. unfold Grid.reshape. rewrite Hnd. cbn [Nat.eqb].
    unfold Np.split. destruct (size v mod 3 =? 0) eqn:Em; [|simpl; eauto].
    apply Nat.eqb_eq in Em. cbn [mbind result_bind].
    assert (Hdiv : size v = 3 * (size v / 3)).
    { pose proof (Nat.div_mod_eq (size v) 3). lia. }
    assert (Hne : size v / 3 <> prod (Grid.shape3 g)) by lia.
    unfold chunks. cbn [map map_result].
    assert (Hf : length (firstn (size v / 3) (data v)) = size v / 3).
    { rewrite length_firstn. unfold size in *. lia. }
    assert (Hr : Np.reshape (of_list (firstn (size v / 3) (data v)))
                   (Grid.shape3 g)
                 = Raise (ValueError "cannot reshape array")).
    { unfold Np.reshape, size in *. cbn [data of_list]. rewrite Hf.
      replace (prod (Grid.shape3 g) =? length (data v) / 3) with false
        by (symmetry; apply Nat.eqb_neq; lia).
      reflexivity. }
    rewrite Hr. simpl. eauto.
Qed.

Lemma Grid_reshape_vector_size_witness :
  exists g,
    Grid.init [2; 3] (Grid.SpacingFloat 1) (Grid.EpsFloat 1) = Ok g /\
    is_ok (Grid.reshape g (of_list (seq 0 18))) /\
    exists msg, Grid.reshape g (of_list (seq 0 12)) = Raise (ValueError msg).
Proof.
  assert (Hg := Grid_init_float [2; 3] 1 1 ltac:(simpl; lia) ltac:(lra)).
  eexists. split; [exact Hg|]. split.
  - apply (Grid_reshape_vector_size [2; 3] (Grid.SpacingFloat 1)
             (Grid.EpsFloat 1) _ (of_list (seq 0 18)) Hg eq_refl).
    reflexivity.
  - apply (Grid_reshape_vector_size [2; 3] (Grid.SpacingFloat 1)
             (Grid.EpsFloat 1) _ (of_list (seq 0 12)) Hg eq_refl).
    vm_compute. lia.
Defined.

(** ** The derivative operators under a Bloch phase *)

(** X6.  The adjoint relation of the derivative operators does not need a
    zero Bloch phase: on every grid built without PML, whatever the Bloch
    phases, the backward operator of each axis is minus the conjugate
    transpose of the forward one, and both lists of three operators are
    built whenever no axis of the grid is empty. *)
Theorem SimGrid_deriv_adjoint_bloch (sh : list nat) (sp : Grid.spacing_arg)
    (e : Grid.eps_arg) (bp : SimGrid.bloch_arg) (pe : R) (ya : Z)
    (sg : SimGrid.t) :
  SimGrid.init sh sp e bp None pe ya = Ok sg ->
  (Forall (fun n => 0 < n) sh ->
   is_ok (SimGrid.df sg) /\ is_ok (SimGrid.db sg)) /\
  (forall df db,
     SimGrid.df sg = Ok df -> SimGrid.db sg = Ok db ->
     length df = 3 /\ length db = 3 /\
     Forall2 (fun b f => Sp.meq b (Sp.neg (Sp.adjoint f))) db df).
Proof.
  intros Hinit.
  destruct (SimGrid_init_no_pml_inv _ _ _ _ _ _ _ Hinit)
    as (g & Hg & Hgrid & _ & Hblen & _ & Hdx).
  destruct (Grid_init_inv _ _ _ _ Hg) as (Hsh & Hnd & Hrange & _).
  destruct (Grid_init_cell_sizes _ _ _ _ Hg)
    as (s0 & s1 & s2 & a0 & a1 & a2 & Hs & Hcs).
  rewrite Hcs, meshgrid_uniform in Hdx.
  unfold map1 in Hdx. cbn [map shape data] in Hdx.
  rewrite !map_repeat in Hdx.
  destruct (list_length_3 (SimGrid.bloch sg ++ repeat Cone (3 - length sh)))
    as (b0 & b1 & b2 & Hb).
  { rewrite length_app, repeat_length. lia. }
  assert (Hs' : Grid.shape (SimGrid.grid sg)
                ++ repeat 1 (3 - Grid.ndim (SimGrid.grid sg)) = [s0; s1; s2])
    by (rewrite Hgrid, Hsh, Hnd; exact Hs).
  assert (Hb' : SimGrid.bloch sg
                ++ repeat Cone (3 - Grid.ndim (SimGrid.grid sg)) = [b0; b1; b2])
    by (rewrite Hgrid, Hnd; exact Hb).
  destruct (deriv_uniform_adjoint sg s0 s1 s2 b0 b1 b2 a0 a1 a2 Hs' Hb' Hdx)
    as [Hok Hadj].
  unfold SimGrid.df, SimGrid.db. split.
  - intros Hpos.
    assert (Hall : Forall (fun n => 0 < n) [s0; s1; s2]).
    { rewrite <- Hs. apply Forall_app. split; [assumption|].
      apply Forall_forall. intros x Hx. apply repeat_spec in Hx. lia. }
    inversion Hall as [|? ? Hp0 Hall']. inversion Hall' as [|? ? Hp1 Hall''].
    inversion Hall'' as [|? ? Hp2 _]. now apply Hok.
  - intros df db Hf Hbk.
    specialize (Hadj df db Hf Hbk).
    assert (Hlen : length df = 3).
    { rewrite (deriv_uniform sg false _ _ _ _ _ _ _ _ _ Hs' Hb' Hdx) in Hf.
      cbn [map_result] in Hf. unfold mbind, result_bind in Hf.
      repeat match type of Hf with
             | context [Sp.matmul ?x ?y] =>
                 destruct (Sp.matmul x y); [|discriminate]
             end.
      now injection Hf as <-. }
    split; [exact Hlen|]. split; [|exact Hadj].
    apply Forall2_length in Hadj. lia.
Qed.

Lemma SimGrid_deriv_adjoint_bloch_witness :
  exists sg,
    SimGrid.init [3; 2] (Grid.SpacingFloat (1 / 2)) (Grid.EpsFloat 1)
      (SimGrid.BlochSeq [1; 2]%R) None 1 1 = Ok sg /\
    (is_ok (SimGrid.df sg) /\ is_ok (SimGrid.db sg)) /\
    (forall df db,
       SimGrid.df sg = Ok df -> SimGrid.db sg = Ok db ->
       length df = 3 /\ length db = 3 /\
       Forall2 (fun b f => Sp.meq b (Sp.neg (Sp.adjoint f))) db df).
Proof.
  assert (Hsg : exists sg,
             SimGrid.init [3; 2] (Grid.SpacingFloat (1 / 2)) (Grid.EpsFloat 1)
               (SimGrid.BlochSeq [1; 2]%R) None 1 1 = Ok sg).
  { unfold SimGrid.init.
    rewrite Grid_init_float by (simpl; lia || lra).
    eexists. reflexivity. }
  destruct Hsg as [sg Hsg]. exists sg. split; [exact Hsg|].
  destruct (SimGrid_deriv_adjoint_bloch [3; 2] (Grid.SpacingFloat (1 / 2))
              (Grid.EpsFloat 1) (SimGrid.BlochSeq [1; 2]%R) 1 1 _ Hsg)
    as [Hok Hadj].
  split; [|exact Hadj].
  apply Hok. repeat constructor.
Defined.

(** ** The Bloch factors of a [SimGrid] *)

Lemma bloch_factor_abs (phase : R) : Cabs (SimGrid.bloch_factor phase) = 1%R.
Proof.
  unfold SimGrid.bloch_factor, np_exp, Cabs, Cmul, Ci, RtoC. cbn [Re Im].
  replace (0 * phase - 1 * 0)%R with 0%R by ring.
  replace (0 * 0 + 1 * phase)%R with phase by ring.
  rewrite exp_0. apply sqrt_eq; [lra|].
  pose proof (sin2_cos2 phase) as H. unfold Rsqr in H. nra.
Qed.

(** X7.  After [SimGrid.__init__] every entry of [bloch] is a phase factor
    of modulus 1, one per axis of the grid; it is the number 1 on every axis
    whose Bloch phase is 0. *)
Theorem SimGrid_init_bloch_unit (sh : list nat) (sp : Grid.spacing_arg)
    (e : Grid.eps_arg) (bp : SimGrid.bloch_arg) (pml : option SimGrid.pml_arg)
    (pe : R) (ya : Z) (sg : SimGrid.t) :
  SimGrid.init sh sp e bp pml pe ya = Ok sg ->
  length (SimGrid.bloch sg) = length sh /\
  Forall (fun b => Cabs b = 1%R) (SimGrid.bloch sg) /\
  (SimGrid.bloch_phase_zero bp ->
   Forall (fun b => b = Cone) (SimGrid.bloch sg)).
Proof.
  unfold SimGrid.init. intros H.
  apply rbind_ok in H as (g & Hg & H).
  apply rbind_ok in H as (ps & _ & H).
  destruct (Grid_init_inv _ _ _ _ Hg) as (Hsh & Hnd & _).
  destruct (match ps with Some _ => _ | None => _ end); [discriminate|].
  destruct (negb (length _ =? length (Grid.shape g))) eqn:Hlen; [discriminate|].
  injection H as <-. cbn [SimGrid.bloch].
  apply negb_false_iff, Nat.eqb_eq in Hlen. rewrite Hsh in Hlen.
  split; [exact Hlen|]. split.
  - destruct bp as [phase|phases].
    + apply Forall_forall. intros b Hb. apply repeat_spec in Hb. subst b.
      apply bloch_factor_abs.
    + apply Forall_forall. intros b Hb. apply in_map_iff in Hb as (p & <- & _).
      apply bloch_factor_abs.
  - destruct bp as [phase|phases]; simpl.
    + intros ->. apply Forall_forall. intros b Hb. apply repeat_spec in Hb.
      subst b. apply bloch_factor_0.
    + intros Hz. apply Forall_forall. intros b Hb.
      apply in_map_iff in Hb as (p & <- & Hp).
      rewrite Forall_forall in Hz. rewrite (Hz p Hp). apply bloch_factor_0.
Qed.

Lemma SimGrid_init_bloch_unit_witness :
  exists sg,
    SimGrid.init [3; 2] (Grid.SpacingFloat (1 / 2)) (Grid.EpsFloat 1)
      (SimGrid.BlochSeq [1; 0]%R) None 1 1 = Ok sg /\
    length (SimGrid.bloch sg) = 2 /\
    Forall (fun b => Cabs b = 1%R) (SimGrid.bloch sg).
Proof.
  assert (Hsg : exists sg,
             SimGrid.init [3; 2] (Grid.SpacingFloat (1 / 2)) (Grid.EpsFloat 1)
               (SimGrid.BlochSeq [1; 0]%R) None 1 1 = Ok sg).
  { unfold SimGrid.init.
    rewrite Grid_init_float by (simpl; lia || lra).
    eexists. reflexivity. }
  destruct Hsg as [sg Hsg]. exists sg. split; [exact Hsg|].
  destruct (SimGrid_init_bloch_unit _ _ _ _ _ _ _ _ Hsg) as (Hl & Hu & _).
  split; [exact Hl | exact Hu].
Defined.

(** ** The grid copied into a [Modes] result *)



(** ** [np.roll] keeps the size of an array *)

Lemma prod_split (s : list nat) (ax : nat) :
  ax < length s ->
  prod s = prod (firstn ax s) * (nth ax s 1 * prod (skipn (S ax) s)).
Proof.
  revert ax. induction s as [|x s IH]; intros ax Hax; simpl in Hax; [lia|].
  destruct ax as [|ax].
  - unfold prod. simpl. rewrite drop_0. lia.
  - change (prod (x :: s)) with (x * prod s).
    rewrite (IH ax) by lia.
    change (firstn (S ax) (x :: s)) with (x :: firstn ax s).
    change (prod (x :: firstn ax s)) with (x * prod (firstn ax s)).
    change (nth (S ax) (x :: s) 1) with (nth ax s 1).
    change (skipn (S (S ax)) (x :: s)) with (skipn (S ax) s).
    lia.
Qed.

(** The position an element is rolled from lies inside the array. *)
Lemma roll_src_lt (s : list nat) (ax p c' : nat) :
  ax < length s -> p < prod s -> c' < nth ax s 1 ->
  p - coord s ax p * stride s ax + c' * stride s ax < prod s.
Proof.
  intros Hax Hp Hc. unfold coord, stride.
  rewrite (prod_split s ax Hax) in *.
  set (P := prod (firstn ax s)) in *.
  set (len := nth ax s 1) in *.
  set (st := prod (skipn (S ax) s)) in *.
  assert (Hst : st <> 0) by (intros E; rewrite E in Hp; lia).
  assert (Hlen : len <> 0) by lia.
  pose proof (Nat.div_mod_eq p st) as Hq.
  pose proof (Nat.mod_upper_bound p st Hst) as Hr.
  set (q := p / st) in *. set (r := p mod st) in *.
  pose proof (Nat.div_mod_eq q len) as Hqh.
  pose proof (Nat.mod_upper_bound q len Hlen) as Hcq.
  set (qh := q / len) in *. set (c := q mod len) in *.
  assert (HqP : q < P * len).
  { apply Nat.Div0.div_lt_upper_bound. lia. }
  assert (HqhP : qh < P).
  { apply Nat.Div0.div_lt_upper_bound. lia. }
  assert (Hsub : p - c * st = st * (len * qh) + r) by nia.
  rewrite Hsub.
  assert (H1 : c' * st + st <= len * st) by nia.
  assert (H2 : st * (len * qh) + len * st <= P * (len * st)).
  { replace (st * (len * qh) + len * st) with ((qh + 1) * (len * st)) by lia.
    apply Nat.mul_le_mono_r. lia. }
  lia.
Qed.

Lemma flat_map_lookup_map {A} (l : list A) (f : nat -> nat) (N : nat) (d : A) :
  (forall p, p < N -> f p < length l) ->
  flat_map (fun p => option_list (l !! f p)) (seq 0 N)
  = map (fun p => nth (f p) l d) (seq 0 N).
Proof.
  intros Hf.
  assert (H : forall k b, (forall p, b <= p < b + k -> f p < length l) ->
              flat_map (fun p => option_list (l !! f p)) (seq b k)
              = map (fun p => nth (f p) l d) (seq b k)).
  { induction k as [|k IH]; intros b Hb; simpl; [reflexivity|].
    rewrite IH by (intros; apply Hb; lia).
    destruct (lookup_lt_is_Some_2 l (f b) (Hb b ltac:(lia))) as [x Hx].
    rewrite Hx. simpl. f_equal. symmetry. now apply nth_lookup_Some. }
  apply H. intros p Hp. apply Hf. lia.
Qed.

Lemma roll_data {A} (a : ndarray A) (shift : Z) (ax : nat) (d : A) :
  Np.wf a -> ax < Np.ndim a ->
  data (roll a shift ax)
  = map (fun p =>
           nth (p - coord (shape a) ax p * stride (shape a) ax
                + Z.to_nat ((Z.of_nat (coord (shape a) ax p) - shift)
                            mod Z.of_nat (nth ax (shape a) 1))
                  * stride (shape a) ax)
               (data a) d)
        (seq 0 (size a)).
Proof.
  intros Hwf Hax. unfold roll. cbn [data].
  apply flat_map_lookup_map. intros p Hp.
  unfold wf, size in *. rewrite Hwf in *.
  apply roll_src_lt; [exact Hax | exact Hp |].
  assert (Hlen : nth ax (shape a) 1 <> 0).
  { intros Hz. rewrite (prod_zero_axis _ _ Hax Hz) in Hp. lia. }
  pose proof (Z.mod_pos_bound
                (Z.of_nat (coord (shape a) ax p) - shift)
                (Z.of_nat (nth ax (shape a) 1)) ltac:(lia)).
  lia.
Qed.

Lemma roll_wf {A} (a : ndarray A) (shift : Z) (ax : nat) :
  Np.wf a -> ax < Np.ndim a ->
  Np.wf (roll a shift ax) /\ shape (roll a shift ax) = shape a.
Proof.
  intros Hwf Hax. split; [|reflexivity].
  destruct (data a) as [|d l] eqn:Ed.
  - unfold wf, roll, size in *. rewrite Ed in *. simpl in *. exact Hwf.
  - unfold wf. rewrite (roll_data a shift ax d Hwf Hax).
    rewrite length_map, length_seq. exact Hwf.
Qed.

Lemma roll_flat_data {A} (a : ndarray A) (shift : Z) (d : A) :
  data (roll_flat a shift)
  = map (fun p => nth (Z.to_nat ((Z.of_nat p - shift) mod Z.of_nat (size a)))
                      (data a) d)
        (seq 0 (size a)).
Proof.
  unfold roll_flat. cbn [data]. apply flat_map_lookup_map. intros p Hp.
  unfold size in *.
  pose proof (Z.mod_pos_bound (Z.of_nat p - shift)
                (Z.of_nat (length (data a))) ltac:(lia)).
  lia.
Qed.

Lemma roll_flat_size {A} (a : ndarray A) (shift : Z) :
  size (roll_flat a shift) = size a.
Proof.
  destruct (data a) as [|d l] eqn:Ed.
  - unfold roll_flat, size. rewrite Ed. reflexivity.
  - unfold size at 1. rewrite (roll_flat_data a shift d).
    now rewrite length_map, length_seq.
Qed.

(** ** The shape of the Yee-averaged permittivity *)

Lemma map1_wf {A B} (f : A -> B) (a : ndarray A) :
  Np.wf a -> Np.wf (map1 f a).
Proof. unfold wf, map1. cbn [data shape]. now rewrite length_map. Qed.

Lemma map2_wf {A B D} (f : A -> B -> D) (a : ndarray A) (b : ndarray B) :
  Np.wf a -> Np.wf b -> shape b = shape a -> Np.wf (map2 f a b).
Proof.
  unfold wf, map2. cbn [data shape]. intros Ha Hb Hs.
  rewrite length_zip_with. rewrite Hs in Hb. lia.
Qed.

Lemma prod_snoc_1 (s : list nat) : prod (s ++ [1]) = prod s.
Proof. apply (prod_app_ones s 1). Qed.

Lemma stack3_wf {A} (p q r : ndarray A) :
  Np.wf p -> Np.wf q -> Np.wf r -> shape q = shape p -> shape r = shape p ->
  exists a, stack [p; q; r] = Ok a /\ Np.wf a /\ shape a = 3 :: shape p /\
            data a = data p ++ data q ++ data r.
Proof.
  intros Hp Hq Hr Hsq Hsr. unfold stack. cbn [forallb]. unfold list_eqb.
  rewrite Hsq, Hsr, !bool_decide_eq_true_2 by reflexivity. cbn [andb].
  eexists. split; [reflexivity|]. split; [|split].
  - unfold wf in *. cbn [data shape map concat length].
    rewrite app_nil_r, !length_app, Hp, Hq, Hr, Hsq, Hsr.
    change (prod (3 :: shape p)) with (3 * prod (shape p)). lia.
  - reflexivity.
  - cbn [data map concat]. now rewrite app_nil_r.
Qed.

(** What [yee_avg] returns on an array of one to three dimensions. *)
Lemma yee_avg_wf (params : ndarray R) (shift : Z) :
  Np.wf params -> 1 <= Np.ndim params <= 3 ->
  exists et,
    Utils.yee_avg params shift = Ok et /\ Np.wf et /\
    shape et = 3 :: (if Np.ndim params =? 2 then shape params ++ [1]
                     else shape params).
Proof.
  intros Hwf Hnd. unfold Utils.yee_avg.
  destruct (Np.ndim params =? 1) eqn:E1.
  - apply Nat.eqb_eq in E1. rewrite E1. cbn [Nat.eqb].
    set (p := map1 _ _).
    assert (Hp : Np.wf p /\ shape p = shape params).
    { split; [|reflexivity]. subst p. unfold wf, map1, map2. cbn [data shape].
      rewrite length_map, !length_zip_with.
      fold (size (roll_flat params shift)). fold (size (roll_flat params (- shift))).
      rewrite !roll_flat_size. unfold wf, size in *. lia. }
    destruct Hp as [Hp Hs].
    destruct (stack3_wf p p p Hp Hp Hp eq_refl eq_refl) as (a & Ha & Hwa & Hsa & _).
    exists a. rewrite Hs in Hsa. auto.
  - apply Nat.eqb_neq in E1.
    set (p := if Np.ndim params =? 2 then newaxis_last params else params).
    assert (Hp : Np.wf p /\ 2 <= Np.ndim p /\
                 shape p = if Np.ndim params =? 2 then shape params ++ [1]
                           else shape params).
    { subst p. destruct (Np.ndim params =? 2) eqn:E2.
      - unfold wf, newaxis_last, Np.ndim in *. cbn [data shape].
        rewrite prod_snoc_1, length_app. simpl. repeat split; auto. lia.
      - apply Nat.eqb_neq in E2. repeat split; auto. lia. }
    destruct Hp as (Hp & Hnp & Hsp).
    set (p_x := map1 _ (map2 Rplus p (roll p shift 1))).
    set (p_y := map1 _ (map2 Rplus p (roll p shift 0))).
    set (p_z := map1 _ (map2 Rplus p_y (roll p_y shift 1))).
    assert (Hx : Np.wf p_x /\ shape p_x = shape p).
    { split; [|reflexivity]. apply map1_wf, map2_wf; auto;
        apply roll_wf; auto; lia. }
    assert (Hy : Np.wf p_y /\ shape p_y = shape p).
    { split; [|reflexivity]. apply map1_wf, map2_wf; auto;
        apply roll_wf; auto; lia. }
    destruct Hx as [Hx Hsx]. destruct Hy as [Hy Hsy].
    assert (Hz : Np.wf p_z /\ shape p_z = shape p).
    { split; [|reflexivity]. apply map1_wf, map2_wf; auto;
        apply roll_wf; auto; try (unfold Np.ndim; rewrite Hsy; exact Hnp). }
    destruct Hz as [Hz Hsz].
    destruct (stack3_wf p_x p_y p_z Hx Hy Hz) as (a & Ha & Hwa & Hsa & _);
      [congruence | congruence |].
    exists a. rewrite Hsx, Hsp in Hsa. auto.
Qed.

(** The array that the body of [eps_t] builds on a constructed grid: well
    formed, of [3 n] values, of shape [(3, *shape)] (with a last axis of
    length 1 after Yee averaging in two dimensions). *)
Lemma eps_t_body_shape (sh : list nat) (sp : Grid.spacing_arg)
    (e : Grid.eps_arg) (bp : SimGrid.bloch_arg) (pml : option SimGrid.pml_arg)
    (pe : R) (ya : Z) (sg : SimGrid.t) :
  SimGrid.init sh sp e bp pml pe ya = Ok sg ->
  Np.wf (Grid.eps (SimGrid.grid sg)) ->
  exists et,
    SimGrid.eps_t_body sg = Ok et /\
    Np.wf et /\
    Np.size et = 3 * Grid.n (SimGrid.grid sg) /\
    shape et = 3 :: (if (length sh =? 2) && (0 <? ya)%Z then sh ++ [1]
                     else sh).
Proof.
  intros Hinit Hwf.
  assert (Hg : Grid.init sh sp e = Ok (SimGrid.grid sg) /\
               SimGrid.yee_avg sg = ya).
  { unfold SimGrid.init in Hinit.
    apply rbind_ok in Hinit as (g & Hg & H).
    apply rbind_ok in H as (ps & _ & H).
    destruct (match ps with Some _ => _ | None => _ end); [discriminate|].
    destruct (negb _); [discriminate|]. injection H as <-. auto. }
  destruct Hg as [Hg Hya].
  destruct (Grid_init_inv _ _ _ _ Hg) as (Hsh & _ & Hrange & _ & Hn & Hes & _).
  assert (Hnd : Np.ndim (Grid.eps (SimGrid.grid sg)) = length sh)
    by (unfold Np.ndim; now rewrite Hes).
  assert (Hsize : forall et : ndarray R, Np.wf et ->
            shape et = 3 :: (if (length sh =? 2) && (0 <? ya)%Z
                             then sh ++ [1] else sh) ->
            Np.size et = 3 * Grid.n (SimGrid.grid sg)).
  { intros et Hw Hs. unfold wf in Hw. unfold size. rewrite Hw, Hs, Hn.
    change (prod (3 :: ?s)) with (3 * prod s).
    destruct (_ && _); [now rewrite prod_snoc_1 | reflexivity]. }
  unfold SimGrid.eps_t_body. rewrite Hya.
  destruct (0 <? ya)%Z.
  - destruct (yee_avg_wf (Grid.eps (SimGrid.grid sg)) ya Hwf ltac:(lia))
      as (et & Het & Hw & Hs).
    rewrite Hnd, Hes in Hs. rewrite andb_true_r.
    exists et. repeat split; auto. apply Hsize; auto.
    now rewrite andb_true_r.
  - destruct (stack3_wf _ _ _ Hwf Hwf Hwf eq_refl eq_refl)
      as (et & Het & Hw & Hs & _).
    rewrite Hes in Hs. rewrite andb_false_r.
    exists et. repeat split; auto. apply Hsize; auto.
    now rewrite andb_false_r.
Qed.

(** X9.  On a grid built by [SimGrid.__init__], whose [eps] holds as many
    values as the grid has cells, reading [eps_t] returns an array of
    [3 n] values whose shape is [(3, *shape)]; with Yee averaging on a
    two-dimensional grid the shape is [(3, nx, ny, 1)]. *)
Theorem SimGrid_eps_t_shape (sh : list nat) (sp : Grid.spacing_arg)
    (e : Grid.eps_arg) (bp : SimGrid.bloch_arg) (pml : option SimGrid.pml_arg)
    (pe : R) (ya : Z) (sg : SimGrid.t) :
  SimGrid.init sh sp e bp pml pe ya = Ok sg ->
  Np.wf (Grid.eps (SimGrid.grid sg)) ->
  exists et,
    SimGrid.eps_t_body sg = Ok et /\
    Np.wf et /\
    Np.size et = 3 * Grid.n (SimGrid.grid sg) /\
    shape et = 3 :: (if (length sh =? 2) && (0 <? ya)%Z then sh ++ [1]
                     else sh).
Proof.
  intros Hinit Hwf.
  destruct (eps_t_body_shape _ _ _ _ _ _ _ _ Hinit Hwf)
    as (et & Het & Hw & Hs & Hsh).
  exists et. repeat split; assumption.
Qed.

Lemma SimGrid_eps_t_shape_witness :
  exists sg et,
    SimGrid.init [2; 3] (Grid.SpacingFloat 1) (Grid.EpsFloat 1)
      (SimGrid.BlochFloat 0) None 1 1 = Ok sg /\
    SimGrid.eps_t_body sg = Ok et /\
    Np.wf et /\ Np.size et = 18 /\ shape et = [3; 2; 3; 1].
Proof.
  assert (Hsg := SimGrid_init_float [2; 3] 1 1 1 1
                   ltac:(simpl; lia) ltac:(lra)).
  cbv zeta in Hsg.
  destruct (SimGrid_eps_t_shape _ _ _ _ _ _ _ _ Hsg eq_refl)
    as (et & Het & Hw & Hs & Hsh).
  eexists. exists et. split; [exact Hsg|].
  split; [exact Het|]. split; [exact Hw|]. split; [exact Hs | exact Hsh].
Defined.

(** ** A uniform permittivity *)

Lemma full_wf {A} (s : list nat) (x : A) : Np.wf (full s x).
Proof. unfold wf, full. cbn [data shape]. apply repeat_length. Qed.

Lemma map_const_seq {A} (x : A) (b N : nat) :
  map (fun _ => x) (seq b N) = repeat x N.
Proof.
  revert b. induction N as [|N IH]; intros b; simpl; [reflexivity|].
  now rewrite IH.
Qed.

Lemma map_seq_ext {A} (f g : nat -> A) (N : nat) :
  (forall p, p < N -> f p = g p) -> map f (seq 0 N) = map g (seq 0 N).
Proof.
  intros H. apply map_ext_in. intros p Hp. apply in_seq in Hp. apply H. lia.
Qed.

Lemma roll_full {A} (s : list nat) (x : A) (shift : Z) (ax : nat) :
  ax < length s -> roll (full s x) shift ax = full s x.
Proof.
  intros Hax. unfold full at 2.
  assert (Hd := roll_data (full s x) shift ax x (full_wf s x) Hax).
  destruct (roll (full s x) shift ax) as [s' d'] eqn:E.
  assert (Hs : s' = s) by (unfold roll in E; now injection E as <- _).
  cbn [data] in Hd. subst s'. f_equal. rewrite Hd.
  unfold size, full. cbn [data shape]. rewrite repeat_length.
  transitivity (map (fun _ : nat => x) (seq 0 (prod s)));
    [|apply map_const_seq].
  apply map_seq_ext. intros p Hp. apply nth_repeat_lt.
  apply roll_src_lt; [exact Hax | exact Hp |].
  assert (Hlen : nth ax s 1 <> 0).
  { intros Hz. rewrite (prod_zero_axis _ _ Hax Hz) in Hp. lia. }
  pose proof (Z.mod_pos_bound (Z.of_nat (coord s ax p) - shift)
                (Z.of_nat (nth ax s 1)) ltac:(lia)).
  lia.
Qed.

Lemma roll_flat_full {A} (s : list nat) (x : A) (shift : Z) :
  roll_flat (full s x) shift = full s x.
Proof.
  unfold full at 2.
  assert (Hd := roll_flat_data (full s x) shift x).
  destruct (roll_flat (full s x) shift) as [s' d'] eqn:E.
  assert (Hs : s' = s) by (unfold roll_flat in E; now injection E as <- _).
  cbn [data] in Hd. subst s'. f_equal. rewrite Hd.
  unfold size, full. cbn [data]. rewrite repeat_length.
  transitivity (map (fun _ : nat => x) (seq 0 (prod s)));
    [|apply map_const_seq].
  apply map_seq_ext. intros p Hp. apply nth_repeat_lt.
  pose proof (Z.mod_pos_bound (Z.of_nat p - shift)
                (Z.of_nat (prod s)) ltac:(lia)).
  lia.
Qed.

Lemma zip_with_repeat {A B D} (f : A -> B -> D) (x : A) (y : B) (N : nat) :
  zip_with f (repeat x N) (repeat y N) = repeat (f x y) N.
Proof. induction N as [|N IH]; simpl; congruence. Qed.

Lemma map2_full {A B D} (f : A -> B -> D) (s : list nat) (x : A) (y : B) :
  map2 f (full s x) (full s y) = full s (f x y).
Proof. unfold map2, full. cbn [data shape]. now rewrite zip_with_repeat. Qed.

Lemma map1_full {A B} (f : A -> B) (s : list nat) (x : A) :
  map1 f (full s x) = full s (f x).
Proof. unfold map1, full. cbn [data shape]. now rewrite map_repeat. Qed.

Lemma stack3_full {A} (s : list nat) (x : A) :
  stack [full s x; full s x; full s x] = Ok (full (3 :: s) x).
Proof.
  unfold stack. cbn [forallb]. unfold list_eqb.
  rewrite !bool_decide_eq_true_2 by reflexivity. cbn [andb].
  unfold full. cbn [data shape map concat length]. f_equal. f_equal.
  rewrite app_nil_r, <- !repeat_app.
  change (prod (3 :: s)) with (3 * prod s). f_equal. lia.
Qed.

(** The body of [eps_t] on a uniform permittivity. *)
Lemma eps_t_body_full (sg : SimGrid.t) (c : R) :
  let s := shape (Grid.eps (SimGrid.grid sg)) in
  Grid.eps (SimGrid.grid sg) = full s c ->
  1 <= length s <= 3 ->
  SimGrid.eps_t_body sg
  = Ok (full (3 :: (if (length s =? 2) && (0 <? SimGrid.yee_avg sg)%Z
                    then s ++ [1] else s)) c).
Proof.
  intros s He Hnd. unfold SimGrid.eps_t_body. rewrite He.
  destruct (0 <? SimGrid.yee_avg sg)%Z; [|rewrite andb_false_r; apply stack3_full].
  rewrite andb_true_r. unfold Utils.yee_avg.
  change (Np.ndim (full s c)) with (length s).
  destruct (length s =? 1) eqn:E1.
  - apply Nat.eqb_eq in E1. rewrite E1. cbn [Nat.eqb].
    rewrite !roll_flat_full, !map2_full, map1_full.
    replace ((c + c + c) / 3)%R with c by lra. apply stack3_full.
  - apply Nat.eqb_neq in E1.
    assert (Hp : (if length s =? 2 then newaxis_last (full s c) else full s c)
                 = full (if length s =? 2 then s ++ [1] else s) c).
    { destruct (length s =? 2); [|reflexivity].
      unfold newaxis_last, full. cbn [data shape]. now rewrite prod_snoc_1. }
    rewrite Hp. set (s' := if length s =? 2 then s ++ [1] else s).
    assert (Hs' : 2 <= length s').
    { subst s'. destruct (length s =? 2) eqn:E2.
      - rewrite length_app. simpl. lia.
      - apply Nat.eqb_neq in E2. lia. }
    rewrite !roll_full, !map2_full, !map1_full by lia.
    replace ((c + c) / 2)%R with c by lra.
    rewrite !roll_full, !map2_full, !map1_full by lia.
    replace ((c + c) / 2)%R with c by lra.
    apply stack3_full.
Qed.

(** X10.  In exact arithmetic a uniform permittivity stays uniform: on a
    grid of one to three dimensions whose [eps] is the value [c] in every
    cell, [eps_t] is [c] in every cell of each of its three components,
    with or without Yee averaging and whatever the shift.  (In binary64 the
    one-dimensional average [(c + c + c) / 3] can differ from [c] in the
    last place.) *)
Theorem SimGrid_eps_t_uniform (sg : SimGrid.t) (c : R) :
  let s := shape (Grid.eps (SimGrid.grid sg)) in
  Grid.eps (SimGrid.grid sg) = full s c ->
  1 <= length s <= 3 ->
  SimGrid.eps_t_body sg
  = Ok (full (3 :: (if (length s =? 2) && (0 <? SimGrid.yee_avg sg)%Z
                    then s ++ [1] else s)) c).
Proof.
  intros s He Hnd. subst s.
  rewrite (eps_t_body_full sg c He Hnd). reflexivity.
Qed.

Lemma SimGrid_eps_t_uniform_witness :
  exists sg,
    SimGrid.init [2; 3] (Grid.SpacingFloat 1) (Grid.EpsFloat 4)
      (SimGrid.BlochFloat 0) None 1 1 = Ok sg /\
    SimGrid.eps_t_body sg = Ok (full [3; 2; 3; 1] 4%R).
Proof.
  assert (Hsg := SimGrid_init_float [2; 3] 1 4 1 1
                   ltac:(simpl; lia) ltac:(lra)).
  cbv zeta in Hsg. eexists. split; [exact Hsg|].
  match goal with
  | |- SimGrid.eps_t_body ?sg = _ =>
      exact (SimGrid_eps_t_uniform sg 4%R eq_refl ltac:(simpl; lia))
  end.
Defined.

(** ** The operators are built on every constructed grid *)

(** What [SimGrid.__init__] establishes, with or without PML. *)
Lemma SimGrid_init_inv sh sp e bp pml pe ya sg :
  SimGrid.init sh sp e bp pml pe ya = Ok sg ->
  Grid.init sh sp e = Ok (SimGrid.grid sg) /\
  length (SimGrid.bloch sg) = length sh /\
  SimGrid.yee_avg sg = ya /\
  SimGrid._dxes sg
  = (map (map1 RtoC) (meshgrid (Grid.cell_sizes (SimGrid.grid sg))),
     map (map1 RtoC) (meshgrid (Grid.cell_sizes (SimGrid.grid sg)))).
Proof.
  unfold SimGrid.init. intros H.
  apply rbind_ok in H as (g & Hg & H).
  apply rbind_ok in H as (ps & _ & H).
  destruct (Grid_init_inv _ _ _ _ Hg) as (Hsh & _).
  destruct (match ps with Some _ => _ | None => _ end); [discriminate|].
  destruct (negb (length _ =? length (Grid.shape g))) eqn:Hlen; [discriminate|].
  injection H as <-. cbn [SimGrid.grid SimGrid.bloch SimGrid.yee_avg
                          SimGrid._dxes].
  apply negb_false_iff, Nat.eqb_eq in Hlen. rewrite Hsh in Hlen. auto.
Qed.

Lemma matmul_dims (A B : Sp.spmatrix) :
  Sp.ncols A = Sp.nrows B ->
  exists M, Sp.matmul A B = Ok M /\
            Sp.nrows M = Sp.nrows A /\ Sp.ncols M = Sp.ncols B.
Proof.
  intros H. unfold Sp.matmul. rewrite H, Nat.eqb_refl. eauto.
Qed.


Lemma sub_dims (A B : Sp.spmatrix) :
  Sp.nrows A = Sp.nrows B -> Sp.ncols A = Sp.ncols B ->
  exists M, Sp.sub A B = Ok M /\
            Sp.nrows M = Sp.nrows A /\ Sp.ncols M = Sp.ncols A.
Proof.
  intros Hr Hc. unfold Sp.sub. rewrite Hr, Hc, !Nat.eqb_refl. simpl. eauto.
Qed.



(** The three derivative operators of a constructed grid without empty
    axis are square, of the size of the grid. *)
Lemma deriv_dims sh sp e bp pml pe ya sg (back : bool) :
  SimGrid.init sh sp e bp pml pe ya = Ok sg ->
  Forall (fun n => 0 < n) sh ->
  exists d0 d1 d2,
    SimGrid.deriv sg back = Ok [d0; d1; d2] /\
    Forall (fun d => Sp.nrows d = prod sh /\ Sp.ncols d = prod sh) [d0; d1; d2].
Proof.
  intros Hinit Hpos.
  destruct (SimGrid_init_inv _ _ _ _ _ _ _ _ Hinit) as (Hg & Hblen & _ & Hdx).
  destruct (Grid_init_inv _ _ _ _ Hg) as (Hsh & Hnd & Hrange & _).
  destruct (Grid_init_cell_sizes _ _ _ _ Hg)
    as (s0 & s1 & s2 & a0 & a1 & a2 & Hs & Hcs).
  rewrite Hcs, meshgrid_uniform in Hdx.
  unfold map1 in Hdx. cbn [map shape data] in Hdx.
  rewrite !map_repeat in Hdx.
  destruct (list_length_3 (SimGrid.bloch sg ++ repeat Cone (3 - length sh)))
    as (b0 & b1 & b2 & Hb).
  { rewrite length_app, repeat_length. lia. }
  assert (Hs' : Grid.shape (SimGrid.grid sg)
                ++ repeat 1 (3 - Grid.ndim (SimGrid.grid sg)) = [s0; s1; s2])
    by (rewrite Hsh, Hnd; exact Hs).
  assert (Hb' : SimGrid.bloch sg
                ++ repeat Cone (3 - Grid.ndim (SimGrid.grid sg)) = [b0; b1; b2])
    by (rewrite Hnd; exact Hb).
  assert (Hall : Forall (fun n => 0 < n) [s0; s1; s2]).
  { rewrite <- Hs. apply Forall_app. split; [assumption|].
    apply Forall_forall. intros x Hx. apply repeat_spec in Hx. lia. }
  inversion Hall as [|? ? Hp0 Hall']. inversion Hall' as [|? ? Hp1 Hall''].
  inversion Hall'' as [|? ? Hp2 _].
  assert (HN : prod sh = s0 * (s1 * s2)).
  { rewrite <- (prod_app_ones sh (3 - length sh)), Hs. unfold prod. simpl. lia. }
  rewrite (deriv_uniform sg back _ _ _ _ _ _ _ _ _ Hs' Hb' Hdx).
  cbn [map_result fst snd].
  replace (prod [s0; s1; s2]) with (s0 * (s1 * s2))
    by (unfold prod; simpl; lia).
  destruct (matmul_dims
              (Sp.diag (repeat (RtoC (/ a0)) (s0 * (s1 * s2))))
              (Sp.kron (SimGrid.axis_op back b0 s0) (Sp.eye (s1 * s2))))
    as (d0 & -> & Hr0 & Hc0).
  { cbn [Sp.ncols Sp.nrows Sp.diag Sp.kron Sp.eye].
    now rewrite repeat_length, axis_op_rows_pos. }
  destruct (matmul_dims
              (Sp.diag (repeat (RtoC (/ a1)) (s0 * (s1 * s2))))
              (Sp.kron (Sp.kron (Sp.eye s0) (SimGrid.axis_op back b1 s1))
                       (Sp.eye s2)))
    as (d1 & -> & Hr1 & Hc1).
  { cbn [Sp.ncols Sp.nrows Sp.diag Sp.kron Sp.eye].
    rewrite repeat_length, axis_op_rows_pos by assumption. lia. }
  destruct (matmul_dims
              (Sp.diag (repeat (RtoC (/ a2)) (s0 * (s1 * s2))))
              (Sp.kron (Sp.eye (s0 * s1)) (SimGrid.axis_op back b2 s2)))
    as (d2 & -> & Hr2 & Hc2).
  { cbn [Sp.ncols Sp.nrows Sp.diag Sp.kron Sp.eye].
    rewrite repeat_length, axis_op_rows_pos by assumption. lia. }
  exists d0, d1, d2. split; [reflexivity|].
  cbn [Sp.ncols Sp.nrows Sp.diag Sp.kron Sp.eye] in *.
  rewrite repeat_length in *.
  rewrite axis_op_square, axis_op_rows_pos in Hc0, Hc1, Hc2 by assumption.
  repeat constructor; lia.
Qed.

Lemma unstack3 {A} (et : ndarray A) (s : list nat) :
  Np.wf et -> shape et = 3 :: s ->
  exists e0 e1 e2,
    unstack et = [mk_ndarray s e0; mk_ndarray s e1; mk_ndarray s e2] /\
    length e0 = prod s /\ length e1 = prod s /\ length e2 = prod s.
Proof.
  intros Hwf Hs. unfold unstack. rewrite Hs. unfold wf in Hwf.
  rewrite Hs in Hwf. change (prod (3 :: s)) with (3 * prod s) in Hwf.
  cbn [chunks map]. do 3 eexists. split; [reflexivity|].
  rewrite !length_firstn, !length_skipn. lia.
Qed.



Lemma block_length_same (N : nat) :
  Sp.block_length [N; N; N] 0 = Some N.
Proof.
  cbn [Sp.block_length Nat.eqb]. destruct (N =? 0) eqn:E.
  - apply Nat.eqb_eq in E. subst N. reflexivity.
  - now rewrite Nat.eqb_refl.
Qed.

Lemma d2curl_op_dims (d0 d1 d2 : Sp.spmatrix) (N : nat) :
  Forall (fun d => Sp.nrows d = N /\ Sp.ncols d = N) [d0; d1; d2] ->
  exists M, Utils.d2curl_op [d0; d1; d2] = Ok M /\
            Sp.nrows M = 3 * N /\ Sp.ncols M = 3 * N.
Proof.
  intros H. inversion H as [|? ? [H0r H0c] H']. inversion H' as [|? ? [H1r H1c] H''].
  inversion H'' as [|? ? [H2r H2c] _].
  unfold Utils.d2curl_op, Sp.bmat.
  cbn [length Nat.eqb forallb orb negb andb map seq flat_map lookup
       list_lookup option_list app Sp.nrows Sp.ncols Sp.zeros Sp.neg].
  unfold option_list, option_rect.
  cbn [app map Sp.nrows Sp.ncols Sp.zeros Sp.neg].
  rewrite H0r, H0c, H1r, H1c, H2r, H2c.
  cbn [Sp.block_lengths]. rewrite !block_length_same.
  eexists. split; [reflexivity|]. cbn [Sp.nrows Sp.ncols fold_right]. lia.
Qed.

(** The operators of the linear solve on a constructed grid, and their
    dimensions. *)
Lemma mat_matz_built (sh : list nat) (sp : Grid.spacing_arg)
    (e : Grid.eps_arg) (bp : SimGrid.bloch_arg) (pml : option SimGrid.pml_arg)
    (pe : R) (ya : Z) (sg : SimGrid.t) (wavelength : R) (et : ndarray R) :
  SimGrid.init sh sp e bp pml pe ya = Ok sg ->
  Forall (fun n => 0 < n) sh ->
  Np.wf (Grid.eps (SimGrid.grid sg)) ->
  SimGrid.eps_t_body sg = Ok et ->
  wavelength <> 0%R ->
  let self := FDFD.mk sg wavelength in
  (exists A, FDFD.mat self et = Ok A /\
             Sp.nrows A = 3 * FDFD.n self /\ Sp.ncols A = 3 * FDFD.n self) /\
  (exists Az, FDFD.matz self et = Ok Az /\
              Sp.nrows Az = FDFD.n self /\ Sp.ncols Az = FDFD.n self).
Proof.
  intros Hinit Hpos Hwf Het Hwl self. subst self.
  pose proof (k0_ok (FDFD.mk sg wavelength) Hwl) as Hk.
  cbn [FDFD.wavelength] in Hk.
  destruct (SimGrid_init_inv _ _ _ _ _ _ _ _ Hinit) as (Hg & _ & Hya & _).
  destruct (Grid_init_inv _ _ _ _ Hg) as (Hsh & Hnd & Hrange & _ & Hn & _).
  destruct (eps_t_body_shape _ _ _ _ _ _ _ _ Hinit Hwf)
    as (et' & Het' & Hwet & Hsz & Hset).
  rewrite Het in Het'. injection Het' as <-.
  destruct (deriv_dims _ _ _ _ _ _ _ _ false Hinit Hpos)
    as (f0 & f1 & f2 & Hdf & Hfd).
  destruct (deriv_dims _ _ _ _ _ _ _ _ true Hinit Hpos)
    as (b0 & b1 & b2 & Hdb & Hbd).
  assert (HN : FDFD.n (FDFD.mk sg wavelength) = prod sh) by exact Hn.
  rewrite HN. rewrite Hn in Hsz.
  split.
  - unfold FDFD.mat, FDFD.curl_curl, SimGrid.df, SimGrid.db.
    cbn [FDFD.sim]. rewrite Hdf, Hdb, Hk. unfold mbind, result_bind.
    destruct (d2curl_op_dims _ _ _ _ Hbd) as (cb & -> & Hcbr & Hcbc).
    cbv beta iota.
    destruct (d2curl_op_dims _ _ _ _ Hfd) as (cf & -> & Hcfr & Hcfc).
    cbv beta iota.
    destruct (matmul_dims cb cf) as (cc & -> & Hccr & Hccc); [lia|].
    cbv beta iota.
    destruct (sub_dims cc
                (Sp.scale (Sp.diag (map RtoC (data (flatten et))))
                   (RtoC (2 * PI / wavelength * (2 * PI / wavelength)))))
      as (A & -> & HAr & HAc).
    + cbn [Sp.nrows Sp.scale Sp.diag flatten of_list data].
      rewrite length_map. unfold size in Hsz. lia.
    + cbn [Sp.ncols Sp.scale Sp.diag flatten of_list data].
      rewrite length_map. unfold size in Hsz. lia.
    + exists A. split; [reflexivity|]. lia.
  - inversion Hfd as [|? ? [Hf0r Hf0c] Hfd'].
    inversion Hfd' as [|? ? [Hf1r Hf1c] _].
    inversion Hbd as [|? ? [Hb0r Hb0c] Hbd'].
    inversion Hbd' as [|? ? [Hb1r Hb1c] _].
    set (s' := if (length sh =? 2) && (0 <? ya)%Z then sh ++ [1] else sh) in *.
    assert (Hps : prod s' = prod sh).
    { subst s'. destruct (_ && _); [apply prod_snoc_1 | reflexivity]. }
    destruct (unstack3 et s' Hwet Hset)
      as (e0 & e1 & e2 & Hun & Hl0 & Hl1 & Hl2).
    rewrite Hps in Hl2.
    unfold FDFD.matz, FDFD.ddz, SimGrid.df, SimGrid.db.
    cbn [FDFD.sim]. rewrite Hdf, Hdb, Hk. unfold mbind, result_bind.
    destruct (matmul_dims (Sp.neg b0) f0) as (a & -> & Har & Hac);
      [cbn [Sp.ncols Sp.neg]; lia|].
    cbn [Sp.nrows Sp.neg] in Har.
    cbv beta iota.
    destruct (matmul_dims b1 f1) as (b & -> & Hbr & Hbc); [lia|].
    cbv beta iota.
    destruct (sub_dims a b) as (d & -> & Hdr & Hdc); [lia | lia |].
    cbv beta iota. rewrite Hun.
    destruct (sub_dims d
                (Sp.scale (Sp.diag (map RtoC (data (flatten (mk_ndarray s' e2)))))
                   (RtoC (2 * PI / wavelength * (2 * PI / wavelength)))))
      as (Az & -> & HAr & HAc).
    + cbn [Sp.nrows Sp.scale Sp.diag flatten of_list data].
      rewrite length_map. lia.
    + cbn [Sp.ncols Sp.scale Sp.diag flatten of_list data].
      rewrite length_map. lia.
    + exists Az. split; [reflexivity|]. lia.
Qed.



(** ** [utils.Box]: placement *)

Section BoxPlacement.
Local Open Scope R_scope.

Lemma pair_eq {A B} (p : A * B) (a : A) (b : B) :
  fst p = a -> snd p = b -> p = (a, b).
Proof. destruct p; simpl; congruence. Qed.

(** X13.  [align] moves the box so that its centre is the centre of the box
    (or the point) it is given, whatever the two sizes; it changes nothing
    but the position, and aligning a second time with the same target moves
    nothing. *)
Theorem Box_align_center (self : Box.t) (c : Box.t + R * R) :
  let target := match c with inl b => Box.center b | inr p => p end in
  let b := Box.align self c in
  Box.center b = target /\
  Box.size b = Box.size self /\
  Box.spacing b = Box.spacing self /\
  Box.reverse b = Box.reverse self /\
  Box.align b c = b.
Proof.
  intros target b.
  assert (Hc : Box.center b = target).
  { subst b target. unfold Box.align, Box.translate, Box.center. simpl.
    destruct c as [c | [px py]]; simpl; apply pair_eq; simpl; lra. }
  repeat split; trivial.
  subst b. unfold Box.align at 1. fold target.
  rewrite Hc. unfold Box.translate.
  destruct (Box.align self c) as [[mx my] sz sp rv]. simpl. f_equal.
  f_equal; lra.
Qed.

(** X14.  [halign] puts the chosen vertical edge of the box (the left one,
    or the right one with [left=False]) on the given abscissa, or on an edge
    of the given box: the same edge, or the other one with [opposite=True].
    [valign] does so with the horizontal edges.  Neither changes the size,
    nor the position along the other axis. *)
Theorem Box_halign_valign_edge (self : Box.t) (c : Box.t + R)
    (first opposite : bool) :
  let xedge (right : bool) (b : Box.t) :=
    if right then fst (Box.max b) else fst (Box.min b) in
  let yedge (top : bool) (b : Box.t) :=
    if top then snd (Box.max b) else snd (Box.min b) in
  let h := Box.halign self c first opposite in
  let v := Box.valign self c first opposite in
  xedge (negb first) h
  = match c with
    | inr p => p
    | inl b => xedge (xorb (negb first) opposite) b
    end /\
  yedge (negb first) v
  = match c with
    | inr p => p
    | inl b => yedge (xorb (negb first) opposite) b
    end /\
  snd (Box.min h) = snd (Box.min self) /\
  fst (Box.min v) = fst (Box.min self) /\
  Box.size h = Box.size self /\ Box.size v = Box.size self.
Proof.
  intros xedge yedge h v. subst xedge yedge h v.
  unfold Box.halign, Box.valign, Box.translate, Box.max. simpl.
  destruct c as [b | p], first, opposite; simpl; repeat split; lra.
Qed.

(** X15.  [flip_boxes_x] raises [ValueError] exactly when [gap] is at least
    half the width.  Otherwise it returns two boxes of the height of the
    box and of width [size[0] / 2 - gap]: the first in the lower left corner
    and not reversed, the second against the right edge and reversed along
    x; they are mirror images about the vertical centre line of the box and
    [2 * gap] apart. *)
Theorem Box_flip_boxes_x (self : Box.t) (gap : R) :
  (gap >= fst (Box.size self) / 2 ->
   exists msg, Box.flip_boxes_x self gap = Raise (ValueError msg)) /\
  (gap < fst (Box.size self) / 2 ->
   exists l r,
     Box.flip_boxes_x self gap = Ok [l; r] /\
     Box.size l = (fst (Box.size self) / 2 - gap, snd (Box.size self)) /\
     Box.size r = Box.size l /\
     Box.min l = Box.min self /\
     snd (Box.min r) = snd (Box.min self) /\
     fst (Box.max r) = fst (Box.max self) /\
     fst (Box.min r) - fst (Box.max l) = 2 * gap /\
     fst (Box.center l) + fst (Box.center r) = 2 * fst (Box.center self) /\
     Box.reverse l = (false, false) /\ Box.reverse r = (true, false) /\
     Box.spacing l = Box.spacing self /\ Box.spacing r = Box.spacing self).
Proof.
  unfold Box.flip_boxes_x, Box.Rgeb. split; intros Hg.
  - destruct (Rge_dec gap (fst (Box.size self) / 2)); [eauto | contradiction].
  - destruct (Rge_dec gap (fst (Box.size self) / 2)); [lra |].
    eexists _, _. split; [reflexivity |].
    unfold Box.halign, Box.flip_x, Box.copy, Box.init, Box.translate,
      Box.max, Box.center.
    simpl. repeat split; lra.
Qed.

Lemma Box_flip_boxes_x_witness :
  exists l r,
    Box.flip_boxes_x (Box.init (4, 2) 1 None None) (1 / 2) = Ok [l; r] /\
    Box.size l = (3 / 2, 2) /\ fst (Box.min r) = 5 / 2.
Proof.
  destruct (Box_flip_boxes_x (Box.init (4, 2) 1 None None) (1 / 2))
    as [_ H].
  destruct H as (l & r & He & Hl & Hr & Hml & Hmr & Hxr & Hgap & _).
  { simpl. lra. }
  exists l, r. split; [exact He |].
  split.
  - rewrite Hl. simpl. f_equal. lra.
  - unfold Box.max in *. rewrite Hml in Hgap. rewrite Hl in Hgap.
    simpl in Hgap. lra.
Defined.

(** X16.  [flip_boxes_y] tests [gap] against half the width, [size[0] / 2]:
    it raises [ValueError] exactly when [gap] is at least that.  Otherwise
    it returns two boxes of the width of the box and of height
    [size[1] / 2 - gap]: the first in the lower left corner and not
    reversed, the second against the upper edge and reversed along y, their
    facing edges [2 * gap] apart. *)
Theorem Box_flip_boxes_y (self : Box.t) (gap : R) :
  (gap >= fst (Box.size self) / 2 ->
   exists msg, Box.flip_boxes_y self gap = Raise (ValueError msg)) /\
  (gap < fst (Box.size self) / 2 ->
   exists l u,
     Box.flip_boxes_y self gap = Ok [l; u] /\
     Box.size l = (fst (Box.size self), snd (Box.size self) / 2 - gap) /\
     Box.size u = Box.size l /\
     Box.min l = Box.min self /\
     fst (Box.min u) = fst (Box.min self) /\
     snd (Box.max u) = snd (Box.max self) /\
     snd (Box.min u) - snd (Box.max l) = 2 * gap /\
     snd (Box.center l) + snd (Box.center u) = 2 * snd (Box.center self) /\
     Box.reverse l = (false, false) /\ Box.reverse u = (false, true) /\
     Box.spacing l = Box.spacing self /\ Box.spacing u = Box.spacing self).
Proof.
  unfold Box.flip_boxes_y, Box.Rgeb. split; intros Hg.
  - destruct (Rge_dec gap (fst (Box.size self) / 2)); [eauto | contradiction].
  - destruct (Rge_dec gap (fst (Box.size self) / 2)); [lra |].
    eexists _, _. split; [reflexivity |].
    unfold Box.valign, Box.flip_y, Box.copy, Box.init, Box.translate,
      Box.max, Box.center.
    simpl. repeat split; lra.
Qed.

Lemma Box_flip_boxes_y_witness :
  (exists msg,
     Box.flip_boxes_y (Box.init (2, 8) 1 None None) 1
     = Raise (ValueError msg)) /\
  exists l u,
    Box.flip_boxes_y (Box.init (4, 2) 1 None None) (3 / 2) = Ok [l; u] /\
    Box.size l = (4, - (1 / 2)).
Proof.
  split.
  - apply (Box_flip_boxes_y (Box.init (2, 8) 1 None None) 1). simpl. lra.
  - destruct (Box_flip_boxes_y (Box.init (4, 2) 1 None None) (3 / 2))
      as [_ H].
    destruct H as (l & u & He & Hl & _).
    { simpl. lra. }
    exists l, u. split; [exact He |].
    rewrite Hl. simpl. f_equal. lra.
Defined.

(** X17.  [flip_boxes_xy] raises [ValueError] exactly when a gap is at
    least half the size along its axis.  Otherwise it returns four boxes of
    size [(size[0] / 2 - gaps[0], size[1] / 2 - gaps[1])], one in each
    corner of the box (lower left, lower right, upper left, upper right),
    reversed along x on the right and along y at the top. *)
Theorem Box_flip_boxes_xy (self : Box.t) (gaps : R * R) :
  let half := (fst (Box.size self) / 2 - fst gaps,
               snd (Box.size self) / 2 - snd gaps) in
  (fst gaps >= fst (Box.size self) / 2 \/
   snd gaps >= snd (Box.size self) / 2 ->
   exists msg, Box.flip_boxes_xy self gaps = Raise (ValueError msg)) /\
  (fst gaps < fst (Box.size self) / 2 /\
   snd gaps < snd (Box.size self) / 2 ->
   exists ll lr ul ur,
     Box.flip_boxes_xy self gaps = Ok [ll; lr; ul; ur] /\
     Forall (fun b => Box.size b = half /\
                      Box.spacing b = Box.spacing self) [ll; lr; ul; ur] /\
     Box.min ll = Box.min self /\
     (fst (Box.max lr) = fst (Box.max self) /\
      snd (Box.min lr) = snd (Box.min self)) /\
     (fst (Box.min ul) = fst (Box.min self) /\
      snd (Box.max ul) = snd (Box.max self)) /\
     (fst (Box.max ur) = fst (Box.max self) /\
      snd (Box.max ur) = snd (Box.max self)) /\
     map Box.reverse [ll; lr; ul; ur]
     = [(false, false); (true, false); (false, true); (true, true)]).
Proof.
  intros half. subst half. unfold Box.flip_boxes_xy, Box.Rgeb. split; intros Hg.
  - destruct (Rge_dec (fst gaps) (fst (Box.size self) / 2)); simpl;
      [eauto |].
    destruct (Rge_dec (snd gaps) (snd (Box.size self) / 2)); simpl;
      [eauto |].
    destruct Hg; contradiction.
  - destruct Hg as [H0 H1].
    destruct (Rge_dec (fst gaps) (fst (Box.size self) / 2)); [lra |].
    destruct (Rge_dec (snd gaps) (snd (Box.size self) / 2)); [lra |].
    simpl. eexists _, _, _, _. split; [reflexivity |].
    unfold Box.valign, Box.halign, Box.flip_x, Box.flip_y, Box.flip_xy,
      Box.copy, Box.init, Box.translate, Box.max.
    simpl. repeat split; try lra.
    all: repeat constructor; simpl; trivial.
Qed.

Lemma Box_flip_boxes_xy_witness :
  exists ll lr ul ur,
    Box.flip_boxes_xy (Box.init (4, 2) 1 None None) (1, 0)
    = Ok [ll; lr; ul; ur] /\
    fst (Box.max ur) = 4 /\ snd (Box.max ur) = 2.
Proof.
  destruct (Box_flip_boxes_xy (Box.init (4, 2) 1 None None) (1, 0))
    as [_ H].
  destruct H as (ll & lr & ul & ur & He & _ & _ & _ & _ & [Hx Hy] & _).
  { simpl. lra. }
  exists ll, lr, ul, ur. split; [exact He |].
  rewrite Hx, Hy. simpl. lra.
Defined.

End BoxPlacement.

(** ** [utils.py]: Poynting vector and overlap *)

Import Py NpIx.

Lemma pbind_ret {A B} (r : py A) (k : A -> py B) (b : B) :
  (x ← r; k x) = Ret b -> exists a, r = Ret a /\ k a = Ret b.
Proof.
  destruct r as [a|e]; simpl; intros H; [eauto | discriminate].
Qed.

(** One step of a computation that raises whatever its first call does. *)
Ltac praise :=
  match goal with
  | |- raises (mbind _ ?r) =>
      let H := fresh "E" in
      destruct r eqn:H; [cbn [mbind py_bind] | eexists; reflexivity]
  end.

Lemma flat_map_ext_seq {A} (F G : nat -> list A) (N : nat) :
  (forall p, p < N -> F p = G p) ->
  flat_map F (seq 0 N) = flat_map G (seq 0 N).
Proof.
  intros H. rewrite !flat_map_concat_map. f_equal.
  apply map_ext_in. intros p Hp. apply in_seq in Hp. apply H. lia.
Qed.

Lemma flat_map_zip_with {A B D} (f : A -> B -> D) (l1 : list A) (l2 : list B) :
  length l2 = length l1 ->
  flat_map (fun p => match l1 !! p, l2 !! p with
                     | Some x, Some y => [f x y]
                     | _, _ => []
                     end) (seq 0 (length l1))
  = zip_with f l1 l2.
Proof.
  revert l2. induction l1 as [|x l1 IH]; intros [|y l2] Hl;
    simpl in Hl; try discriminate; [reflexivity|].
  cbn [length seq flat_map]. rewrite <- seq_shift.
  rewrite flat_map_concat_map, map_map, <- flat_map_concat_map.
  simpl. f_equal. apply IH. lia.
Qed.

Lemma broadcast_rev_same (l : list nat) : broadcast_rev l l = Some l.
Proof.
  induction l as [|x l IH]; [reflexivity|]. simpl.
  rewrite Nat.eqb_refl, IH. reflexivity.
Qed.

Lemma bsrc_same (s : list nat) (p : nat) : p < prod s -> bsrc s s p = p.
Proof.
  revert p. induction s as [|n s IH]; intros p Hp.
  - unfold prod in Hp. simpl in *. lia.
  - change (prod (n :: s)) with (n * prod s) in Hp.
    cbn [bsrc].
    assert (HP : prod s <> 0) by (intros E; rewrite E in Hp; lia).
    rewrite IH by (apply Nat.mod_upper_bound; exact HP).
    destruct (n =? 1) eqn:En.
    + apply Nat.eqb_eq in En. subst n.
      rewrite Nat.mod_small by lia. lia.
    + assert (Hq : p / prod s < n).
      { apply Nat.Div0.div_lt_upper_bound. lia. }
      rewrite (Nat.mod_small _ _ Hq).
      pose proof (Nat.div_mod_eq p (prod s)). lia.
Qed.

Lemma broadcast2_same {A B D} (f : A -> B -> D) (a : ndarray A)
    (b : ndarray B) :
  Np.wf a -> Np.wf b -> shape b = shape a ->
  broadcast2 f a b = Ret (map2 f a b).
Proof.
  intros Ha Hb Hs. unfold broadcast2, broadcast_shapes. rewrite Hs.
  rewrite broadcast_rev_same. cbn [fmap option_fmap option_map].
  rewrite reverse_involutive. unfold pad.
  rewrite Nat.sub_diag. cbn [repeat app]. unfold map2. do 2 f_equal.
  unfold wf in *. rewrite Hs in Hb.
  rewrite <- Ha.
  rewrite <- (flat_map_zip_with f (data a) (data b)) by lia.
  apply flat_map_ext_seq. intros p Hp.
  rewrite bsrc_same by lia. reflexivity.
Qed.

Lemma getitem_oob {A} (a : ndarray A) (n : nat) (s : list nat) (i : Z) :
  shape a = n :: s -> (Z.of_nat n <= i)%Z -> raises (getitem a i).
Proof.
  intros Hs Hi. unfold getitem. rewrite Hs.
  replace (i <? Z.of_nat n)%Z with false by (symmetry; apply Z.ltb_ge; lia).
  rewrite andb_false_r. eexists. reflexivity.
Qed.

Lemma getitem_ok {A} (a : ndarray A) (n : nat) (s : list nat) (i : Z) :
  Np.wf a -> shape a = n :: s -> (0 <= i < Z.of_nat n)%Z ->
  exists x, getitem a i = Ret x /\ shape x = s /\ Np.wf x.
Proof.
  intros Hwf Hs Hi. unfold getitem. rewrite Hs.
  replace (- Z.of_nat n <=? i)%Z with true by (symmetry; apply Z.leb_le; lia).
  replace (i <? Z.of_nat n)%Z with true by (symmetry; apply Z.ltb_lt; lia).
  cbn [andb]. eexists. split; [reflexivity|]. split; [reflexivity|].
  unfold wf in *. cbn [data shape]. rewrite Hs in Hwf.
  change (prod (n :: s)) with (n * prod s) in Hwf.
  rewrite Z.mod_small by lia.
  rewrite length_take, length_drop, Hwf.
  assert (Hk : Z.to_nat i < n) by lia.
  assert (S (Z.to_nat i) * prod s <= n * prod s)
    by (apply Nat.mul_le_mono_r; lia).
  lia.
Qed.

Lemma roll_axis_ok {A} (a : ndarray A) (shift axis : Z) :
  Np.wf a -> (0 <= axis < Z.of_nat (Np.ndim a))%Z ->
  exists r, roll_axis a shift axis = Ret r /\ shape r = shape a /\ Np.wf r.
Proof.
  intros Hwf Hax. unfold roll_axis.
  replace (- Z.of_nat (ndim a) <=? axis)%Z with true
    by (symmetry; apply Z.leb_le; lia).
  replace (axis <? Z.of_nat (ndim a))%Z with true
    by (symmetry; apply Z.ltb_lt; lia).
  cbn [andb]. eexists. split; [reflexivity|].
  rewrite Z.mod_small by lia.
  destruct (roll_wf a shift (Z.to_nat axis) Hwf) as [H1 H2]; [lia|].
  split; assumption.
Qed.

Lemma stack2_ok {A} (x y : ndarray A) :
  Np.wf x -> Np.wf y -> shape y = shape x ->
  exists c, lift (stack [x; y]) = Ret c /\ shape c = 2 :: shape x /\
            Np.wf c.
Proof.
  intros Hx Hy Hs. unfold stack. cbn [forallb]. unfold list_eqb.
  rewrite Hs, !bool_decide_eq_true_2 by reflexivity. cbn [andb lift].
  eexists. split; [reflexivity|]. split; [reflexivity|].
  unfold wf in *. cbn [data shape map concat length].
  rewrite !length_app, Hx, Hy, Hs. cbn [length].
  change (prod (2 :: shape x)) with (2 * prod (shape x)). lia.
Qed.

Lemma stack2_shape {A} (x y c : ndarray A) :
  lift (stack [x; y]) = Ret c -> exists s, shape c = 2 :: s.
Proof.
  unfold stack.
  destruct (forallb _ _); cbn [lift]; intros H; [|discriminate].
  injection H as <-. eexists. reflexivity.
Qed.

Lemma ax_of_cases (axis : Z) :
  ((axis mod 3 = 0)%Z /\ Fields.ax_of axis = [1; 2; 0]%Z) \/
  ((axis mod 3 = 1)%Z /\ Fields.ax_of axis = [2; 0; 1]%Z) \/
  ((axis mod 3 = 2)%Z /\ Fields.ax_of axis = [0; 1; 2]%Z).
Proof.
  unfold Fields.ax_of, roll_flat, of_list, size. cbn [data shape length seq flat_map].
  assert (H : forall p : Z,
             ((p - - axis) mod 3 = (axis mod 3 + p) mod 3)%Z).
  { intros p. replace (p - - axis)%Z with (axis + p)%Z by lia.
    symmetry. apply Zplus_mod_idemp_l. }
  change (Z.of_nat 3) with 3%Z.
  rewrite !H.
  pose proof (Z.mod_pos_bound axis 3 ltac:(lia)) as Hb.
  assert (Hc : (axis mod 3 = 0 \/ axis mod 3 = 1 \/ axis mod 3 = 2)%Z) by lia.
  destruct Hc as [E | [E | E]]; rewrite E; [left | right; left | right; right];
    (split; [reflexivity | vm_compute; reflexivity]).
Qed.

Lemma avg_ok (f : ndarray C) (n : nat) (s : list nat) (i axis : Z) :
  Np.wf f -> shape f = n :: s -> (0 <= i < Z.of_nat n)%Z ->
  (0 <= axis < Z.of_nat (length s))%Z ->
  exists x, Fields.avg f i axis = Ret x /\ shape x = s /\ Np.wf x.
Proof.
  intros Hwf Hs Hi Hax. unfold Fields.avg.
  destruct (getitem_ok f n s i Hwf Hs Hi) as (x & -> & Hsx & Hwx).
  cbn [mbind py_bind].
  destruct (roll_axis_ok x 1 axis Hwx) as (r & -> & Hsr & Hwr).
  { unfold ndim. rewrite Hsx. exact Hax. }
  cbn [mbind py_bind].
  rewrite (broadcast2_same Cadd x r Hwx Hwr Hsr).
  cbn [mbind py_bind]. eexists. split; [reflexivity|].
  split; [exact Hsx|]. apply map1_wf. apply map2_wf; assumption.
Qed.

(** X18.  The function that [poynting_fn(axis)] returns works for the z
    component only.  Unless [axis] is 2 modulo 3 (2, -1, 5, ...), it raises
    for every pair of fields, at the latest when it reads index 2 of its
    stacks of two averaged components.  For [axis] 2 modulo 3 and fields of
    one shape with at least two components and two grid axes, it returns an
    array of the shape of one component. *)
Theorem poynting_fn_axis (axis : Z) (e h : ndarray C) :
  ((axis mod 3 <> 2)%Z -> raises (Fields.poynting_fn axis e h)) /\
  ((axis mod 3 = 2)%Z ->
   forall n s,
     shape e = n :: s -> shape h = n :: s -> 2 <= n -> 2 <= length s ->
     Np.wf e -> Np.wf h ->
     exists p, Fields.poynting_fn axis e h = Ret p /\ shape p = s /\
               Np.wf p).
Proof.
  unfold Fields.poynting_fn.
  destruct (ax_of_cases axis) as [[E ->] | [[E ->] | [E ->]]]; cbn [nth];
    (split; [intros Hne | intros He]; try lia).
  - do 7 praise.
    destruct (stack2_shape _ _ _ E5) as [s Hs].
    destruct (getitem_oob (map1 Cconj a4) 2 s 2 Hs ltac:(lia)) as [ex ->].
    eexists. reflexivity.
  - do 6 praise.
    destruct (stack2_shape _ _ _ E2) as [s Hs].
    destruct (getitem_oob a1 2 s 2 Hs ltac:(lia)) as [ex ->].
    eexists. reflexivity.
  - intros n s Hse Hsh Hn Hl Hwe Hwh.
    destruct (avg_ok e n s 0 1 Hwe Hse) as (e0 & -> & Hs0 & Hw0); try lia.
    cbn [mbind py_bind].
    destruct (avg_ok e n s 1 0 Hwe Hse) as (e1 & -> & Hs1 & Hw1); try lia.
    cbn [mbind py_bind].
    destruct (stack2_ok e0 e1 Hw0 Hw1) as (ec & -> & Hsc & Hwc);
      [congruence|].
    cbn [mbind py_bind].
    destruct (avg_ok h n s 0 0 Hwh Hsh) as (h0 & -> & Hs2 & Hw2); try lia.
    cbn [mbind py_bind].
    destruct (avg_ok h n s 1 1 Hwh Hsh) as (h1 & -> & Hs3 & Hw3); try lia.
    cbn [mbind py_bind].
    destruct (stack2_ok h0 h1 Hw2 Hw3) as (hc & -> & Hsd & Hwd);
      [congruence|].
    cbn [mbind py_bind].
    assert (Hwj : Np.wf (map1 Cconj hc)) by (apply map1_wf; exact Hwd).
    assert (Hsj : shape (map1 Cconj hc) = 2 :: s)
      by (unfold map1; cbn [shape]; congruence).
    rewrite Hs0 in Hsc.
    destruct (getitem_ok ec 2 s 0 Hwc Hsc) as (a & -> & Hsa & Hwa); [lia|].
    cbn [mbind py_bind].
    destruct (getitem_ok _ 2 s 1 Hwj Hsj) as (b & -> & Hsb & Hwb); [lia|].
    cbn [mbind py_bind].
    rewrite (broadcast2_same Cmul a b Hwa Hwb) by congruence.
    cbn [mbind py_bind].
    destruct (getitem_ok ec 2 s 1 Hwc Hsc) as (c & -> & Hsc' & Hwc'); [lia|].
    cbn [mbind py_bind].
    destruct (getitem_ok _ 2 s 0 Hwj Hsj) as (d & -> & Hsd' & Hwd'); [lia|].
    cbn [mbind py_bind].
    rewrite (broadcast2_same Cmul c d Hwc' Hwd') by congruence.
    cbn [mbind py_bind].
    assert (Hab : Np.wf (map2 Cmul a b)) by (apply map2_wf; congruence).
    assert (Hcd : Np.wf (map2 Cmul c d)) by (apply map2_wf; congruence).
    assert (Hsh' : shape (map2 Cmul c d) = shape (map2 Cmul a b))
      by (unfold map2; cbn [shape]; congruence).
    rewrite (broadcast2_same Csub _ _ Hab Hcd Hsh').
    eexists. split; [reflexivity|]. split; [exact Hsa|].
    apply map2_wf; assumption.
Qed.

Lemma poynting_fn_axis_witness :
  raises (Fields.poynting_fn 0 (full [3; 2; 2] Cone) (full [3; 2; 2] Cone)) /\
  exists p,
    Fields.poynting_fn (-1) (full [3; 2; 2] Cone) (full [3; 2; 2] Cone)
    = Ret p /\ shape p = [2; 2] /\ Np.wf p.
Proof.
  split.
  - apply (poynting_fn_axis 0). vm_compute. discriminate.
  - apply (proj2 (poynting_fn_axis (-1) (full [3; 2; 2] Cone)
                    (full [3; 2; 2] Cone)) eq_refl 3 [2; 2]);
      try reflexivity; try (simpl; lia); apply full_wf.
Defined.

Lemma Cdiv_mul_self (s : C) :
  (Re s <> 0 \/ Im s <> 0)%R -> Cdiv (Cmul s s) s = s.
Proof.
  intros H. destruct s as [x y]. simpl in H.
  assert (Hd : (x * x + y * y <> 0)%R) by (destruct H; nra).
  apply C_eq; unfold Cdiv, Cmul, Cinv; simpl; field; exact Hd.
Qed.

(** X19.  The overlap of a mode with itself is 1: when the Poynting vector
    of [(e, h)] is computed and the real part of its sum (the power) is not
    zero, [overlap(e, h, e, h)] is exactly 1, whatever the normalisation of
    the fields; when that real part is zero the result is not a finite
    number. *)
Theorem overlap_self (e h p : ndarray C) :
  Fields.poynting_fn 2 e h = Ret p ->
  (Re (NpIx.sum p) <> 0%R -> Fields.overlap e h e h = Ret (Some 1%R)) /\
  (Re (NpIx.sum p) = 0%R -> Fields.overlap e h e h = Ret None).
Proof.
  intros Hp. unfold Fields.overlap. rewrite Hp. cbn [mbind py_bind].
  set (s := NpIx.sum p). unfold cdivide, divide.
  split; intros Hs.
  - rewrite (Reqb_false (Re s) 0) by exact Hs. cbn [andb mbind option_bind].
    rewrite Cdiv_mul_self by (left; exact Hs).
    do 2 f_equal. field. exact Hs.
  - destruct (Reqb (Re s) 0 && Reqb (Im s) 0); cbn [mbind option_bind];
      [reflexivity|].
    rewrite Hs, Reqb_refl. reflexivity.
Qed.

Lemma overlap_self_witness :
  Fields.overlap (mk_ndarray [3; 1; 1] [Cone; Czero; Czero])
                 (mk_ndarray [3; 1; 1] [Czero; RtoC 2; Czero])
                 (mk_ndarray [3; 1; 1] [Cone; Czero; Czero])
                 (mk_ndarray [3; 1; 1] [Czero; RtoC 2; Czero])
  = Ret (Some 1%R).
Proof.
  set (e := mk_ndarray [3; 1; 1] [Cone; Czero; Czero]).
  set (h := mk_ndarray [3; 1; 1] [Czero; RtoC 2; Czero]).
  eassert (Hp : Fields.poynting_fn 2 e h = Ret _).
  { cbv - [Rplus Rmult Ropp Rinv Rminus Rdiv IZR]. reflexivity. }
  apply (overlap_self e h _ Hp).
  cbv - [Rplus Rmult Ropp Rinv Rminus Rdiv IZR].
  replace (2 * 2 + 0 * 0)%R with 4%R by lra. lra.
Defined.

(** ** [utils.curl_fn] *)

Lemma broadcast2_map1_r {A B B' D} (f f' : A -> B' -> D) (g g' : B -> B')
    (a : ndarray A) (b : ndarray B) :
  (forall x y, f x (g y) = f' x (g' y)) ->
  broadcast2 f a (map1 g b) = broadcast2 f' a (map1 g' b).
Proof.
  intros H. unfold broadcast2, map1. cbn [shape data].
  destruct (broadcast_shapes (shape a) (shape b)) as [o|]; [|reflexivity].
  do 2 f_equal. apply flat_map_ext. intros p.
  rewrite !list_lookup_fmap.
  destruct (data a !! _) as [x|]; [|reflexivity].
  destruct (data b !! _) as [y|]; cbn; [|reflexivity].
  now rewrite H.
Qed.

(** One step of two computations that make the same first call. *)
Ltac psame :=
  match goal with
  | |- mbind _ ?r = mbind _ ?r =>
      destruct r; cbn [mbind py_bind]; [|reflexivity]
  end.

(** X20.  The curl with a propagation constant is the general curl in which
    the derivative along z is the multiplication by [-1j * beta]: for every
    derivative function [df], every [beta] and every field, exceptions
    included, [curl_fn(df, beta=beta)] gives what [curl_fn] gives without
    [beta] for the derivative that is [df] along x and y and
    [-1j * beta * f] along z. *)
Theorem curl_fn_beta_is_dz (df : ndarray C -> Z -> py (ndarray C)) (beta : R)
    (f : ndarray C) :
  Fields.curl_fn df (Some beta) f
  = Fields.curl_fn
      (fun g axis =>
         if (axis =? 2)%Z
         then Ret (Fields.scale (Cmul (Cneg Ci) (RtoC beta)) g)
         else df g axis)
      None f.
Proof.
  unfold Fields.curl_fn. cbn [Z.eqb Pos.eqb].
  do 3 psame.
  unfold Fields.scale.
  rewrite (broadcast2_map1_r Cadd Csub (Cmul (Cmul Ci (RtoC beta)))
             (Cmul (Cmul (Cneg Ci) (RtoC beta)))).
  - reflexivity.
  - intros x y. apply C_eq; simpl; lra.
Qed.

(** ** [utils.Box]: pixel indices and masks *)














(** ** The operator of the z-polarised problem is Hermitian *)







(** ** The curl operators and the operator of the full problem *)

Lemma locate3 (N i : nat) :
  i < 3 * N ->
  (Sp.locate [N; N; N] i = (0, i) /\ i < N) \/
  (Sp.locate [N; N; N] i = (1, i - N) /\ N <= i /\ i - N < N) \/
  (Sp.locate [N; N; N] i = (2, i - N - N) /\ N <= i /\ N <= i - N /\
   i - N - N < N).
Proof.
  intros Hi. cbn [Sp.locate].
  destruct (i <? N) eqn:E0.
  - apply Nat.ltb_lt in E0. left. auto.
  - apply Nat.ltb_ge in E0. destruct (i - N <? N) eqn:E1.
    + apply Nat.ltb_lt in E1. right. left. cbn [fst snd]. auto.
    + apply Nat.ltb_ge in E1. right. right.
      replace (i - N - N <? N) with true by (symmetry; apply Nat.ltb_lt; lia).
      cbn [fst snd]. repeat split; lia.
Qed.

Lemma d2curl_op_adjoint (b0 b1 b2 f0 f1 f2 cb cf : Sp.spmatrix) (N : nat) :
  Forall (fun d => Sp.nrows d = N /\ Sp.ncols d = N) [b0; b1; b2] ->
  Forall (fun d => Sp.nrows d = N /\ Sp.ncols d = N) [f0; f1; f2] ->
  Forall2 (fun b f => Sp.meq b (Sp.neg (Sp.adjoint f)))
          [b0; b1; b2] [f0; f1; f2] ->
  Utils.d2curl_op [b0; b1; b2] = Ok cb ->
  Utils.d2curl_op [f0; f1; f2] = Ok cf ->
  forall i j, i < 3 * N -> j < 3 * N ->
              Sp.coef cb i j = Cconj (Sp.coef cf j i).
Proof.
  intros Hb Hf Hadj Hcb Hcf.
  inversion Hb as [|? ? [B0r B0c] Hb']. inversion Hb' as [|? ? [B1r B1c] Hb''].
  inversion Hb'' as [|? ? [B2r B2c] _].
  inversion Hf as [|? ? [F0r F0c] Hf']. inversion Hf' as [|? ? [F1r F1c] Hf''].
  inversion Hf'' as [|? ? [F2r F2c] _].
  apply Forall2_cons_1 in Hadj as [(_ & _ & A0) Hadj].
  apply Forall2_cons_1 in Hadj as [(_ & _ & A1) Hadj].
  apply Forall2_cons_1 in Hadj as [(_ & _ & A2) _].
  unfold Utils.d2curl_op, Sp.bmat in Hcb, Hcf.
  cbn [length Nat.eqb forallb orb negb andb map seq flat_map lookup
       list_lookup option_list app Sp.nrows Sp.ncols Sp.zeros Sp.neg]
    in Hcb, Hcf.
  unfold option_list, option_rect in Hcb, Hcf.
  cbn [app map Sp.nrows Sp.ncols Sp.zeros Sp.neg] in Hcb, Hcf.
  rewrite B0r, B0c, B1r, B1c, B2r, B2c in Hcb.
  rewrite F0r, F0c, F1r, F1c, F2r, F2c in Hcf.
  cbn [Sp.block_lengths] in Hcb, Hcf.
  rewrite !block_length_same in Hcb, Hcf.
  cbv beta iota in Hcb, Hcf.
  apply (f_equal (fun r => match r with Ok m => m | Raise _ => Sp.zeros 0 0 end))
    in Hcb, Hcf.
  cbv beta iota in Hcb, Hcf. subst cb cf.
  intros i j Hi Hj.
  set (loc := Sp.locate [N; N; N]).
  cbn [Sp.coef]. subst loc.
  destruct (locate3 N i Hi) as [[-> Hi'] | [[-> Hi'] | [-> Hi']]];
    destruct (locate3 N j Hj) as [[-> Hj'] | [[-> Hj'] | [-> Hj']]];
    cbn [fst snd lookup list_lookup mbind option_bind Sp.nrows Sp.ncols
         Sp.zeros Sp.neg Sp.coef].
  all: rewrite ?B0r, ?B0c, ?B1r, ?B1c, ?B2r, ?B2c,
               ?F0r, ?F0c, ?F1r, ?F1c, ?F2r, ?F2c.
  all: repeat match goal with
         | |- context [(?a <? ?b)] =>
             replace (a <? b) with true by (symmetry; apply Nat.ltb_lt; lia)
         end.
  all: cbn [andb].
  all: rewrite ?A0, ?A1, ?A2 by lia.
  all: cbn [Sp.coef Sp.neg Sp.adjoint]; apply C_eq; simpl; lra.
Qed.

(** The adjoint relation of the derivative operators of a grid built without
    PML. *)
Lemma deriv_adjoint_built sh sp e bp pe ya sg :
  SimGrid.init sh sp e bp None pe ya = Ok sg ->
  forall df db,
    SimGrid.deriv sg false = Ok df -> SimGrid.deriv sg true = Ok db ->
    Forall2 (fun b f => Sp.meq b (Sp.neg (Sp.adjoint f))) db df.
Proof.
  intros Hinit.
  destruct (SimGrid_init_no_pml_inv _ _ _ _ _ _ _ Hinit)
    as (g & Hg & Hgrid & _ & Hblen & _ & Hdx).
  destruct (Grid_init_inv _ _ _ _ Hg) as (Hsh & Hnd & Hrange & _).
  destruct (Grid_init_cell_sizes _ _ _ _ Hg)
    as (s0 & s1 & s2 & a0 & a1 & a2 & Hs & Hcs).
  rewrite Hcs, meshgrid_uniform in Hdx.
  unfold map1 in Hdx. cbn [map shape data] in Hdx.
  rewrite !map_repeat in Hdx.
  destruct (list_length_3 (SimGrid.bloch sg ++ repeat Cone (3 - length sh)))
    as (c0 & c1 & c2 & Hb).
  { rewrite length_app, repeat_length. lia. }
  assert (Hs' : Grid.shape (SimGrid.grid sg)
                ++ repeat 1 (3 - Grid.ndim (SimGrid.grid sg)) = [s0; s1; s2])
    by (rewrite Hgrid, Hsh, Hnd; exact Hs).
  assert (Hb' : SimGrid.bloch sg
                ++ repeat Cone (3 - Grid.ndim (SimGrid.grid sg))
                = [c0; c1; c2])
    by (rewrite Hgrid, Hnd; exact Hb).
  destruct (deriv_uniform_adjoint sg s0 s1 s2 c0 c1 c2 a0 a1 a2 Hs' Hb' Hdx)
    as [_ Hadj].
  exact Hadj.
Qed.

(** X24.  Without PML the backward curl is the conjugate transpose of the
    forward curl: on every grid that [SimGrid.__init__] builds without PML,
    whatever the Bloch phases, with no empty axis, [curl_f] and [curl_b]
    are built as [3n x 3n] matrices and every coefficient of [curl_b] is
    the conjugate of the transposed coefficient of [curl_f]. *)
Theorem SimGrid_curl_b_adjoint (sh : list nat) (sp : Grid.spacing_arg)
    (e : Grid.eps_arg) (bp : SimGrid.bloch_arg) (pe : R) (ya : Z)
    (sg : SimGrid.t) :
  SimGrid.init sh sp e bp None pe ya = Ok sg ->
  Forall (fun n => 0 < n) sh ->
  exists cf cb,
    SimGridCurl.curl_f sg = Ok cf /\ SimGridCurl.curl_b sg = Ok cb /\
    Sp.nrows cf = 3 * prod sh /\ Sp.ncols cf = 3 * prod sh /\
    Sp.nrows cb = 3 * prod sh /\ Sp.ncols cb = 3 * prod sh /\
    forall i j, i < 3 * prod sh -> j < 3 * prod sh ->
                Sp.coef cb i j = Cconj (Sp.coef cf j i).
Proof.
  intros Hinit Hpos.
  destruct (deriv_dims _ _ _ _ _ _ _ _ false Hinit Hpos)
    as (f0 & f1 & f2 & Hdf & Hfd).
  destruct (deriv_dims _ _ _ _ _ _ _ _ true Hinit Hpos)
    as (b0 & b1 & b2 & Hdb & Hbd).
  pose proof (deriv_adjoint_built _ _ _ _ _ _ _ Hinit _ _ Hdf Hdb) as Hadj.
  unfold SimGridCurl.curl_f, SimGridCurl.curl_b, SimGrid.df, SimGrid.db.
  rewrite Hdf, Hdb. unfold mbind, result_bind.
  destruct (d2curl_op_dims _ _ _ _ Hfd) as (cf & Hcf & Hcfr & Hcfc).
  destruct (d2curl_op_dims _ _ _ _ Hbd) as (cb & Hcb & Hcbr & Hcbc).
  rewrite Hcf, Hcb. exists cf, cb. repeat split; trivial.
  exact (d2curl_op_adjoint _ _ _ _ _ _ _ _ _ Hbd Hfd Hadj Hcb Hcf).
Qed.


Lemma SimGrid_curl_b_adjoint_witness :
  exists sg cf cb,
    SimGrid.init [2; 3] (Grid.SpacingFloat 1) (Grid.EpsFloat 1)
      (SimGrid.BlochFloat 0) None 1 1 = Ok sg /\
    SimGridCurl.curl_f sg = Ok cf /\ SimGridCurl.curl_b sg = Ok cb /\
    Sp.coef cb 0 7 = Cconj (Sp.coef cf 7 0).
Proof.
  assert (Hsg := SimGrid_init_float [2; 3] 1 1 1 1
                   ltac:(simpl; lia) ltac:(lra)).
  cbv zeta in Hsg.
  destruct (SimGrid_curl_b_adjoint [2; 3] _ _ _ _ _ _ Hsg
              ltac:(repeat constructor))
    as (cf & cb & Hcf & Hcb & _ & _ & _ & _ & Hadj).
  eexists. exists cf, cb. split; [exact Hsg|].
  split; [exact Hcf|]. split; [exact Hcb|]. apply Hadj; simpl; lia.
Defined.




(** ** [FDFD.solve]: the default call in three dimensions *)

(** X26.  On a three-dimensional grid, [solve] with a full source and its
    defaults ([solver_fn=None], [iterative=-1], [reshaped=True]) never
    returns: the iterative solver gives a pair [(x, info)], which
    [Grid.reshape] cannot take, so whatever the operators and the solvers do
    the call ends in an exception.  With [reshaped=False] it returns the
    pair of [bicgstab], preconditioned with [spilu], when the operator is
    built and both succeed. *)
Theorem FDFD_solve_3d_default
    (spsolve_pardiso : Sp.spmatrix -> list C -> string + list C)
    (Precond : Type) (spilu : Sp.spmatrix -> string + Precond)
    (gmres bicgstab :
       Sp.spmatrix -> list C -> Precond -> string + (list C * Z))
    (self : FDFD.t) (eps_t : ndarray R) (src : ndarray C) :
  FDFD.ndim self = 3 ->
  Np.size src = FDFD.n self * 3 ->
  (exists e,
     FDFD.solve spsolve_pardiso Precond spilu gmres bicgstab
       self eps_t src None true (-1)
     = Raise e) /\
  (forall A k M x info,
     FDFD.mat self eps_t = Ok A ->
     FDFD.k0 self = Ok k ->
     spilu A = inr M ->
     bicgstab A (map (Cmul (RtoC k)) (data src)) M = inr (x, info) ->
     FDFD.solve spsolve_pardiso Precond spilu gmres bicgstab
       self eps_t src None false (-1)
     = Ok (FDFD.SolverPair x info)).
Proof.
  intros Hnd Hsize. unfold FDFD.solve.
  destruct (FDFD.k0 self) as [k|ek];
    [|split; [eexists; reflexivity | discriminate]].
  rewrite !rbind_ret.
  cbn [flatten of_list data]. rewrite length_map. fold (Np.size src).
  rewrite Hsize, Nat.eqb_refl, Hnd.
  change ((-1 =? -1)%Z) with true. change ((-1 =? 1)%Z) with false.
  rewrite bool_decide_eq_false_2 by (intros [? ?]; discriminate).
  cbn [negb andb Nat.eqb]. unfold mbind, result_bind.
  split.
  - destruct (FDFD.mat self eps_t) as [A|ex]; [|eauto].
    destruct (FDFD.call_ext (spilu A)) as [M|ex]; [|eauto].
    destruct (FDFD.call_ext (bicgstab A _ M)) as [[x info]|ex]; eauto.
  - intros A k' M x info HA [= <-] HM Hx. rewrite HA, HM. cbn [FDFD.call_ext].
    rewrite Hx. reflexivity.
Qed.

Lemma FDFD_solve_3d_default_witness :
  exists sg et,
    SimGrid.init [1; 1; 1] (Grid.SpacingFloat 1) (Grid.EpsFloat 1)
      (SimGrid.BlochFloat 0) None 1 0 = Ok sg /\
    SimGrid.eps_t_body sg = Ok et /\
    exists e,
      FDFD.solve (fun _ _ => inl "not called") unit
        (fun _ => inr tt) (fun _ _ _ => inl "not called")
        (fun _ _ _ => inr ([Cone; Cone; Cone], 0%Z)) (FDFD.mk sg 1) et
        (of_list [Cone; Cone; Cone]) None true (-1)
      = Raise e.
Proof.
  assert (Hsg := SimGrid_init_float [1; 1; 1] 1 1 1 0
                   ltac:(simpl; lia) ltac:(lra)).
  cbv zeta in Hsg.
  eexists. eexists. split; [exact Hsg|].
  split; [vm_compute; reflexivity|].
  apply (FDFD_solve_3d_default (fun _ _ => inl "not called") unit
           (fun _ => inr tt) (fun _ _ _ => inl "not called")
           (fun _ _ _ => inr ([Cone; Cone; Cone], 0%Z))); reflexivity.
Defined.

(** ** [eps_t] stays within the range of [eps] *)

Lemma Forall_flat_map_lookup {A} (P : A -> Prop) (l : list A)
    (f : nat -> nat) (L : list nat) :
  Forall P l -> Forall P (flat_map (fun p => option_list (l !! f p)) L).
Proof.
  intros Hl. apply Forall_forall. intros x Hx.
  apply in_flat_map in Hx. destruct Hx as (p & _ & Hx).
  destruct (l !! f p) as [y|] eqn:E; simpl in Hx; [|contradiction].
  destruct Hx as [<- | []].
  rewrite Forall_forall in Hl. apply Hl.
  apply list_elem_of_In. eapply list_elem_of_lookup_2. exact E.
Qed.

Lemma Forall_zip_with_plus (a b c d : R) (l1 l2 : list R) :
  Forall (fun x => (a <= x <= b)%R) l1 ->
  Forall (fun x => (c <= x <= d)%R) l2 ->
  Forall (fun x => (a + c <= x <= b + d)%R) (zip_with Rplus l1 l2).
Proof.
  intros H1. revert l2. induction H1 as [|x l1 Hx _ IH]; intros l2 H2.
  - constructor.
  - destruct H2 as [|y l2 Hy H2]; simpl; constructor; [lra | now apply IH].
Qed.

Lemma Forall_map_div (k lo hi : R) (l : list R) :
  (0 < k)%R ->
  Forall (fun x => (k * lo <= x <= k * hi)%R) l ->
  Forall (fun x => (lo <= x <= hi)%R) (map (fun x => (x / k)%R) l).
Proof.
  intros Hk H. apply Forall_map. eapply Forall_impl; [|exact H].
  intros x [H1 H2]. simpl. split.
  - apply Rmult_le_reg_r with k; [exact Hk|]. unfold Rdiv.
    rewrite Rmult_assoc, Rinv_l by lra. lra.
  - apply Rmult_le_reg_r with k; [exact Hk|]. unfold Rdiv.
    rewrite Rmult_assoc, Rinv_l by lra. lra.
Qed.

Lemma avg2_bounds (lo hi : R) (p q : ndarray R) :
  Forall (fun x => (lo <= x <= hi)%R) (data p) ->
  Forall (fun x => (lo <= x <= hi)%R) (data q) ->
  Forall (fun x => (lo <= x <= hi)%R)
         (data (map1 (fun x => (x / 2)%R) (map2 Rplus p q))).
Proof.
  intros Hp Hq. unfold map1, map2. cbn [data].
  apply Forall_map_div; [lra|].
  eapply Forall_impl; [|apply (Forall_zip_with_plus _ _ _ _ _ _ Hp Hq)].
  simpl. intros x [? ?]. lra.
Qed.

Lemma stack3_data {A} (p q r et : ndarray A) :
  stack [p; q; r] = Ok et -> data et = data p ++ data q ++ data r.
Proof.
  unfold stack. destruct (forallb _ _); intros H; [|discriminate].
  injection H as <-. cbn [data map concat]. now rewrite app_nil_r.
Qed.

Lemma yee_avg_bounds (lo hi : R) (params et : ndarray R) (shift : Z) :
  Utils.yee_avg params shift = Ok et ->
  Forall (fun x => (lo <= x <= hi)%R) (data params) ->
  Forall (fun x => (lo <= x <= hi)%R) (data et).
Proof.
  intros Het Hp. unfold Utils.yee_avg in Het.
  assert (Hroll : forall (a : ndarray R) ax,
            Forall (fun x => (lo <= x <= hi)%R) (data a) ->
            Forall (fun x => (lo <= x <= hi)%R) (data (roll a shift ax))).
  { intros a ax Ha. unfold roll. cbn [data].
    now apply Forall_flat_map_lookup. }
  destruct (Np.ndim params =? 1).
  - apply stack3_data in Het. rewrite Het.
    assert (Hq : Forall (fun x => (lo <= x <= hi)%R)
                   (data (map1 (fun x => (x / 3)%R)
                            (map2 Rplus
                               (map2 Rplus params (roll_flat params shift))
                               (roll_flat params (- shift)))))).
    { unfold map1, map2. cbn [data].
      apply Forall_map_div; [lra|].
      eapply Forall_impl;
        [|apply (Forall_zip_with_plus (lo + lo) (hi + hi) lo hi)].
      - simpl. intros x [? ?]. lra.
      - apply Forall_zip_with_plus; [exact Hp|].
        unfold roll_flat. cbn [data]. now apply Forall_flat_map_lookup.
      - unfold roll_flat. cbn [data]. now apply Forall_flat_map_lookup. }
    rewrite !Forall_app. auto.
  - apply stack3_data in Het. rewrite Het.
    set (p := if Np.ndim params =? 2 then newaxis_last params else params)
      in *.
    assert (Hp' : Forall (fun x => (lo <= x <= hi)%R) (data p)).
    { subst p. destruct (Np.ndim params =? 2); exact Hp. }
    assert (Hy : Forall (fun x => (lo <= x <= hi)%R)
                   (data (map1 (fun x => (x / 2)%R)
                            (map2 Rplus p (roll p shift 0)))))
      by (apply avg2_bounds; auto).
    rewrite !Forall_app. repeat split.
    + apply avg2_bounds; auto.
    + exact Hy.
    + apply avg2_bounds; auto.
Qed.

(** X27.  In exact arithmetic [eps_t] stays within the range of [eps]: on
    every grid that [SimGrid.__init__] builds, with one [eps] value per
    cell, [eps_t] is built and every one of its values lies between any two
    bounds that hold for all values of [eps], with or without Yee
    averaging; a positive permittivity thus stays positive.  (In binary64
    the one-dimensional average of three values can leave the range by a
    rounding error.) *)
Theorem SimGrid_eps_t_bounds (sh : list nat) (sp : Grid.spacing_arg)
    (e : Grid.eps_arg) (bp : SimGrid.bloch_arg) (pml : option SimGrid.pml_arg)
    (pe : R) (ya : Z) (sg : SimGrid.t) (lo hi : R) :
  SimGrid.init sh sp e bp pml pe ya = Ok sg ->
  Np.wf (Grid.eps (SimGrid.grid sg)) ->
  Forall (fun x => (lo <= x <= hi)%R) (data (Grid.eps (SimGrid.grid sg))) ->
  exists et,
    SimGrid.eps_t_body sg = Ok et /\
    Forall (fun x => (lo <= x <= hi)%R) (data et).
Proof.
  intros Hinit Hwf Hb.
  destruct (eps_t_body_shape _ _ _ _ _ _ _ _ Hinit Hwf) as (et & Het & _).
  exists et. split; [exact Het|].
  unfold SimGrid.eps_t_body in Het.
  destruct (0 <? SimGrid.yee_avg sg)%Z.
  - exact (yee_avg_bounds lo hi _ _ _ Het Hb).
  - apply stack3_data in Het. rewrite Het, !Forall_app. auto.
Qed.

Lemma SimGrid_eps_t_bounds_witness :
  exists sg et,
    SimGrid.init [2; 3] (Grid.SpacingFloat 1) (Grid.EpsFloat 4)
      (SimGrid.BlochFloat 0) None 1 1 = Ok sg /\
    SimGrid.eps_t_body sg = Ok et /\
    Forall (fun x => (1 <= x <= 12)%R) (data et).
Proof.
  assert (Hsg := SimGrid_init_float [2; 3] 1 4 1 1
                   ltac:(simpl; lia) ltac:(lra)).
  cbv zeta in Hsg.
  destruct (SimGrid_eps_t_bounds [2; 3] _ _ _ _ _ _ _ 1 12 Hsg eq_refl)
    as (et & Het & Hb).
  { simpl. repeat constructor; lra. }
  eexists. exists et. split; [exact Hsg|]. split; assumption.
Defined.

(** ** [Grid.__init__]: the two dimension checks *)

(** X28.  [Grid.__init__] raises [AttributeError] exactly when the shape
    has at most three axes and either [spacing] is a sequence whose length
    differs from the number of axes, or [eps] is an array whose shape is
    not the grid's; a float [spacing] and a float [eps] never raise it.
    A shape of more than three axes raises [ValueError] before these
    checks. *)
Theorem Grid_init_attribute_error (sh : list nat) (sp : Grid.spacing_arg)
    (e : Grid.eps_arg) :
  (3 < length sh ->
   exists msg, Grid.init sh sp e = Raise (ValueError msg)) /\
  (length sh <= 3 ->
   ((exists msg, Grid.init sh sp e = Raise (AttributeError msg)) <->
    (match sp with
     | Grid.SpacingSeq dxs => length dxs <> length sh
     | Grid.SpacingFloat _ => False
     end \/
     match e with
     | Grid.EpsArray a => shape a <> sh
     | Grid.EpsFloat _ => False
     end))).
Proof.
  unfold Grid.init. split; intros Hlen.
  - replace (3 <? length sh) with true by (symmetry; apply Nat.ltb_lt; lia).
    eauto.
  - replace (3 <? length sh) with false by (symmetry; apply Nat.ltb_ge; lia).
    set (spacing := match sp with
                    | Grid.SpacingFloat dx => repeat dx (length sh)
                    | Grid.SpacingSeq dxs => dxs
                    end).
    set (eps := match e with
                | Grid.EpsFloat x => full sh x
                | Grid.EpsArray a => a
                end).
    assert (Hsp : length spacing <> length sh <->
                  match sp with
                  | Grid.SpacingSeq dxs => length dxs <> length sh
                  | Grid.SpacingFloat _ => False
                  end).
    { subst spacing. destruct sp as [dx | dxs]; [|reflexivity].
      rewrite repeat_length. split; [congruence | contradiction]. }
    assert (He : shape eps <> sh <->
                 match e with
                 | Grid.EpsArray a => shape a <> sh
                 | Grid.EpsFloat _ => False
                 end).
    { subst eps. destruct e as [x | a]; [|reflexivity].
      unfold full. cbn [shape]. split; [congruence | contradiction]. }
    rewrite <- Hsp, <- He. clear Hsp He.
    destruct (length sh =? length spacing) eqn:E1; cbn [negb].
    + apply Nat.eqb_eq in E1.
      unfold list_eqb.
      destruct (bool_decide (sh = shape eps)) eqn:E2; cbn [negb].
      * apply bool_decide_eq_true in E2.
        split.
        -- intros [msg H].
           destruct (length sh =? 0); [discriminate|].
           destruct (existsb _ _); discriminate.
        -- intros [H | H]; [lia | congruence].
      * apply bool_decide_eq_false in E2.
        split; [intros _; right; congruence | eauto].
    + apply Nat.eqb_neq in E1. split; [intros _; left; lia | eauto].
Qed.

Lemma Grid_init_attribute_error_witness :
  (exists msg,
     Grid.init [2; 3] (Grid.SpacingSeq [1%R]) (Grid.EpsFloat 1)
     = Raise (AttributeError msg)) /\
  (exists msg,
     Grid.init [2; 3] (Grid.SpacingFloat 1) (Grid.EpsArray (full [3; 2] 1%R))
     = Raise (AttributeError msg)).
Proof.
  split.
  - apply (Grid_init_attribute_error [2; 3] (Grid.SpacingSeq [1%R])
             (Grid.EpsFloat 1)).
    + simpl. lia.
    + left. simpl. lia.
  - apply (Grid_init_attribute_error [2; 3] (Grid.SpacingFloat 1)
             (Grid.EpsArray (full [3; 2] 1%R))).
    + simpl. lia.
    + right. simpl. discriminate.
Defined.

(** ** [FDFD.solve]: a full source, solved directly *)

Lemma Grid_reshape_flat_raises {A} (g : Grid.t) (l : list A) :
  length l <> 3 * prod (Grid.shape3 g) ->
  exists msg, Grid.reshape g (of_list l) = Raise (ValueError msg).
Proof.
  intros Hs. unfold Grid.reshape.
  change (Np.ndim (of_list l)) with 1. cbn [Nat.eqb].
  unfold Np.split. change (size (of_list l)) with (length l).
  change (data (of_list l)) with l.
  destruct (length l mod 3 =? 0) eqn:Em; [|simpl; eauto].
  apply Nat.eqb_eq in Em. cbn [mbind result_bind].
  assert (Hdiv : length l = 3 * (length l / 3)).
  { pose proof (Nat.div_mod_eq (length l) 3). lia. }
  assert (Hne : length l / 3 <> prod (Grid.shape3 g)) by lia.
  unfold chunks. cbn [map map_result].
  assert (Hf : length (firstn (length l / 3) l) = length l / 3).
  { rewrite length_firstn. lia. }
  assert (Hr : Np.reshape (of_list (firstn (length l / 3) l))
                 (Grid.shape3 g)
               = Raise (ValueError "cannot reshape array")).
  { unfold Np.reshape, size. cbn [data of_list]. rewrite Hf.
    replace (prod (Grid.shape3 g) =? length l / 3) with false
      by (symmetry; apply Nat.eqb_neq; lia).
    reflexivity. }
  rewrite Hr. simpl. eauto.
Qed.

(** X29.  For a source of [3 n] elements, with a [solver_fn] given, or
    [iterative] other than [-1], or a grid that is not three-dimensional,
    [solve] builds [mat] once and hands it with [k0 * src.flatten()] to
    [solver_fn], or to [spsolve_pardiso] when there is none.  With
    [reshaped=False] it returns the solver's vector as it is; with
    [reshaped=True] it returns it in the shape [(3, *shape3)] when it has
    three values per cell, and raises [ValueError] otherwise. *)
Theorem FDFD_solve_full_source
    (spsolve_pardiso : Sp.spmatrix -> list C -> string + list C)
    (Precond : Type) (spilu : Sp.spmatrix -> string + Precond)
    (gmres bicgstab :
       Sp.spmatrix -> list C -> Precond -> string + (list C * Z))
    (self : FDFD.t) (eps_t : ndarray R) (src : ndarray C)
    (solver_fn : option (Sp.spmatrix -> list C -> string + list C))
    (iterative : Z) (A : Sp.spmatrix) (k : R) (x : list C) :
  Np.size src = FDFD.n self * 3 ->
  (iterative <> (-1)%Z \/ is_Some solver_fn \/ FDFD.ndim self <> 3) ->
  FDFD.mat self eps_t = Ok A ->
  FDFD.k0 self = Ok k ->
  match solver_fn with
  | Some f => f A (map (Cmul (RtoC k)) (data src))
  | None => spsolve_pardiso A (map (Cmul (RtoC k)) (data src))
  end = inr x ->
  let g := SimGrid.grid (FDFD.sim self) in
  let solve := FDFD.solve spsolve_pardiso Precond spilu gmres bicgstab
                          self eps_t src solver_fn in
  solve false iterative = Ok (FDFD.Field (of_list x)) /\
  (length x = 3 * prod (Grid.shape3 g) ->
   solve true iterative
   = Ok (FDFD.Field (mk_ndarray (3 :: Grid.shape3 g) x))) /\
  (length x <> 3 * prod (Grid.shape3 g) ->
   exists msg, solve true iterative = Raise (ValueError msg)).
Proof.
  intros Hsize Hdirect HA Hk Hsol g solve. subst solve.
  unfold FDFD.solve. rewrite Hk, !rbind_ret.
  cbn [flatten of_list data]. rewrite length_map.
  fold (Np.size src). rewrite Hsize, Nat.eqb_refl.
  assert (Hc : (iterative =? -1)%Z
               && negb (bool_decide (is_Some solver_fn))
               && (FDFD.ndim self =? 3) = false).
  { destruct Hdirect as [H | [H | H]].
    - replace (iterative =? -1)%Z with false
        by (symmetry; apply Z.eqb_neq; exact H).
      reflexivity.
    - rewrite bool_decide_eq_true_2 by exact H. cbn [negb].
      now rewrite andb_false_r.
    - replace (FDFD.ndim self =? 3) with false
        by (symmetry; apply Nat.eqb_neq; exact H).
      now rewrite andb_false_r. }
  rewrite Hc, HA. unfold mbind, result_bind. rewrite Hsol.
  cbn [FDFD.call_ext]. split; [reflexivity|]. split.
  - intros Hlen. fold g. now rewrite (Grid_reshape_flat g x Hlen).
  - intros Hlen. fold g.
    destruct (Grid_reshape_flat_raises g x Hlen) as [msg ->]. eauto.
Qed.

Lemma FDFD_solve_full_source_witness :
  exists sg et A,
    SimGrid.init [2] (Grid.SpacingFloat 1) (Grid.EpsFloat 1)
      (SimGrid.BlochFloat 0) None 1 1 = Ok sg /\
    SimGrid.eps_t_body sg = Ok et /\
    FDFD.mat (FDFD.mk sg 1) et = Ok A /\
    FDFD.solve (fun _ _ => inl "not called") unit
      (fun _ => inl "not called") (fun _ _ _ => inl "not called")
      (fun _ _ _ => inl "not called") (FDFD.mk sg 1) et
      (of_list [Cone; Cone; Cone; Cone; Cone; Cone])
      (Some (fun _ _ => inr [Ci; Cone; Ci; Cone; Ci; Cone])) true 0%Z
    = Ok (FDFD.Field (mk_ndarray [3; 2; 1; 1]
                        [Ci; Cone; Ci; Cone; Ci; Cone])).
Proof.
  assert (Hsg := SimGrid_init_float [2] 1 1 1 1
                   ltac:(simpl; lia) ltac:(lra)).
  cbv zeta in Hsg.
  match type of Hsg with
  | _ = Ok ?sg =>
      pose proof (eps_t_body_full sg 1%R eq_refl ltac:(simpl; lia)
                  : SimGrid.eps_t_body sg = Ok (full [3; 2] 1%R))
        as Het;
      destruct (mat_matz_built [2] _ _ _ _ _ _ sg 1%R _ Hsg
                  ltac:(repeat constructor) eq_refl Het ltac:(lra))
        as [(A & HA & _) _];
      pose proof (k0_ok (FDFD.mk sg 1) ltac:(cbn [FDFD.wavelength]; lra))
        as Hk;
      destruct (FDFD_solve_full_source (fun _ _ => inl "not called") unit
                  (fun _ => inl "not called") (fun _ _ _ => inl "not called")
                  (fun _ _ _ => inl "not called") (FDFD.mk sg 1) _
                  (of_list [Cone; Cone; Cone; Cone; Cone; Cone])
                  (Some (fun _ _ => inr [Ci; Cone; Ci; Cone; Ci; Cone])) 0%Z
                  A _ [Ci; Cone; Ci; Cone; Ci; Cone]
                  eq_refl ltac:(left; lia) HA Hk eq_refl)
        as (_ & H & _)
  end.
  eexists. eexists. exists A. split; [exact Hsg|]. split; [exact Het|].
  split; [exact HA|]. apply H. reflexivity.
Defined.

(** ** [overlap] does not depend on the normalisation of the first mode *)

Lemma flat_map_lookup_fmap {A B} (f : A -> B) (l : list A)
    (src : nat -> nat) (L : list nat) :
  flat_map (fun p => option_list (map f l !! src p)) L
  = map f (flat_map (fun p => option_list (l !! src p)) L).
Proof.
  induction L as [|p L IH]; [reflexivity|].
  cbn [flat_map]. rewrite map_app, IH. f_equal.
  rewrite list_lookup_fmap. destruct (l !! src p); reflexivity.
Qed.

Lemma getitem_map1 {A B} (f : A -> B) (a : ndarray A) (i : Z) :
  getitem (map1 f a) i = (x ← getitem a i; Ret (map1 f x)).
Proof.
  unfold getitem, map1. cbn [shape data].
  destruct (shape a) as [|n s]; [reflexivity|].
  destruct (_ && _); [|reflexivity].
  cbn [mbind py_bind shape data]. do 2 f_equal.
  now rewrite skipn_map, firstn_map.
Qed.

Lemma roll_axis_map1 {A B} (f : A -> B) (a : ndarray A) (shift axis : Z) :
  roll_axis (map1 f a) shift axis
  = (r ← roll_axis a shift axis; Ret (map1 f r)).
Proof.
  unfold roll_axis, Np.ndim, map1. cbn [shape].
  destruct (_ && _); [|reflexivity].
  cbn [mbind py_bind]. f_equal. unfold roll, size. cbn [shape data].
  f_equal. rewrite length_map. apply flat_map_lookup_fmap.
Qed.

Lemma broadcast2_map1 {A A' B B' D D'} (g : A -> B -> D) (g' : A' -> B' -> D')
    (f1 : A -> A') (f2 : B -> B') (f3 : D -> D')
    (a : ndarray A) (b : ndarray B) :
  (forall x y, g' (f1 x) (f2 y) = f3 (g x y)) ->
  broadcast2 g' (map1 f1 a) (map1 f2 b)
  = (r ← broadcast2 g a b; Ret (map1 f3 r)).
Proof.
  intros H. unfold broadcast2, map1. cbn [shape data].
  destruct (broadcast_shapes (shape a) (shape b)) as [o|]; [|reflexivity].
  cbn [mbind py_bind shape data]. do 2 f_equal.
  induction (seq 0 (prod o)) as [|p L IH]; [reflexivity|].
  cbn [flat_map]. rewrite map_app, IH. f_equal.
  rewrite !list_lookup_fmap.
  destruct (data a !! _) as [x|]; [|reflexivity].
  destruct (data b !! _) as [y|]; cbn; [|reflexivity].
  now rewrite H.
Qed.

Lemma map1_id {A} (a : ndarray A) : map1 (fun x => x) a = a.
Proof. destruct a as [s l]. unfold map1. cbn. now rewrite map_id. Qed.

Lemma stack2_map1 {A B} (f : A -> B) (a b : ndarray A) :
  lift (stack [map1 f a; map1 f b])
  = (c ← lift (stack [a; b]); Ret (map1 f c)).
Proof.
  unfold stack, map1. cbn [forallb shape data].
  destruct (_ && _); [|reflexivity].
  cbn [lift mbind py_bind map concat shape data length].
  do 2 f_equal. now rewrite !map_app.
Qed.

Lemma avg_map1 (f : C -> C) (e : ndarray C) (i axis : Z) :
  (forall x y, Cadd (f x) (f y) = f (Cadd x y)) ->
  (forall z, Cdiv (f z) (RtoC 2) = f (Cdiv z (RtoC 2))) ->
  Fields.avg (map1 f e) i axis = (x ← Fields.avg e i axis; Ret (map1 f x)).
Proof.
  intros Hadd Hdiv. unfold Fields.avg. rewrite !getitem_map1.
  destruct (getitem e i) as [x|]; cbn [mbind py_bind]; [|reflexivity].
  rewrite roll_axis_map1.
  destruct (roll_axis x 1 axis) as [r|]; cbn [mbind py_bind]; [|reflexivity].
  rewrite (broadcast2_map1 Cadd Cadd f f f x r Hadd).
  destruct (broadcast2 Cadd x r) as [s|]; cbn [mbind py_bind];
    [|reflexivity].
  f_equal. unfold map1. cbn [shape data]. f_equal.
  rewrite !map_map. apply map_ext. intros z. apply Hdiv.
Qed.

Lemma Cmul_add_distr (c x y : C) :
  Cadd (Cmul c x) (Cmul c y) = Cmul c (Cadd x y).
Proof. apply C_eq; simpl; ring. Qed.

Lemma Cmul_div2 (c z : C) :
  Cdiv (Cmul c z) (RtoC 2) = Cmul c (Cdiv z (RtoC 2)).
Proof. apply C_eq; unfold Cdiv, Cinv; simpl; field. Qed.

Lemma map1_map1 {A B D} (f : A -> B) (g : B -> D) (a : ndarray A) :
  map1 g (map1 f a) = map1 (fun x => g (f x)) a.
Proof. unfold map1. cbn [shape data]. now rewrite map_map. Qed.

(** The Poynting vector is linear in the electric field, and conjugate
    linear in the magnetic field. *)
Lemma poynting_scale_e (axis : Z) (c : C) (e h : ndarray C) :
  Fields.poynting_fn axis (map1 (Cmul c) e) h
  = (p ← Fields.poynting_fn axis e h; Ret (map1 (Cmul c) p)).
Proof.
  unfold Fields.poynting_fn. cbv zeta.
  set (ax0 := nth 0 (Fields.ax_of axis) 0%Z).
  set (ax1 := nth 1 (Fields.ax_of axis) 0%Z).
  rewrite !(avg_map1 (Cmul c) e)
    by (intros; first [apply Cmul_add_distr | apply Cmul_div2]).
  destruct (Fields.avg e ax0 1) as [e0|]; cbn [mbind py_bind]; [|reflexivity].
  destruct (Fields.avg e ax1 0) as [e1|]; cbn [mbind py_bind]; [|reflexivity].
  rewrite stack2_map1.
  destruct (lift (stack [e0; e1])) as [ec|]; cbn [mbind py_bind];
    [|reflexivity].
  destruct (Fields.avg h ax0 0) as [h0|]; cbn [mbind py_bind]; [|reflexivity].
  destruct (Fields.avg h ax1 1) as [h1|]; cbn [mbind py_bind]; [|reflexivity].
  destruct (lift (stack [h0; h1])) as [hc|]; cbn [mbind py_bind];
    [|reflexivity].
  rewrite !getitem_map1.
  destruct (getitem ec ax0) as [a|]; cbn [mbind py_bind]; [|reflexivity].
  destruct (getitem hc ax1) as [b|]; cbn [mbind py_bind]; [|reflexivity].
  rewrite <- (map1_id (map1 Cconj b)) at 1.
  rewrite (broadcast2_map1 Cmul Cmul (Cmul c) (fun x => x) (Cmul c))
    by (intros; apply C_eq; simpl; ring).
  destruct (broadcast2 Cmul a (map1 Cconj b)) as [ab|]; cbn [mbind py_bind];
    [|reflexivity].
  destruct (getitem ec ax1) as [a'|]; cbn [mbind py_bind]; [|reflexivity].
  destruct (getitem hc ax0) as [b'|]; cbn [mbind py_bind]; [|reflexivity].
  rewrite <- (map1_id (map1 Cconj b')) at 1.
  rewrite (broadcast2_map1 Cmul Cmul (Cmul c) (fun x => x) (Cmul c))
    by (intros; apply C_eq; simpl; ring).
  destruct (broadcast2 Cmul a' (map1 Cconj b')) as [cd|];
    cbn [mbind py_bind]; [|reflexivity].
  rewrite (broadcast2_map1 Csub Csub (Cmul c) (Cmul c) (Cmul c))
    by (intros; apply C_eq; simpl; ring).
  reflexivity.
Qed.

Lemma conj_scale (c : C) (b : ndarray C) :
  map1 Cconj (map1 (Cmul c) b) = map1 (Cmul (Cconj c)) (map1 Cconj b).
Proof.
  rewrite !map1_map1. unfold map1. f_equal. apply map_ext.
  intros x. apply C_eq; simpl; ring.
Qed.

Lemma poynting_scale_h (axis : Z) (c : C) (e h : ndarray C) :
  Fields.poynting_fn axis e (map1 (Cmul c) h)
  = (p ← Fields.poynting_fn axis e h; Ret (map1 (Cmul (Cconj c)) p)).
Proof.
  unfold Fields.poynting_fn. cbv zeta.
  set (ax0 := nth 0 (Fields.ax_of axis) 0%Z).
  set (ax1 := nth 1 (Fields.ax_of axis) 0%Z).
  destruct (Fields.avg e ax0 1) as [e0|]; cbn [mbind py_bind]; [|reflexivity].
  destruct (Fields.avg e ax1 0) as [e1|]; cbn [mbind py_bind]; [|reflexivity].
  destruct (lift (stack [e0; e1])) as [ec|]; cbn [mbind py_bind];
    [|reflexivity].
  rewrite !(avg_map1 (Cmul c) h)
    by (intros; first [apply Cmul_add_distr | apply Cmul_div2]).
  destruct (Fields.avg h ax0 0) as [h0|]; cbn [mbind py_bind]; [|reflexivity].
  destruct (Fields.avg h ax1 1) as [h1|]; cbn [mbind py_bind]; [|reflexivity].
  rewrite stack2_map1.
  destruct (lift (stack [h0; h1])) as [hc|]; cbn [mbind py_bind];
    [|reflexivity].
  rewrite conj_scale. rewrite !getitem_map1.
  destruct (getitem ec ax0) as [a|]; cbn [mbind py_bind]; [|reflexivity].
  destruct (getitem hc ax1) as [b|]; cbn [mbind py_bind]; [|reflexivity].
  rewrite <- (map1_id a) at 1.
  rewrite (broadcast2_map1 Cmul Cmul (fun x => x) (Cmul (Cconj c))
             (Cmul (Cconj c)))
    by (intros; apply C_eq; simpl; ring).
  destruct (broadcast2 Cmul a (map1 Cconj b)) as [ab|]; cbn [mbind py_bind];
    [|reflexivity].
  destruct (getitem ec ax1) as [a'|]; cbn [mbind py_bind]; [|reflexivity].
  destruct (getitem hc ax0) as [b'|]; cbn [mbind py_bind]; [|reflexivity].
  rewrite <- (map1_id a') at 1.
  rewrite (broadcast2_map1 Cmul Cmul (fun x => x) (Cmul (Cconj c))
             (Cmul (Cconj c)))
    by (intros; apply C_eq; simpl; ring).
  destruct (broadcast2 Cmul a' (map1 Cconj b')) as [cd|];
    cbn [mbind py_bind]; [|reflexivity].
  rewrite (broadcast2_map1 Csub Csub (Cmul (Cconj c)) (Cmul (Cconj c))
             (Cmul (Cconj c)))
    by (intros; apply C_eq; simpl; ring).
  reflexivity.
Qed.

Lemma sum_scale (c : C) (p : ndarray C) :
  NpIx.sum (map1 (Cmul c) p) = Cmul c (NpIx.sum p).
Proof.
  unfold NpIx.sum, map1. cbn [data].
  induction (data p) as [|x l IH]; simpl.
  - apply C_eq; simpl; ring.
  - rewrite IH. apply C_eq; simpl; ring.
Qed.

Lemma Reqb_scale (n x : R) : n <> 0%R -> Reqb (n * x) 0 = Reqb x 0.
Proof.
  intros Hn. unfold Reqb.
  destruct (Req_dec_T (n * x) 0) as [H | H], (Req_dec_T x 0) as [H' | H'];
    try reflexivity.
  - apply Rmult_integral in H. destruct H; contradiction.
  - exfalso. apply H. rewrite H'. ring.
Qed.

Lemma cdivide_scale (c a b d : C) :
  (Re c <> 0 \/ Im c <> 0)%R ->
  cdivide (Cmul (Cmul c a) (Cmul (Cconj c) b)) (Cmul c (Cmul (Cconj c) d))
  = cdivide (Cmul a b) d.
Proof.
  intros Hc.
  assert (Hn : (Re c * Re c + Im c * Im c <> 0)%R) by (destruct Hc; nra).
  unfold cdivide.
  replace (Re (Cmul c (Cmul (Cconj c) d)))
    with ((Re c * Re c + Im c * Im c) * Re d)%R by (simpl; ring).
  replace (Im (Cmul c (Cmul (Cconj c) d)))
    with ((Re c * Re c + Im c * Im c) * Im d)%R by (simpl; ring).
  rewrite !Reqb_scale by exact Hn.
  destruct (Reqb (Re d) 0 && Reqb (Im d) 0) eqn:E; [reflexivity|].
  assert (Hd : (Re d * Re d + Im d * Im d <> 0)%R).
  { apply andb_false_iff in E. unfold Reqb in E.
    destruct (Req_dec_T (Re d) 0), (Req_dec_T (Im d) 0);
      destruct E; try discriminate; nra. }
  f_equal. destruct c as [cr ci], d as [dr di], a as [ar ai], b as [br bi].
  simpl in *.
  apply C_eq; unfold Cdiv, Cinv, Cmul, Cconj; simpl; field;
    (split; [exact Hd|]);
    match goal with
    | |- (?x <> 0)%R =>
        replace x
          with ((cr * cr + ci * ci)
                * ((cr * cr + ci * ci) * (dr * dr + di * di)))%R by ring
    end;
    repeat apply Rmult_integral_contrapositive_currified; assumption.
Qed.

(** X30.  [overlap] does not depend on the normalisation or the phase of
    the first mode: multiplying [e1] and [h1] by one complex number other
    than zero leaves [overlap(e1, h1, e2, h2)] unchanged, exceptions and
    non-finite results included (exact arithmetic). *)
Theorem overlap_scale_invariant (c : C) (e1 h1 e2 h2 : ndarray C) :
  (Re c <> 0 \/ Im c <> 0)%R ->
  Fields.overlap (map1 (Cmul c) e1) (map1 (Cmul c) h1) e2 h2
  = Fields.overlap e1 h1 e2 h2.
Proof.
  intros Hc. unfold Fields.overlap.
  rewrite !poynting_scale_e, !poynting_scale_h.
  destruct (Fields.poynting_fn 2 e1 h2) as [p12|]; cbn [mbind py_bind];
    [|reflexivity].
  destruct (Fields.poynting_fn 2 e2 h1) as [p21|]; cbn [mbind py_bind];
    [|reflexivity].
  destruct (Fields.poynting_fn 2 e1 h1) as [p11|]; cbn [mbind py_bind];
    [|reflexivity].
  destruct (Fields.poynting_fn 2 e2 h2) as [p22|]; cbn [mbind py_bind];
    [|reflexivity].
  rewrite !sum_scale. now rewrite (cdivide_scale c _ _ _ Hc).
Qed.

Lemma overlap_scale_invariant_witness :
  Fields.overlap
    (map1 (Cmul Ci) (mk_ndarray [3; 1; 1] [Cone; Czero; Czero]))
    (map1 (Cmul Ci) (mk_ndarray [3; 1; 1] [Czero; RtoC 2; Czero]))
    (mk_ndarray [3; 1; 1] [Cone; Czero; Czero])
    (mk_ndarray [3; 1; 1] [Czero; RtoC 2; Czero])
  = Fields.overlap
      (mk_ndarray [3; 1; 1] [Cone; Czero; Czero])
      (mk_ndarray [3; 1; 1] [Czero; RtoC 2; Czero])
      (mk_ndarray [3; 1; 1] [Cone; Czero; Czero])
      (mk_ndarray [3; 1; 1] [Czero; RtoC 2; Czero]).
Proof.
  apply (overlap_scale_invariant Ci). right. simpl. lra.
Defined.
